(** * TechSupport-AI: the agent core, embedded and verified

    A shallow embedding of the TypeScript sources under [src/lib]:
    - [JS]          the string primitives of the host language the code relies on;
    - [Regex]       a backtracking matcher with the semantics of ECMAScript's
                    [RegExp] (greedy quantifiers, alternation in priority order,
                    anchors, word boundaries, lookahead), with [exec], [test],
                    [replace] and [split];
    - [Guardrails]  [lib/ai/guardrails.ts];
    - [Playbooks]   [lib/playbooks/engine.ts] and its types;
    - [Embeddings]  [lib/knowledge-base/embeddings.ts];
    - [Retrieval]   [lib/knowledge-base/retrieval.ts] and [lib/pinecone.ts];
    - [Chunker]     [lib/knowledge-base/chunker.ts];
    - [L1Agent]     [lib/ai/l1-agent.ts].

    Conventions.  A JavaScript string is a list of code units, here 8-bit
    ([list ascii]); a [number] that the code only counts or compares is an
    integer ([Z]); a [number] that is a similarity score or a vector component
    is an IEEE 754 binary64 float ([PrimFloat.float]), which is what a
    JavaScript number is.  [undefined] is [None].  Code that awaits an external
    service runs in the monad [Eff.M]: a log of the calls issued, threaded as
    state, with exceptions. *)

From Stdlib Require Import String Ascii List ZArith NArith Lia Bool PrimFloat.
From Stdlib Require Import DecimalString Sorted.
From stdpp Require Import gmap.
From Equations Require Import Equations.
Import ListNotations.

#[local] Set Warnings "-inexact-float,-register-all".
#[local] Open Scope string_scope.
#[local] Open Scope list_scope.

(** A JavaScript string. String literals are read through the coercion. *)
Abbreviation str := (list ascii).
Coercion list_ascii_of_string : string >-> list.

(* ===================================================================== *)
(** * JS: string primitives                                               *)
(* ===================================================================== *)
Module JS.

Definition code (c : ascii) : N := N_of_ascii c.

Definition in_range (lo hi : N) (c : ascii) : bool :=
  ((lo <=? code c) && (code c <=? hi))%N.

Definition is_code (n : N) (c : ascii) : bool := (code c =? n)%N.

Definition is_upper := in_range 65 90.
Definition is_lower := in_range 97 122.
Definition is_digit := in_range 48 57.

(** [\w] *)
Definition is_word (c : ascii) : bool :=
  is_upper c || is_lower c || is_digit c || is_code 95 c.

(** WhiteSpace and LineTerminator code units below 256: TAB, LF, VT, FF, CR,
    SP, NBSP.  This is [\s], and what [trim] strips. *)
Definition is_space (c : ascii) : bool :=
  in_range 9 13 c || is_code 32 c || is_code 160 c.

(** LineTerminator code units below 256: LF, CR. *)
Definition is_line_terminator (c : ascii) : bool :=
  is_code 10 c || is_code 13 c.

Definition shift32 (c : ascii) : ascii := ascii_of_N (code c + 32).

(** [String.prototype.toLowerCase] on one code unit: A-Z and the Latin-1
    capitals (U+00C0-U+00DE without the multiplication sign). *)
Definition lower_char (c : ascii) : ascii :=
  if is_upper c || in_range 192 214 c || in_range 216 222 c
  then shift32 c else c.

Definition toLowerCase (s : str) : str := map lower_char s.

(** Case folding of an [/i] regular expression restricted to code units below
    256: only the ASCII letters have a partner. *)
Definition fold_char (c : ascii) : ascii :=
  if is_upper c then shift32 c else c.

Definition char_eqb (a b : ascii) : bool := (code a =? code b)%N.

Fixpoint startsWith (s p : str) : bool :=
  match p, s with
  | [], _ => true
  | _ :: _, [] => false
  | a :: p', b :: s' => char_eqb a b && startsWith s' p'
  end.

(** [s.includes(sub)] *)
Fixpoint includes (s sub : str) : bool :=
  startsWith s sub ||
  match s with
  | [] => false
  | _ :: t => includes t sub
  end.

(** [s.replace(pat, rep)] for a string pattern and a replacement without
    [$]: the first occurrence only. *)
Fixpoint replace_first (s pat rep : str) : str :=
  if startsWith s pat then rep ++ skipn (length pat) s
  else match s with
       | [] => []
       | c :: t => c :: replace_first t pat rep
       end.

Definition len (s : str) : Z := Z.of_nat (length s).

(** Relative index of [slice]: negative counts from the end, clamped. *)
Definition clamp_index (n : Z) (i : Z) : nat :=
  Z.to_nat (if (i <? 0)%Z then Z.max (n + i) 0 else Z.min i n).

(** [s.slice(start, end)] *)
Definition slice (s : str) (start stop : Z) : str :=
  let from := clamp_index (len s) start in
  let to := clamp_index (len s) stop in
  firstn (to - from) (skipn from s).

(** [s.slice(start)] *)
Definition slice_from (s : str) (start : Z) : str :=
  skipn (clamp_index (len s) start) s.

(** [s.substring(0, n)] for a literal [n >= 0]. *)
Definition substring0 (s : str) (n : nat) : str := firstn n s.

Fixpoint trimStart (s : str) : str :=
  match s with
  | [] => []
  | c :: t => if is_space c then trimStart t else s
  end.

Definition trimEnd (s : str) : str := rev (trimStart (rev s)).

(** [s.trim()] *)
Definition trim (s : str) : str := trimEnd (trimStart s).

(** Truthiness of a string: non-empty. *)
Definition truthy (s : str) : bool :=
  match s with [] => false | _ => true end.

(** [l.join(sep)] *)
Fixpoint join (sep : str) (l : list str) : str :=
  match l with
  | [] => []
  | [x] => x
  | x :: t => x ++ sep ++ join sep t
  end.

(** [s.split(sep)] for a one-character separator. *)
Fixpoint split_char_aux (sep : ascii) (s : str) (cur : str) : list str :=
  match s with
  | [] => [rev cur]
  | c :: t => if char_eqb c sep then rev cur :: split_char_aux sep t []
              else split_char_aux sep t (c :: cur)
  end.

Definition split_char (sep : ascii) (s : str) : list str :=
  split_char_aux sep s [].

(** [Math.ceil(n / 4)] for a length [n]. *)
Definition ceil_div4 (n : Z) : Z := ((n + 3) / 4)%Z.

(** Decimal rendering of an integer inside a template literal. *)
Definition string_of_Z (z : Z) : str :=
  list_ascii_of_string (NilZero.string_of_int (Z.to_int z)).

(** The double quote, as a one-character string. *)
Definition dquote : str := ["034"%char].

End JS.

(* ===================================================================== *)
(** * Regex: ECMAScript regular expressions                              *)
(* ===================================================================== *)
Module Regex.
Import JS.

(** Pattern syntax.  A character class, a literal and [.] are all [RChar]
    with the predicate they denote; the [i] flag is applied when the
    predicate is built. *)
Inductive regex : Type :=
| REmpty
| RChar (p : ascii -> bool)
| RSeq (a b : regex)
| RAlt (a b : regex)
| RRep (a : regex) (lo : nat) (hi : option nat)
| RBol
| REol
| RWordB
| RLook (a : regex).

(** A position in the subject: the code unit before it, the rest of the
    subject, and its index. *)
Record mstate : Type := MState {
  prev : option ascii;
  rest : str;
  pos : nat
}.

Definition word_before (st : mstate) : bool :=
  match prev st with Some c => is_word c | None => false end.

Definition word_after (st : mstate) : bool :=
  match rest st with c :: _ => is_word c | [] => false end.

Definition at_bol (multiline : bool) (st : mstate) : bool :=
  match prev st with
  | None => true
  | Some c => multiline && is_line_terminator c
  end.

Definition at_eol (multiline : bool) (st : mstate) : bool :=
  match rest st with
  | [] => true
  | c :: _ => multiline && is_line_terminator c
  end.

Definition opt_pred (o : option nat) : option nat :=
  match o with Some n => Some (Nat.pred n) | None => None end.

(** The loop of a greedy quantifier [a{lo,hi}], given the matcher [m] of
    [a] and the continuation [k] of the quantifier: [lo] iterations are
    mandatory; beyond them an iteration is tried first, one that consumes
    nothing is rejected, and [k] is the fallback.  The counter [fuel] bounds
    the mandatory iterations plus the characters left, so it is never
    exhausted. *)
Fixpoint rep_loop (m : mstate -> (mstate -> option nat) -> option nat)
    (k : mstate -> option nat) (fuel lo : nat) (hi : option nat) (st : mstate)
    {struct fuel} : option nat :=
  match fuel with
  | O => None
  | S fuel' =>
      match hi with
      | Some O => k st
      | _ =>
          let d := fun st' =>
            if Nat.eqb lo 0 && Nat.eqb (pos st') (pos st) then None
            else rep_loop m k fuel' (Nat.pred lo) (opt_pred hi) st' in
          if Nat.ltb 0 lo then m st d
          else match m st d with
               | Some z => Some z
               | None => k st
               end
      end
  end.

(** The matcher, in continuation-passing style as in the language
    specification: [rmatch ml r st k] tries the alternatives of [r] at [st] in
    priority order and returns the first result the continuation [k]
    accepts. *)
Fixpoint rmatch (ml : bool) (r : regex) (st : mstate)
    (k : mstate -> option nat) {struct r} : option nat :=
  match r with
  | REmpty => k st
  | RChar p =>
      match rest st with
      | c :: t => if p c then k (MState (Some c) t (S (pos st))) else None
      | [] => None
      end
  | RSeq a b => rmatch ml a st (fun st' => rmatch ml b st' k)
  | RAlt a b =>
      match rmatch ml a st k with
      | Some z => Some z
      | None => rmatch ml b st k
      end
  | RRep a lo hi =>
      rep_loop (rmatch ml a) k (S (lo + length (rest st))) lo hi st
  | RBol => if at_bol ml st then k st else None
  | REol => if at_eol ml st then k st else None
  | RWordB => if xorb (word_before st) (word_after st) then k st else None
  | RLook a =>
      match rmatch ml a st (fun _ => Some 0) with
      | Some _ => k st
      | None => None
      end
  end.

(** A match anchored at [st]: the index where it ends. *)
Definition match_here (ml : bool) (r : regex) (st : mstate) : option nat :=
  rmatch ml r st (fun st' => Some (pos st')).

(** The leftmost match at or after [st]: its index and its end. *)
Fixpoint search (ml : bool) (r : regex) (p : option ascii) (s : str) (i : nat)
  : option (nat * nat) :=
  match match_here ml r (MState p s i) with
  | Some e => Some (i, e)
  | None =>
      match s with
      | [] => None
      | c :: t => search ml r (Some c) t (S i)
      end
  end.

(** The state at index [n] of a subject, [None] beyond its end. *)
Fixpoint seek (p : option ascii) (s : str) (i n : nat) : option mstate :=
  match n with
  | O => Some (MState p s i)
  | S n' =>
      match s with
      | [] => None
      | c :: t => seek (Some c) t (S i) n'
      end
  end.

(** A [RegExp] object: pattern and flags ([i] lives in the pattern). *)
Record RegExp : Type := {
  pattern : regex;
  multiline : bool
}.

Definition re (r : regex) : RegExp := {| pattern := r; multiline := false |}.
Definition re_m (r : regex) : RegExp := {| pattern := r; multiline := true |}.

(** [re.exec(text)] of a global regular expression whose [lastIndex] is
    [lastIndex]: the match's index and end.  The caller stores the end as the
    new [lastIndex], or 0 after [None]. *)
Definition exec (r : RegExp) (text : str) (lastIndex : nat) : option (nat * nat) :=
  match seek None text 0 lastIndex with
  | Some st => search (multiline r) (pattern r) (prev st) (rest st) (pos st)
  | None => None
  end.

(** [re.test(text)] of a global regular expression: the answer and the new
    [lastIndex]. *)
Definition test_g (r : RegExp) (text : str) (lastIndex : nat) : bool * nat :=
  match exec r text lastIndex with
  | Some (_, e) => (true, e)
  | None => (false, 0)
  end.

(** [re.test(text)] of a regular expression object fresh from its literal. *)
Definition test (r : RegExp) (text : str) : bool := fst (test_g r text 0).

(** The code unit before the position reached by consuming [m]. *)
Definition prev_after (p : option ascii) (m : str) : option ascii :=
  match rev m with
  | [] => p
  | c :: _ => Some c
  end.

(** The matched text of a match [(i, e)]. *)
Definition matched (text : str) (m : nat * nat) : str :=
  firstn (snd m - fst m) (skipn (fst m) text).

(** All matches of a global regular expression by repeated [exec] from
    [lastIndex = 0], as in [while ((m = re.exec(text)) !== null)].  An empty
    match leaves [lastIndex] where it is, so the source's loop would not end:
    [None].  Otherwise [lastIndex] grows with every match and the counter,
    one more than the length of the subject, is never exhausted. *)
Fixpoint exec_all_from (fuel : nat) (r : RegExp) (text : str) (lastIndex : nat)
  : option (list (nat * nat)) :=
  match fuel with
  | O => None
  | S fuel' =>
      match exec r text lastIndex with
      | None => Some []
      | Some (i, e) =>
          if Nat.leb e i then None
          else match exec_all_from fuel' r text e with
               | Some ms => Some ((i, e) :: ms)
               | None => None
               end
      end
  end.

Definition exec_all (r : RegExp) (text : str) : option (list (nat * nat)) :=
  exec_all_from (S (length text)) r text 0.

(** [text.replace(re, rep)] for a global regular expression none of whose
    matches is empty, and a replacement without [$]. *)
Fixpoint replace_all_from (fuel : nat) (ml : bool) (r : regex) (rep : str)
    (p : option ascii) (s : str) (i : nat) : str :=
  match fuel with
  | O => s
  | S fuel' =>
      match s with
      | [] => []
      | c :: t =>
          match match_here ml r (MState p s i) with
          | Some e =>
              if Nat.leb e i then c :: replace_all_from fuel' ml r rep (Some c) t (S i)
              else rep ++
                   replace_all_from fuel' ml r rep
                     (prev_after p (firstn (e - i) s)) (skipn (e - i) s) e
          | None => c :: replace_all_from fuel' ml r rep (Some c) t (S i)
          end
      end
  end.

Definition replace_all (r : RegExp) (rep : str) (text : str) : str :=
  replace_all_from (S (length text)) (multiline r) (pattern r) rep None text 0.

(** [text.split(re)] (RegExp.prototype[Symbol.split]) without a limit.  At
    each index [q] the pattern is tried anchored at [q]; a match that ends at
    the start [p] of the current piece is skipped; otherwise the piece is
    emitted, then, when [caps] is set, the matched text (the pattern's one
    capture group around everything), and the next piece starts at the end of
    the match.  [piece] holds the current piece reversed. *)
Fixpoint split_from (fuel : nat) (ml : bool) (r : regex) (caps : bool)
    (p : nat) (piece : str) (pv : option ascii) (s : str) (q : nat) : list str :=
  match fuel with
  | O => [rev piece ++ s]
  | S fuel' =>
      match s with
      | [] => [rev piece]
      | c :: t =>
          let step := split_from fuel' ml r caps p (c :: piece) (Some c) t (S q) in
          match match_here ml r (MState pv s q) with
          | None => step
          | Some e =>
              if Nat.eqb e p then step
              else
                let m := firstn (e - q) s in
                rev piece ::
                (if caps then [m] else []) ++
                split_from fuel' ml r caps e [] (prev_after pv m)
                  (skipn (e - q) s) e
          end
      end
  end.

Definition split (r : RegExp) (caps : bool) (text : str) : list str :=
  match text with
  | [] =>
      match match_here (multiline r) (pattern r) (MState None [] 0) with
      | Some _ => []
      | None => [[]]
      end
  | _ => split_from (S (2 * length text)) (multiline r) (pattern r) caps
           0 [] None text 0
  end.

(** ** Pattern combinators *)

Definition chr (c : ascii) : regex := RChar (char_eqb c).
Definition chr_i (c : ascii) : regex :=
  RChar (fun x => char_eqb (fold_char x) (fold_char c)).

Fixpoint seq (l : list regex) : regex :=
  match l with
  | [] => REmpty
  | [r] => r
  | r :: t => RSeq r (seq t)
  end.

Fixpoint alt (l : list regex) : regex :=
  match l with
  | [] => REmpty
  | [r] => r
  | r :: t => RAlt r (alt t)
  end.

(** A literal, case sensitive or under the [i] flag. *)
Definition lit (s : str) : regex := seq (map chr s).
Definition lit_i (s : str) : regex := seq (map chr_i s).

Definition opt (r : regex) : regex := RRep r 0 (Some 1).
Definition plus (r : regex) : regex := RRep r 1 None.
Definition star (r : regex) : regex := RRep r 0 None.
Definition at_least (n : nat) (r : regex) : regex := RRep r n None.
Definition exactly (n : nat) (r : regex) : regex := RRep r n (Some n).
Definition between (lo hi : nat) (r : regex) : regex := RRep r lo (Some hi).

(** A class given by the characters it lists. *)
Definition one_of (s : str) (c : ascii) : bool := existsb (char_eqb c) s.

Definition alnum (c : ascii) : bool := is_upper c || is_lower c || is_digit c.

End Regex.

(* ===================================================================== *)
(** * Guardrails: lib/ai/guardrails.ts                                    *)
(* ===================================================================== *)
Module Guardrails.
Import JS Regex.

(** ** The catalogue of sensitive patterns

    Each pattern is quoted from the source, with the double quote written
    [\x22]. *)

Definition quote_class : ascii -> bool := one_of ("'" ++ dquote).
Definition assign_class (c : ascii) : bool := one_of "=:" c || is_space c.
Definition not_space_quote (c : ascii) : bool :=
  negb (is_space c || quote_class c).

(** [/(?:api[_-]?key|apikey)[=:\s]+['\x22]?([a-zA-Z0-9_\-]{20,})['\x22]?/gi] *)
Definition re_api_key : regex :=
  seq [ alt [ seq [lit_i "api"; opt (RChar (one_of "_-")); lit_i "key"];
              lit_i "apikey" ];
        plus (RChar assign_class);
        opt (RChar quote_class);
        at_least 20 (RChar (fun c => alnum c || one_of "_-" c));
        opt (RChar quote_class) ].

(** [/(?:bearer|token)[:\s]+['\x22]?([a-zA-Z0-9_\-\.]{20,})['\x22]?/gi] *)
Definition re_bearer : regex :=
  seq [ alt [lit_i "bearer"; lit_i "token"];
        plus (RChar (fun c => one_of ":" c || is_space c));
        opt (RChar quote_class);
        at_least 20 (RChar (fun c => alnum c || one_of "_-." c));
        opt (RChar quote_class) ].

(** [/sk-[a-zA-Z0-9]{32,}/gi] *)
Definition re_openai : regex := seq [lit_i "sk-"; at_least 32 (RChar alnum)].

(** [/ghp_[a-zA-Z0-9]{36}/gi] *)
Definition re_github : regex := seq [lit_i "ghp_"; exactly 36 (RChar alnum)].

(** [/gho_[a-zA-Z0-9]{36}/gi] *)
Definition re_github_oauth : regex := seq [lit_i "gho_"; exactly 36 (RChar alnum)].

(** [/xox[baprs]-[a-zA-Z0-9\-]+/gi] *)
Definition re_slack : regex :=
  seq [ lit_i "xox"; RChar (fun c => one_of "baprs" (fold_char c)); chr "-";
        plus (RChar (fun c => alnum c || one_of "-" c)) ].

(** [/AKIA[A-Z0-9]{16}/gi] *)
Definition re_aws_access : regex := seq [lit_i "AKIA"; exactly 16 (RChar alnum)].

(** [/(?:aws[_-]?secret|secret[_-]?key)[=:\s]+['\x22]?([a-zA-Z0-9\/+=]{40})['\x22]?/gi] *)
Definition re_aws_secret : regex :=
  seq [ alt [ seq [lit_i "aws"; opt (RChar (one_of "_-")); lit_i "secret"];
              seq [lit_i "secret"; opt (RChar (one_of "_-")); lit_i "key"] ];
        plus (RChar assign_class);
        opt (RChar quote_class);
        exactly 40 (RChar (fun c => alnum c || one_of "/+=" c));
        opt (RChar quote_class) ].

(** [/(?:password|passwd|pwd)[=:\s]+['\x22]?([^\s'\x22]{8,})['\x22]?/gi] *)
Definition re_password : regex :=
  seq [ alt [lit_i "password"; lit_i "passwd"; lit_i "pwd"];
        plus (RChar assign_class);
        opt (RChar quote_class);
        at_least 8 (RChar not_space_quote);
        opt (RChar quote_class) ].

(** [/(?:secret|credential)[=:\s]+['\x22]?([^\s'\x22]{8,})['\x22]?/gi] *)
Definition re_secret : regex :=
  seq [ alt [lit_i "secret"; lit_i "credential"];
        plus (RChar assign_class);
        opt (RChar quote_class);
        at_least 8 (RChar not_space_quote);
        opt (RChar quote_class) ].

(** [/\b(?:4[0-9]{12}(?:[0-9]{3})?|5[1-5][0-9]{14}|3[47][0-9]{13}|6(?:011|5[0-9]{2})[0-9]{12})\b/g] *)
Definition re_credit_card : regex :=
  let d := RChar is_digit in
  seq [ RWordB;
        alt [ seq [chr "4"; exactly 12 d; opt (exactly 3 d)];
              seq [chr "5"; RChar (one_of "12345"); exactly 14 d];
              seq [chr "3"; RChar (one_of "47"); exactly 13 d];
              seq [chr "6"; alt [lit "011"; seq [chr "5"; exactly 2 d]];
                   exactly 12 d] ];
        RWordB ].

(** [/\b\d{3}-\d{2}-\d{4}\b/g] *)
Definition re_ssn : regex :=
  let d := RChar is_digit in
  seq [RWordB; exactly 3 d; chr "-"; exactly 2 d; chr "-"; exactly 4 d; RWordB].

(** [/-----BEGIN (?:RSA |EC |DSA |OPENSSH )?PRIVATE KEY-----/gi] *)
Definition re_private_key : regex :=
  seq [ lit_i "-----BEGIN ";
        opt (alt [lit_i "RSA "; lit_i "EC "; lit_i "DSA "; lit_i "OPENSSH "]);
        lit_i "PRIVATE KEY-----" ].

(** [/(?:mongodb|mysql|postgresql|redis|amqp):\/\/[^\s]+/gi] *)
Definition re_connection : regex :=
  seq [ alt [lit_i "mongodb"; lit_i "mysql"; lit_i "postgresql"; lit_i "redis";
             lit_i "amqp"];
        lit "://";
        plus (RChar (fun c => negb (is_space c))) ].

(** [/[a-zA-Z0-9._%+-]+@[a-zA-Z0-9.-]+\.[a-zA-Z]{2,}:[^\s]+/gi] *)
Definition re_email_password : regex :=
  seq [ plus (RChar (fun c => alnum c || one_of "._%+-" c));
        chr "@";
        plus (RChar (fun c => alnum c || one_of ".-" c));
        chr ".";
        at_least 2 (RChar (fun c => is_upper c || is_lower c));
        chr ":";
        plus (RChar (fun c => negb (is_space c))) ].

Record SensitivePattern : Type := {
  pattern : RegExp;
  name : str
}.

Definition sensitive (r : regex) (n : string) : SensitivePattern :=
  {| pattern := re r; name := n |}.

Definition SENSITIVE_PATTERNS : list SensitivePattern :=
  [ sensitive re_api_key "API Key";
    sensitive re_bearer "Bearer Token";
    sensitive re_openai "OpenAI API Key";
    sensitive re_github "GitHub Token";
    sensitive re_github_oauth "GitHub OAuth Token";
    sensitive re_slack "Slack Token";
    sensitive re_aws_access "AWS Access Key";
    sensitive re_aws_secret "AWS Secret";
    sensitive re_password "Password";
    sensitive re_secret "Secret";
    sensitive re_credit_card "Credit Card";
    sensitive re_ssn "SSN";
    sensitive re_private_key "Private Key";
    sensitive re_connection "Connection String";
    sensitive re_email_password "Email:Password" ].

Definition ESCALATION_KEYWORDS : list str :=
  map list_ascii_of_string
  [ "lawsuit"; "legal action"; "attorney"; "lawyer"; "sue"; "court";
    "compliance"; "regulation"; "gdpr"; "hipaa"; "pci"; "sox";
    "breach"; "hack"; "compromised"; "unauthorized access"; "data leak";
    "ransomware"; "malware"; "phishing"; "security incident";
    "fraud"; "charge back"; "chargeback"; "dispute charge"; "unauthorized charge";
    "refund demand"; "cancel subscription"; "billing error";
    "speak to manager"; "supervisor"; "escalate"; "unacceptable";
    "terrible service"; "worst experience"; "never again";
    "social media"; "bad review"; "report you"; "bbb";
    "emergency"; "urgent"; "critical"; "production down"; "outage" ].

(** ** redactSecrets *)

Record Redaction : Type := {
  type : str;
  original : str;
  position : nat
}.

Record RedactionResult : Type := {
  text : str;
  redactions : list Redaction;
  hasSecrets : bool
}.

(** The body of the [while] loop for one match [m] of the pattern named [n]
    in the input [input]: the match is searched in the ORIGINAL text, and its
    first occurrence in the RESULT so far is replaced. *)
Definition redact_match (n : str) (input : str)
    (acc : str * list Redaction) (m : nat * nat) : str * list Redaction :=
  let original := matched input m in
  let replacement := "[REDACTED " ++ n ++ "]" in
  ( replace_first (fst acc) original replacement,
    snd acc ++ [ {| type := n;
                    original := substring0 original 4 ++ "...";
                    position := fst m |} ] ).

(** The [for ... of SENSITIVE_PATTERNS] loop. [None]: a [while] loop that
    does not end. *)
Fixpoint redact_patterns (ps : list SensitivePattern) (input : str)
    (acc : str * list Redaction) : option (str * list Redaction) :=
  match ps with
  | [] => Some acc
  | p :: ps' =>
      match exec_all (pattern p) input with
      | Some ms => redact_patterns ps' input (fold_left (redact_match (name p) input) ms acc)
      | None => None
      end
  end.

Definition redactSecrets (input : str) : option RedactionResult :=
  match redact_patterns SENSITIVE_PATTERNS input (input, []) with
  | Some (result, reds) =>
      Some {| text := result;
              redactions := reds;
              hasSecrets := Nat.ltb 0 (length reds) |}
  | None => None
  end.

(** ** checkEscalationTriggers *)

Inductive Severity : Type := Low | Medium | High | Critical.

Definition severity_eqb (a b : Severity) : bool :=
  match a, b with
  | Low, Low | Medium, Medium | High, High | Critical, Critical => true
  | _, _ => false
  end.

Definition severity_name (s : Severity) : str :=
  match s with
  | Low => "low" | Medium => "medium" | High => "high" | Critical => "critical"
  end.

(** The optional [context] argument. *)
Record TriggerContext : Type := {
  failedAttempts : option Z;
  severity : option str;
  customerRequested : option bool
}.

Record EscalationCheck : Type := {
  shouldEscalate : bool;
  reasons : list str;
  check_severity : Severity
}.

Definition CRITICAL_KEYWORDS : list str :=
  map list_ascii_of_string
    ["lawsuit"; "legal action"; "breach"; "hack"; "security incident"].

Definition HIGH_KEYWORDS : list str :=
  map list_ascii_of_string
    ["compliance"; "fraud"; "emergency"; "production down"].

Definition str_eqb (a b : str) : bool :=
  Nat.eqb (length a) (length b) && startsWith a b.

(** The scan's state: the reasons pushed so far and the mutable [severity]. *)
Definition scan : Type := (list str * Severity)%type.

(** One iteration of [for (const keyword of ESCALATION_KEYWORDS)]. *)
Definition keyword_step (lowerMessage : str) (acc : scan) (keyword : str) : scan :=
  let '(rs, sev) := acc in
  if includes lowerMessage (toLowerCase keyword) then
    let rs' := rs ++ ["Keyword detected: " ++ dquote ++ keyword ++ dquote] in
    if existsb (fun k => includes (toLowerCase keyword) k) CRITICAL_KEYWORDS
    then (rs', Critical)
    else if existsb (fun k => includes (toLowerCase keyword) k) HIGH_KEYWORDS
    then (rs', High)
    else if negb (severity_eqb sev Critical) && negb (severity_eqb sev High)
    then (rs', Medium)
    else (rs', sev)
  else acc.

(** The keyword loop over a list of keywords, from a given state. *)
Definition keyword_scan (lowerMessage : str) (keywords : list str) (acc : scan) : scan :=
  fold_left (keyword_step lowerMessage) keywords acc.

(** [if (context.failedAttempts && context.failedAttempts >= 3)] *)
Definition failed_attempts_step (c : TriggerContext) (acc : scan) : scan :=
  let '(rs, sev) := acc in
  match failedAttempts c with
  | Some n =>
      if negb (n =? 0)%Z && (3 <=? n)%Z
      then (rs ++ [list_ascii_of_string "Multiple failed resolution attempts"],
            if severity_eqb sev Low then Medium else sev)
      else acc
  | None => acc
  end.

(** [if (context.severity === 'critical' || context.severity === 'high')]:
    the case's severity is assigned, whatever the scan had reached. *)
Definition case_severity_step (c : TriggerContext) (acc : scan) : scan :=
  let '(rs, sev) := acc in
  match severity c with
  | Some s =>
      if str_eqb s "critical" then (rs ++ ["Case severity: " ++ s], Critical)
      else if str_eqb s "high" then (rs ++ ["Case severity: " ++ s], High)
      else acc
  | None => acc
  end.

(** [if (context.customerRequested)] *)
Definition customer_requested_step (c : TriggerContext) (acc : scan) : scan :=
  let '(rs, sev) := acc in
  match customerRequested c with
  | Some true =>
      (rs ++ [list_ascii_of_string "Customer requested human agent"],
       if severity_eqb sev Low then Medium else sev)
  | _ => acc
  end.

Definition context_steps (context : option TriggerContext) (acc : scan) : scan :=
  match context with
  | Some c =>
      customer_requested_step c (case_severity_step c (failed_attempts_step c acc))
  | None => acc
  end.

Definition checkEscalationTriggers (message : str)
    (context : option TriggerContext) : EscalationCheck :=
  let lowerMessage := toLowerCase message in
  let '(rs, sev) :=
    context_steps context (keyword_scan lowerMessage ESCALATION_KEYWORDS ([], Low)) in
  {| shouldEscalate := Nat.ltb 0 (length rs);
     reasons := rs;
     check_severity := sev |}.

(** ** validateAIResponse *)

Record Validation : Type := {
  valid : bool;
  issues : list str;
  sanitizedResponse : str
}.

(** [/\bi will hack\b/gi], [/\bpassword is\b/gi], [/\bhere's your api key\b/gi],
    [/\byour credit card\b/gi] *)
Definition inappropriatePatterns : list RegExp :=
  map (fun s : string => re (seq [RWordB; lit_i s; RWordB]))
    ["i will hack"; "password is"; "here's your api key"; "your credit card"].

Definition validateAIResponse (response : str) : option Validation :=
  match redactSecrets response with
  | None => None
  | Some redaction =>
      let issues1 :=
        if hasSecrets redaction
        then [list_ascii_of_string "Response contained sensitive data that was redacted"]
        else [] in
      let sanitized := if hasSecrets redaction then text redaction else response in
      let issues2 :=
        if existsb (fun p => test p response) inappropriatePatterns
        then [list_ascii_of_string "Response may contain inappropriate content"]
        else [] in
      let issues3 :=
        if (4000 <? len response)%Z
        then [list_ascii_of_string "Response exceeds recommended length"]
        else [] in
      let all := issues1 ++ issues2 ++ issues3 in
      Some {| valid := Nat.eqb (length all) 0;
              issues := all;
              sanitizedResponse := sanitized |}
  end.

(** ** The actions of the L1 agent *)

Definition getSafeActions : list str :=
  map list_ascii_of_string
    [ "lookup_documentation"; "check_status"; "send_verification_email";
      "reset_password_link"; "create_ticket"; "escalate_to_l2";
      "escalate_to_human"; "provide_information"; "guide_through_steps" ].

(** [safeActions.includes(action.toLowerCase())] *)
Definition isActionSafe (action : str) : bool :=
  existsb (str_eqb (toLowerCase action)) getSafeActions.

Definition getDangerousActions : list str :=
  map list_ascii_of_string
    [ "delete_account"; "delete_data"; "modify_billing"; "issue_refund";
      "change_subscription"; "access_payment_info"; "modify_permissions";
      "execute_code"; "run_command" ].

End Guardrails.


(* ===================================================================== *)
(** * Playbooks: lib/playbooks/types.ts and lib/playbooks/engine.ts        *)
(* ===================================================================== *)
Module Playbooks.
Import JS.

(** Each interface of [types.ts] is a record in a module of its name, so
    that the fields keep theirs. *)

Module PlaybookStep.
Record t : Type := {
  id : str;
  title : str;
  instruction : str;
  expectedOutcome : option str;
  failureHint : option str;
  nextOnSuccess : option str;
  nextOnFailure : option str;
  escalateOnFailure : option bool;
  requiresConfirmation : option bool;
  maxAttempts : option Z;
  timeout : option Z
}.
End PlaybookStep.

Module PlaybookTrigger.
Record t : Type := {
  keywords : option (list str);
  categories : option (list str);
  products : option (list str);
  severity : option (list Guardrails.Severity);
  condition : option str
}.
End PlaybookTrigger.

Module PlaybookMetadata.
Record t : Type := {
  id : str;
  name : str;
  description : str;
  version : str;
  product : str;
  category : str;
  language : str
}.
End PlaybookMetadata.

Module Escalation.
Record t : Type := {
  defaultMessage : str;
  conditions : list (str * str)
}.
End Escalation.

Module Playbook.
Record t : Type := {
  metadata : PlaybookMetadata.t;
  triggers : PlaybookTrigger.t;
  steps : list PlaybookStep.t;
  escalation : Escalation.t;
  variables : option (list (str * str))
}.
End Playbook.

Inductive Outcome : Type := in_progress | resolved | escalated.

(** A value of [stepAttempts]: a count, or the text that [+ 1] makes of a
    value that is not a number.  [Text name k] is the text of the property
    [name] of [Object.prototype] (the source of a function, or
    [[object Object]]) followed by [k] characters [1]. *)
Inductive Attempts : Type :=
| Count (n : Z)
| Text (name : str) (ones : nat).

(** [stepAttempts] holds the own properties of the object; [variables] is
    the list of the own properties in the order of [Object.entries]. *)
Module PlaybookExecutionState.
Record t : Type := {
  playbookId : str;
  currentStepId : str;
  stepAttempts : gmap str Attempts;
  completedSteps : list str;
  failedSteps : list str;
  startedAt : Z;
  lastUpdatedAt : Z;
  variables : list (str * str);
  outcome : option Outcome
}.
End PlaybookExecutionState.

(** The outcome the caller reports for a step, and the outcome a result
    carries. *)
Inductive StepOutcome : Type := success | failure.

Inductive ResultOutcome : Type :=
  outcome_success | outcome_failure | outcome_skipped | outcome_timeout.

Module PlaybookExecutionResult.
Record t : Type := {
  success : bool;
  stepId : str;
  stepTitle : str;
  outcome : ResultOutcome;
  message : str;
  nextStepId : option str;
  shouldEscalate : bool;
  escalationReason : option str
}.
End PlaybookExecutionResult.

(** [x || d] on an optional number: [undefined] and [0] are falsy. *)
Definition num_or (x : option Z) (d : Z) : Z :=
  match x with
  | Some n => if (n =? 0)%Z then d else n
  | None => d
  end.

(** [x || d] on an optional string: [undefined] and the empty string are
    falsy. *)
Definition str_or (x : option str) (d : str) : str :=
  match x with
  | Some s => if truthy s then s else d
  | None => d
  end.

(** Truthiness of an optional string, as in [if (nextStepId)]. *)
Definition present (x : option str) : bool :=
  match x with
  | Some s => truthy s
  | None => false
  end.

Definition is_failure (o : StepOutcome) : bool :=
  match o with failure => true | success => false end.

(** [x ?? d] *)
Definition nullish_or {A : Type} (x : option A) (d : A) : A :=
  match x with Some a => a | None => d end.

(** [createExecutionState]; [now] is the clock's reading. *)
Definition createExecutionState (now : Z) (playbook : Playbook.t) : PlaybookExecutionState.t :=
  {| PlaybookExecutionState.playbookId := PlaybookMetadata.id (Playbook.metadata playbook);
     PlaybookExecutionState.currentStepId :=
       match Playbook.steps playbook with
       | firstStep :: _ => PlaybookStep.id firstStep
       | [] => []
       end;
     PlaybookExecutionState.stepAttempts := ∅;
     PlaybookExecutionState.completedSteps := [];
     PlaybookExecutionState.failedSteps := [];
     PlaybookExecutionState.startedAt := now;
     PlaybookExecutionState.lastUpdatedAt := now;
     PlaybookExecutionState.variables := nullish_or (Playbook.variables playbook) [];
     PlaybookExecutionState.outcome := Some in_progress |}.

(** [playbook.steps.find((s) => s.id === state.currentStepId)] *)
Definition getCurrentStep (playbook : Playbook.t) (state : PlaybookExecutionState.t)
  : option PlaybookStep.t :=
  find (fun s => Guardrails.str_eqb (PlaybookStep.id s)
                   (PlaybookExecutionState.currentStepId state))
       (Playbook.steps playbook).

(** ** The attempt counters

    [stepAttempts] is created as the object literal [{}], whose prototype is
    [Object.prototype]: a read of a key that the object does not own finds
    the property of that name of [Object.prototype], where there is one. *)

(** The property names of [Object.prototype]. *)
Definition OBJECT_PROTOTYPE : list str :=
  map list_ascii_of_string
    [ "constructor"; "__defineGetter__"; "__defineSetter__"; "hasOwnProperty";
      "__lookupGetter__"; "__lookupSetter__"; "isPrototypeOf";
      "propertyIsEnumerable"; "toString"; "valueOf"; "__proto__";
      "toLocaleString" ].

Definition inherited (key : str) : bool :=
  existsb (Guardrails.str_eqb key) OBJECT_PROTOTYPE.

(** The text of a property of [Object.prototype], as Node prints it: the
    accessor [__proto__] reads [Object.prototype] itself, [constructor] is
    the function [Object], the others are functions of their own name. *)
Definition prototype_text (name : str) : str :=
  if Guardrails.str_eqb name "__proto__" then "[object Object]"
  else "function " ++
       (if Guardrails.str_eqb name "constructor" then "Object" else name) ++
       "() { [native code] }".

(** [`${attempts}`] *)
Definition attempts_text (attempts : Attempts) : str :=
  match attempts with
  | Count n => string_of_Z n
  | Text name ones => prototype_text name ++ repeat "1"%char ones
  end.

(** [state.stepAttempts[stepId] = attempts]: the own property is written, or
    created.  The key [__proto__] is the exception when the object does not
    own it: the assignment reaches the setter of [Object.prototype], which
    ignores a value that is not an object. *)
Definition write_attempts (stepId : str) (attempts : Attempts)
    (stepAttempts : gmap str Attempts) : gmap str Attempts :=
  match stepAttempts !! stepId with
  | Some _ => <[stepId := attempts]> stepAttempts
  | None =>
      if Guardrails.str_eqb stepId "__proto__" then stepAttempts
      else <[stepId := attempts]> stepAttempts
  end.

(** The three kinds of write [executeStep] performs on the state it is given. *)
Definition record_attempt (now : Z) (stepId : str) (attempts : Attempts)
    (s : PlaybookExecutionState.t) : PlaybookExecutionState.t :=
  {| PlaybookExecutionState.playbookId := PlaybookExecutionState.playbookId s;
     PlaybookExecutionState.currentStepId := PlaybookExecutionState.currentStepId s;
     PlaybookExecutionState.stepAttempts :=
       write_attempts stepId attempts (PlaybookExecutionState.stepAttempts s);
     PlaybookExecutionState.completedSteps := PlaybookExecutionState.completedSteps s;
     PlaybookExecutionState.failedSteps := PlaybookExecutionState.failedSteps s;
     PlaybookExecutionState.startedAt := PlaybookExecutionState.startedAt s;
     PlaybookExecutionState.lastUpdatedAt := now;
     PlaybookExecutionState.variables := PlaybookExecutionState.variables s;
     PlaybookExecutionState.outcome := PlaybookExecutionState.outcome s |}.

Definition push_failed (stepId : str) (s : PlaybookExecutionState.t)
  : PlaybookExecutionState.t :=
  {| PlaybookExecutionState.playbookId := PlaybookExecutionState.playbookId s;
     PlaybookExecutionState.currentStepId := PlaybookExecutionState.currentStepId s;
     PlaybookExecutionState.stepAttempts := PlaybookExecutionState.stepAttempts s;
     PlaybookExecutionState.completedSteps := PlaybookExecutionState.completedSteps s;
     PlaybookExecutionState.failedSteps := PlaybookExecutionState.failedSteps s ++ [stepId];
     PlaybookExecutionState.startedAt := PlaybookExecutionState.startedAt s;
     PlaybookExecutionState.lastUpdatedAt := PlaybookExecutionState.lastUpdatedAt s;
     PlaybookExecutionState.variables := PlaybookExecutionState.variables s;
     PlaybookExecutionState.outcome := PlaybookExecutionState.outcome s |}.

Definition push_completed (stepId : str) (s : PlaybookExecutionState.t)
  : PlaybookExecutionState.t :=
  {| PlaybookExecutionState.playbookId := PlaybookExecutionState.playbookId s;
     PlaybookExecutionState.currentStepId := PlaybookExecutionState.currentStepId s;
     PlaybookExecutionState.stepAttempts := PlaybookExecutionState.stepAttempts s;
     PlaybookExecutionState.completedSteps := PlaybookExecutionState.completedSteps s ++ [stepId];
     PlaybookExecutionState.failedSteps := PlaybookExecutionState.failedSteps s;
     PlaybookExecutionState.startedAt := PlaybookExecutionState.startedAt s;
     PlaybookExecutionState.lastUpdatedAt := PlaybookExecutionState.lastUpdatedAt s;
     PlaybookExecutionState.variables := PlaybookExecutionState.variables s;
     PlaybookExecutionState.outcome := PlaybookExecutionState.outcome s |}.

Definition set_currentStepId (stepId : str) (s : PlaybookExecutionState.t)
  : PlaybookExecutionState.t :=
  {| PlaybookExecutionState.playbookId := PlaybookExecutionState.playbookId s;
     PlaybookExecutionState.currentStepId := stepId;
     PlaybookExecutionState.stepAttempts := PlaybookExecutionState.stepAttempts s;
     PlaybookExecutionState.completedSteps := PlaybookExecutionState.completedSteps s;
     PlaybookExecutionState.failedSteps := PlaybookExecutionState.failedSteps s;
     PlaybookExecutionState.startedAt := PlaybookExecutionState.startedAt s;
     PlaybookExecutionState.lastUpdatedAt := PlaybookExecutionState.lastUpdatedAt s;
     PlaybookExecutionState.variables := PlaybookExecutionState.variables s;
     PlaybookExecutionState.outcome := PlaybookExecutionState.outcome s |}.

Definition set_outcome (o : Outcome) (s : PlaybookExecutionState.t)
  : PlaybookExecutionState.t :=
  {| PlaybookExecutionState.playbookId := PlaybookExecutionState.playbookId s;
     PlaybookExecutionState.currentStepId := PlaybookExecutionState.currentStepId s;
     PlaybookExecutionState.stepAttempts := PlaybookExecutionState.stepAttempts s;
     PlaybookExecutionState.completedSteps := PlaybookExecutionState.completedSteps s;
     PlaybookExecutionState.failedSteps := PlaybookExecutionState.failedSteps s;
     PlaybookExecutionState.startedAt := PlaybookExecutionState.startedAt s;
     PlaybookExecutionState.lastUpdatedAt := PlaybookExecutionState.lastUpdatedAt s;
     PlaybookExecutionState.variables := PlaybookExecutionState.variables s;
     PlaybookExecutionState.outcome := Some o |}.

(** [(state.stepAttempts[step.id] || 0) + 1].  An own count [n] gives
    [n + 1], and [1] when it is [0]; an own text is not empty, so it is
    truthy, and [+ 1] appends the character [1] to it.  A key that the object
    does not own reads [undefined], which gives [1], unless
    [Object.prototype] has a property of that name: its value is a function
    or an object, which is truthy, and [+ 1] makes of it its text followed by
    [1]. *)
Definition next_attempt (state : PlaybookExecutionState.t) (step : PlaybookStep.t)
  : Attempts :=
  match PlaybookExecutionState.stepAttempts state !! PlaybookStep.id step with
  | Some (Count n) => Count (num_or (Some n) 0 + 1)
  | Some (Text name ones) => Text name (S ones)
  | None =>
      if inherited (PlaybookStep.id step) then Text (PlaybookStep.id step) 1
      else Count 1
  end.

(** [attempts > maxAttempts].  A text that begins with the source of a
    function or with [[object Object]] is no numeric literal: its number is
    [NaN], and no comparison with [NaN] holds. *)
Definition exceeds (attempts : Attempts) (maxAttempts : Z) : bool :=
  match attempts with
  | Count n => (maxAttempts <? n)%Z
  | Text _ _ => false
  end.

(** [step.maxAttempts || 3] *)
Definition max_attempts (step : PlaybookStep.t) : Z :=
  num_or (PlaybookStep.maxAttempts step) 3.

(** [executeStep]: the state object is mutated in place and a result is
    returned; here the state after the call is returned with the result.
    [now] is the clock's reading. *)
Definition executeStep (now : Z) (playbook : Playbook.t)
    (state : PlaybookExecutionState.t) (stepOutcome : StepOutcome)
  : PlaybookExecutionState.t * PlaybookExecutionResult.t :=
  match getCurrentStep playbook state with
  | None =>
      ( state,
        {| PlaybookExecutionResult.success := false;
           PlaybookExecutionResult.stepId := PlaybookExecutionState.currentStepId state;
           PlaybookExecutionResult.stepTitle := "Unknown";
           PlaybookExecutionResult.outcome := outcome_failure;
           PlaybookExecutionResult.message := "Step not found";
           PlaybookExecutionResult.nextStepId := None;
           PlaybookExecutionResult.shouldEscalate := true;
           PlaybookExecutionResult.escalationReason :=
             Some (list_ascii_of_string "Playbook step not found") |} )
  | Some step =>
      let attempts := next_attempt state step in
      let state1 := record_attempt now (PlaybookStep.id step) attempts state in
      let maxAttempts := max_attempts step in
      if exceeds attempts maxAttempts && is_failure stepOutcome then
        ( push_failed (PlaybookStep.id step) state1,
          {| PlaybookExecutionResult.success := false;
             PlaybookExecutionResult.stepId := PlaybookStep.id step;
             PlaybookExecutionResult.stepTitle := PlaybookStep.title step;
             PlaybookExecutionResult.outcome := outcome_failure;
             PlaybookExecutionResult.message :=
               "Step failed after " ++ attempts_text attempts ++ " attempts: " ++
               str_or (PlaybookStep.failureHint step) "Unable to complete step";
             PlaybookExecutionResult.nextStepId := None;
             PlaybookExecutionResult.shouldEscalate :=
               nullish_or (PlaybookStep.escalateOnFailure step) true;
             PlaybookExecutionResult.escalationReason :=
               Some ("Max attempts exceeded for step: " ++ PlaybookStep.title step) |} )
      else
        match stepOutcome with
        | success =>
            let state2 := push_completed (PlaybookStep.id step) state1 in
            let nextStepId := PlaybookStep.nextOnSuccess step in
            ( (if present nextStepId
               then set_currentStepId (nullish_or nextStepId []) state2
               else set_outcome resolved state2),
              {| PlaybookExecutionResult.success := true;
                 PlaybookExecutionResult.stepId := PlaybookStep.id step;
                 PlaybookExecutionResult.stepTitle := PlaybookStep.title step;
                 PlaybookExecutionResult.outcome := outcome_success;
                 PlaybookExecutionResult.message :=
                   str_or (PlaybookStep.expectedOutcome step) "Step completed successfully";
                 PlaybookExecutionResult.nextStepId := nextStepId;
                 PlaybookExecutionResult.shouldEscalate := false;
                 PlaybookExecutionResult.escalationReason := None |} )
        | failure =>
            let nextOnFailure := PlaybookStep.nextOnFailure step in
            ( (if present nextOnFailure
               then set_currentStepId (nullish_or nextOnFailure []) state1
               else state1),
              {| PlaybookExecutionResult.success := false;
                 PlaybookExecutionResult.stepId := PlaybookStep.id step;
                 PlaybookExecutionResult.stepTitle := PlaybookStep.title step;
                 PlaybookExecutionResult.outcome := outcome_failure;
                 PlaybookExecutionResult.message :=
                   str_or (PlaybookStep.failureHint step) "Step did not complete as expected";
                 PlaybookExecutionResult.nextStepId := nextOnFailure;
                 PlaybookExecutionResult.shouldEscalate := false;
                 PlaybookExecutionResult.escalationReason := None |} )
        end
  end.

(** ** The registry and findPlaybooks

    The module-level [playbookRegistry] map is passed as the list of its
    values in insertion order ([getAllPlaybooks]). *)

(** [l.includes(x)] on an array of strings. *)
Definition array_includes (l : list str) (x : str) : bool :=
  existsb (Guardrails.str_eqb x) l.

Definition keyword_overlap (criteria triggers : list str) : bool :=
  existsb (fun kw =>
    existsb (fun tk =>
      includes (toLowerCase tk) (toLowerCase kw) ||
      includes (toLowerCase kw) (toLowerCase tk)) triggers) criteria.

Record Criteria : Type := {
  product : option str;
  category : option str;
  keywords : option (list str)
}.

Definition matches_criteria (criteria : Criteria) (playbook : Playbook.t) : bool :=
  let triggers := Playbook.triggers playbook in
  let product_ok :=
    match product criteria, PlaybookTrigger.products triggers with
    | Some p, Some ps => if truthy p then array_includes ps p else true
    | _, _ => true
    end in
  let category_ok :=
    match category criteria, PlaybookTrigger.categories triggers with
    | Some c, Some cs => if truthy c then array_includes cs c else true
    | _, _ => true
    end in
  let keywords_ok :=
    match keywords criteria, PlaybookTrigger.keywords triggers with
    | Some kws, Some tks => keyword_overlap kws tks
    | _, _ => true
    end in
  product_ok && category_ok && keywords_ok.

Definition findPlaybooks (registry : list Playbook.t) (criteria : Criteria)
  : list Playbook.t :=
  List.filter (matches_criteria criteria) registry.

(** ** validatePlaybook, loadPlaybook and isPlaybookComplete *)

Inductive ErrorSeverity : Type := severity_error | severity_warning.

Module PlaybookValidationError.
Record t : Type := {
  path : str;
  message : str;
  severity : ErrorSeverity
}.
End PlaybookValidationError.

Module PlaybookValidationResult.
Record t : Type := {
  valid : bool;
  errors : list PlaybookValidationError.t;
  warnings : list PlaybookValidationError.t
}.
End PlaybookValidationResult.

(** The value [loadPlaybook] casts to [Playbook]: the members whose presence
    [validatePlaybook] tests may be missing; a missing string member of the
    metadata or of a step is the empty string, which the tests do not tell
    from [undefined]. *)
Module PlaybookJson.
Record t : Type := {
  metadata : option PlaybookMetadata.t;
  triggers : PlaybookTrigger.t;
  steps : option (list PlaybookStep.t);
  escalation : option Escalation.t;
  variables : option (list (str * str))
}.
End PlaybookJson.

Definition problem (s : ErrorSeverity) (p m : str) : PlaybookValidationError.t :=
  {| PlaybookValidationError.path := p;
     PlaybookValidationError.message := m;
     PlaybookValidationError.severity := s |}.

(** The metadata block: its errors and its warnings. *)
Definition validate_metadata (metadata : option PlaybookMetadata.t)
  : list PlaybookValidationError.t * list PlaybookValidationError.t :=
  match metadata with
  | None => ([problem severity_error "metadata" "Metadata is required"], [])
  | Some m =>
      ( (if truthy (PlaybookMetadata.id m) then []
         else [problem severity_error "metadata.id" "Playbook ID is required"]) ++
        (if truthy (PlaybookMetadata.name m) then []
         else [problem severity_error "metadata.name" "Playbook name is required"]),
        (if truthy (PlaybookMetadata.version m) then []
         else [problem severity_warning "metadata.version" "Version is recommended"]) )
  end.

(** [set.add(x)] on a [Set] of strings, kept in insertion order. *)
Definition set_add (s : list str) (x : str) : list str :=
  if array_includes s x then s else s ++ [x].

(** The state of [playbook.steps.forEach]: the errors pushed by it, and the
    two sets. *)
Record step_scan : Type := {
  scan_errors : list PlaybookValidationError.t;
  stepIds : list str;
  referencedIds : list str
}.

Definition validate_step (acc : step_scan) (indexed : nat * PlaybookStep.t) : step_scan :=
  let '(index, step) := indexed in
  let stepPath := "steps[" ++ string_of_Z (Z.of_nat index) ++ "]" in
  let '(id_errors, stepIds') :=
    if negb (truthy (PlaybookStep.id step)) then
      ([problem severity_error (stepPath ++ ".id") "Step ID is required"], stepIds acc)
    else if array_includes (stepIds acc) (PlaybookStep.id step) then
      ([problem severity_error (stepPath ++ ".id")
          ("Duplicate step ID: " ++ PlaybookStep.id step)], stepIds acc)
    else ([], stepIds acc ++ [PlaybookStep.id step]) in
  let title_errors :=
    if truthy (PlaybookStep.title step) then []
    else [problem severity_error (stepPath ++ ".title") "Step title is required"] in
  let instruction_errors :=
    if truthy (PlaybookStep.instruction step) then []
    else [problem severity_error (stepPath ++ ".instruction")
            "Step instruction is required"] in
  let referenced1 :=
    if present (PlaybookStep.nextOnSuccess step)
    then set_add (referencedIds acc) (nullish_or (PlaybookStep.nextOnSuccess step) [])
    else referencedIds acc in
  let referenced2 :=
    if present (PlaybookStep.nextOnFailure step)
    then set_add referenced1 (nullish_or (PlaybookStep.nextOnFailure step) [])
    else referenced1 in
  {| scan_errors := scan_errors acc ++ id_errors ++ title_errors ++ instruction_errors;
     stepIds := stepIds';
     referencedIds := referenced2 |}.

(** [referencedIds.forEach]: one error per referenced id that no step has. *)
Definition missing_references (scan : step_scan) : list PlaybookValidationError.t :=
  flat_map (fun refId =>
      if array_includes (stepIds scan) refId then []
      else [problem severity_error "steps"
              ("Referenced step ID does not exist: " ++ refId)])
    (referencedIds scan).

Definition validate_steps (steps : option (list PlaybookStep.t))
  : list PlaybookValidationError.t :=
  match steps with
  | None | Some [] =>
      [problem severity_error "steps" "At least one step is required"]
  | Some l =>
      let scan :=
        fold_left validate_step (combine (List.seq 0 (length l)) l)
          {| scan_errors := []; stepIds := []; referencedIds := [] |} in
      scan_errors scan ++ missing_references scan
  end.

Definition validate_escalation (escalation : option Escalation.t)
  : list PlaybookValidationError.t :=
  match escalation with
  | None => [problem severity_warning "escalation" "Escalation config is recommended"]
  | Some e =>
      if truthy (Escalation.defaultMessage e) then []
      else [problem severity_warning "escalation.defaultMessage"
              "Default escalation message is recommended"]
  end.

Definition validatePlaybook (playbook : PlaybookJson.t) : PlaybookValidationResult.t :=
  let '(metadata_errors, metadata_warnings) :=
    validate_metadata (PlaybookJson.metadata playbook) in
  let errors := metadata_errors ++ validate_steps (PlaybookJson.steps playbook) in
  let warnings := metadata_warnings ++ validate_escalation (PlaybookJson.escalation playbook) in
  {| PlaybookValidationResult.valid := Nat.eqb (length errors) 0;
     PlaybookValidationResult.errors := errors;
     PlaybookValidationResult.warnings := warnings |}.

(** [loadPlaybook]: the value itself when it validates; [None]: it throws. *)
Definition loadPlaybook (json : PlaybookJson.t) : option PlaybookJson.t :=
  if PlaybookValidationResult.valid (validatePlaybook json) then Some json else None.

(** A playbook that has all the members of its type, as the value it is. *)
Definition as_json (playbook : Playbook.t) : PlaybookJson.t :=
  {| PlaybookJson.metadata := Some (Playbook.metadata playbook);
     PlaybookJson.triggers := Playbook.triggers playbook;
     PlaybookJson.steps := Some (Playbook.steps playbook);
     PlaybookJson.escalation := Some (Playbook.escalation playbook);
     PlaybookJson.variables := Playbook.variables playbook |}.

(** [isPlaybookComplete] *)
Definition isPlaybookComplete (state : PlaybookExecutionState.t) : bool :=
  match PlaybookExecutionState.outcome state with
  | Some resolved | Some escalated => true
  | _ => false
  end.

(** ** formatInstruction

    The pattern of each replacement is compiled at run time from the text of
    a variable's key, by the engine's parser, and the value may hold the [$]
    patterns of [replace]: [replaceAll source text replacement] stands for
    [text.replace(new RegExp(source, 'g'), replacement)], and is [None] when
    [source] is not a pattern, where [new RegExp] throws a SyntaxError.
    [variables] lists the entries in the order of [Object.entries]; the first
    key that is not a pattern makes the function throw ([None]). *)
Definition formatInstruction (replaceAll : str -> str -> str -> option str)
    (instruction : str) (variables : list (str * str)) : option str :=
  fold_left
    (fun formatted entry =>
       match formatted with
       | Some text => replaceAll ("\{\{" ++ fst entry ++ "\}\}") text (snd entry)
       | None => None
       end)
    variables (Some instruction).


End Playbooks.

(* ===================================================================== *)
(** * Eff: the external services and the monad of code that awaits them   *)
(* ===================================================================== *)
Module Eff.

(** A parsed JSON value ([JSON.parse] of a tool call's arguments). *)
Inductive JSON : Type :=
| JNull
| JBool (b : bool)
| JNumber (x : float)
| JString (s : str)
| JArray (l : list JSON)
| JObject (fields : list (str * JSON)).

(** [lib/pinecone.ts]: the metadata stored with a vector. *)
Record VectorMetadata : Type := {
  tenantId : str;
  kbId : str;
  docId : str;
  product : str;
  chunkIndex : Z;
  content : str;
  language : str
}.

(** A match as the vector index returns it. *)
Record IndexMatch : Type := {
  match_id : str;
  match_score : option float;
  match_metadata : option VectorMetadata
}.

Inductive Role : Type := system | user | assistant.

Record ChatMessage : Type := {
  role : Role;
  message_content : str
}.

(** A tool call of a completion: a function call has a name and arguments,
    whose text [JSON.parse] reads ([None]: it throws); a custom tool call has
    no [function] member. *)
Record FunctionCall : Type := {
  function_name : str;
  arguments : option JSON
}.

Record Completion : Type := {
  model : str;
  choices : list (option str * list (option FunctionCall));
  total_tokens : option Z
}.

(** The input of [embeddings.create]: one text or a batch. *)
Inductive EmbeddingInput : Type :=
| OneText (t : str)
| Batch (ts : list str).

(** The equality filters of a vector query: [{ field: { $eq: value } }]. *)
Definition QueryFilter : Type := list (str * str).

(** What the code asks of the outside, in the order it asks. *)
Inductive Call : Type :=
| EmbeddingsCreate (input : EmbeddingInput)
| NamespaceQuery (namespace : str) (vector : list float) (topK : Z)
    (flt : option QueryFilter) (includeMetadata : bool)
| ChatCompletionsCreate (messages : list ChatMessage)
| Sleep (ms : Z)
| OnProgress (completed total : Z)
| ConsoleError (label : str)
| ConsoleWarn (label : str).

(** The outside: the environment's keys, what each service answers to a
    request given everything that was asked before ([None]: the call
    throws), the playbooks registered in the module-level registry, the
    clock ([Date.now()]), and the engine's regular expressions for a pattern
    that is compiled at run time: [regexp_replace source text replacement] is
    [text.replace(new RegExp(source, 'g'), replacement)], [None] when
    [new RegExp] throws.  [matches] may be missing from the index's answer. *)
Record World : Type := {
  OPENAI_API_KEY : option str;
  PINECONE_API_KEY : option str;
  embeddings_create : list Call -> EmbeddingInput -> option (list (list float));
  namespace_query : list Call -> str -> list float -> Z -> option QueryFilter ->
                    bool -> option (option (list IndexMatch));
  chat_completions_create : list Call -> list ChatMessage -> option Completion;
  playbookRegistry : list Playbooks.Playbook.t;
  clock : list Call -> Z;
  regexp_replace : str -> str -> str -> option str
}.

(** A computation: from the log of the calls so far to the log after it and
    its result, [None] when it does not return one (it throws). *)
Definition M (A : Type) : Type := list Call -> list Call * option A.

Definition ret {A : Type} (a : A) : M A := fun log => (log, Some a).

Definition throw {A : Type} : M A := fun log => (log, None).

Definition bind {A B : Type} (m : M A) (f : A -> M B) : M B :=
  fun log =>
    match m log with
    | (log', Some a) => f a log'
    | (log', None) => (log', None)
    end.

(** [try { m } catch { h }] *)
Definition catch {A : Type} (m : M A) (h : M A) : M A :=
  fun log =>
    match m log with
    | (log', Some a) => (log', Some a)
    | (log', None) => h log'
    end.

(** Issue a call whose answer nothing depends on. *)
Definition emit (c : Call) : M unit := fun log => (log ++ [c], Some tt).

(** Issue a call and take the service's answer. *)
Definition request {A : Type} (c : Call) (answer : list Call -> option A) : M A :=
  fun log => (log ++ [c], answer log).

(** Run a computation from the empty log. *)
Definition run {A : Type} (m : M A) : list Call * option A := m [].

Definition calls {A : Type} (r : list Call * option A) : list Call := fst r.
Definition result {A : Type} (r : list Call * option A) : option A := snd r.

(** The calls that reach a paid service: the embedding model, the vector
    index (together: retrieval) and the chat model. *)
Definition is_rag_call (c : Call) : bool :=
  match c with
  | EmbeddingsCreate _ | NamespaceQuery _ _ _ _ _ => true
  | _ => false
  end.

Definition is_llm_call (c : Call) : bool :=
  match c with
  | ChatCompletionsCreate _ => true
  | _ => false
  end.

End Eff.

Notation "x <- m ;; k" := (Eff.bind m (fun x => k))
  (at level 100, m at next level, right associativity).
Notation "m ;;; k" := (Eff.bind m (fun _ => k))
  (at level 100, right associativity).

(** [Array.prototype.sort] with a comparator.  [before x y] says that the
    comparator is negative on [(x, y)].  The sort is stable, so for a
    consistent comparator its result is that of insertion from the left,
    each element placed before the first one it must precede.  A comparator
    that returns [NaN] for some pairs (a score or an index that is not a
    number) is not consistent: ECMAScript then leaves the order to the
    engine, and the order computed here need not be the engine's.  No
    statement below depends on the order of a list sorted with such a
    comparator: what is proved of [assembleContext] and
    [assembleContextWithSources] holds for every order of the chunks, and
    the indices of [generateEmbeddings] are numbers under the assumption it
    is stated with. *)
Module JSArray.

Fixpoint insert {A : Type} (before : A -> A -> bool) (x : A) (l : list A) : list A :=
  match l with
  | [] => [x]
  | y :: t => if before x y then x :: y :: t else y :: insert before x t
  end.

Definition sort {A : Type} (before : A -> A -> bool) (l : list A) : list A :=
  fold_left (fun acc x => insert before x acc) l [].

End JSArray.

(* ===================================================================== *)
(** * Embeddings: lib/knowledge-base/embeddings.ts                        *)
(* ===================================================================== *)
Module Embeddings.
Import JS Eff.

Definition MAX_BATCH_SIZE : nat := 100.
Definition RATE_LIMIT_DELAY : Z := 100.

Record EmbeddingResult : Type := {
  text : option str;
  embedding : list float;
  index : option nat
}.

(** [getOpenAIClient]: throws when the key is not set. *)
Definition getOpenAIClient (W : World) : M unit :=
  if Playbooks.present (OPENAI_API_KEY W) then ret tt else throw.

(** [generateEmbedding]: [response.data[0].embedding]. *)
Definition generateEmbedding (W : World) (t : str) : M (list float) :=
  getOpenAIClient W ;;;
  data <- request (EmbeddingsCreate (OneText t))
            (fun log => embeddings_create W log (OneText t)) ;;
  match data with
  | e :: _ => ret e
  | [] => throw
  end.

(** The inner loop [for (j = 0; j < response.data.length; j++)]: one result
    per element of the response, paired with [batch[j]] and
    [batchIndices[j]], which are [undefined] past the end of the batch. *)
Fixpoint pair_results (data : list (list float)) (batch : list str) (i : nat)
  : list EmbeddingResult :=
  match data with
  | [] => []
  | e :: data' =>
      match batch with
      | t :: batch' =>
          {| text := Some t; embedding := e; index := Some i |} ::
          pair_results data' batch' (S i)
      | [] =>
          {| text := None; embedding := e; index := None |} ::
          pair_results data' [] (S i)
      end
  end.

(** The batch loop [for (i = 0; i < texts.length; i += MAX_BATCH_SIZE)], from
    [i], with the results pushed so far. *)
Equations? batches (W : World) (texts : list str) (onProgress : bool)
    (i : nat) (results : list EmbeddingResult) (log : list Call)
  : list Call * option (list EmbeddingResult)
  by wf (length texts - i) lt :=
  batches W texts onProgress i results log with lt_dec i (length texts) => {
    | right _ => (log, Some results)
    | left _ =>
        let batch := firstn MAX_BATCH_SIZE (skipn i texts) in
        match embeddings_create W log (Batch batch) with
        | None =>
            (log ++ [EmbeddingsCreate (Batch batch);
                     ConsoleError "Error generating embeddings for batch"], None)
        | Some data =>
            let results' := results ++ pair_results data batch i in
            let total := Z.of_nat (length texts) in
            let log1 := log ++ [EmbeddingsCreate (Batch batch)] in
            let log2 :=
              if onProgress
              then log1 ++ [OnProgress (Z.min (Z.of_nat (i + MAX_BATCH_SIZE)) total) total]
              else log1 in
            let log3 :=
              if Nat.ltb (i + MAX_BATCH_SIZE) (length texts)
              then log2 ++ [Sleep RATE_LIMIT_DELAY]
              else log2 in
            batches W texts onProgress (i + MAX_BATCH_SIZE) results' log3
        end }.
Proof. unfold MAX_BATCH_SIZE. lia. Qed.

(** The comparator [(a, b) => a.index - b.index] is negative; a difference
    with [undefined] is [NaN], which sorting reads as 0. *)
Definition index_before (a b : EmbeddingResult) : bool :=
  match index a, index b with
  | Some x, Some y => Nat.ltb x y
  | _, _ => false
  end.

Definition generateEmbeddings (W : World) (texts : list str) (onProgress : bool)
  : M (list EmbeddingResult) :=
  getOpenAIClient W ;;;
  results <- batches W texts onProgress 0 [] ;;
  ret (JSArray.sort index_before results).

(** ** cosineSimilarity *)

(** The accumulators [(dotProduct, normA, normB)] after the loop. *)
Definition accumulate (a b : list float) : float * float * float :=
  fold_left (fun acc xy =>
      let '(dot, na, nb) := acc in
      let '(x, y) := (xy : float * float) in
      (dot + x * y, na + x * x, nb + y * y)%float)
    (combine a b) (0, 0, 0)%float.

(** [normA === 0] *)
Definition is_zero (x : float) : bool := PrimFloat.eqb x 0.

(** [None]: the lengths differ and the function throws. *)
Definition cosineSimilarity (a b : list float) : option float :=
  if negb (Nat.eqb (length a) (length b)) then None
  else
    let '(dotProduct, sumA, sumB) := accumulate a b in
    let normA := PrimFloat.sqrt sumA in
    let normB := PrimFloat.sqrt sumB in
    if is_zero normA || is_zero normB then Some 0%float
    else Some (dotProduct / (normA * normB))%float.

(** ** estimateEmbeddingTokens and isWithinContextLimit *)

(** [Math.ceil(text.length / 4)] *)
Definition estimateEmbeddingTokens (t : str) : Z := ceil_div4 (len t).

(** [isWithinContextLimit(text, maxTokens = 8191)] *)
Definition isWithinContextLimit (t : str) (maxTokens : option Z) : bool :=
  (estimateEmbeddingTokens t <=? Playbooks.nullish_or maxTokens 8191)%Z.

End Embeddings.

(* ===================================================================== *)
(** * Retrieval: lib/pinecone.ts (queryVectors) and
      lib/knowledge-base/retrieval.ts                                     *)
(* ===================================================================== *)
Module Retrieval.
Import JS Eff.

(** The line feed, and the delimiter put before every chunk. *)
Definition nl : str := ["010"%char].
Definition delimiter : str := nl ++ "---" ++ nl.

(** [x || d] on an optional float: [undefined], [0] and [NaN] are falsy. *)
Definition float_or (x : option float) (d : float) : float :=
  match x with
  | Some f => if PrimFloat.is_nan f || PrimFloat.is_zero f then d else f
  | None => d
  end.

Module ScoredVector.
Record t : Type := {
  id : str;
  score : float;
  metadata : option VectorMetadata
}.
End ScoredVector.

Module QueryOptions.
Record t : Type := {
  topK : option Z;
  filter : option QueryFilter;
  includeMetadata : option bool
}.
End QueryOptions.

(** [getPineconeIndex]: throws when the key is not set. *)
Definition getPineconeIndex (W : World) : M unit :=
  if Playbooks.present (PINECONE_API_KEY W) then ret tt else throw.

(** [queryVectors] of [lib/pinecone.ts]. *)
Definition queryVectors (W : World) (tenantId : str) (queryVector : list float)
    (options : QueryOptions.t) : M (list ScoredVector.t) :=
  getPineconeIndex W ;;;
  let topK := Playbooks.num_or (QueryOptions.topK options) 5 in
  let includeMetadata := Playbooks.nullish_or (QueryOptions.includeMetadata options) true in
  matches <- request
    (NamespaceQuery tenantId queryVector topK (QueryOptions.filter options) includeMetadata)
    (fun log => namespace_query W log tenantId queryVector topK
                  (QueryOptions.filter options) includeMetadata) ;;
  ret (map (fun m =>
              {| ScoredVector.id := match_id m;
                 ScoredVector.score := float_or (match_score m) 0;
                 ScoredVector.metadata := match_metadata m |})
           (Playbooks.nullish_or matches [])).

Module ResultMetadata.
Record t : Type := {
  kbId : str;
  docId : str;
  product : str;
  chunkIndex : Z;
  language : str
}.
End ResultMetadata.

Module RetrievalResult.
Record t : Type := {
  content : str;
  score : float;
  metadata : ResultMetadata.t
}.
End RetrievalResult.

Module RetrievalOptions.
Record t : Type := {
  topK : option Z;
  minScore : option float;
  product : option str;
  kbId : option str;
  language : option str
}.
End RetrievalOptions.

Definition DEFAULT_MIN_SCORE : float := 0.7%float.

(** The [filter] object: one equality per option that is set and truthy. *)
Definition build_filter (options : RetrievalOptions.t) : QueryFilter :=
  (if Playbooks.present (RetrievalOptions.product options)
   then [(list_ascii_of_string "product",
          Playbooks.nullish_or (RetrievalOptions.product options) [])] else []) ++
  (if Playbooks.present (RetrievalOptions.kbId options)
   then [(list_ascii_of_string "kbId",
          Playbooks.nullish_or (RetrievalOptions.kbId options) [])] else []) ++
  (if Playbooks.present (RetrievalOptions.language options)
   then [(list_ascii_of_string "language",
          Playbooks.nullish_or (RetrievalOptions.language options) [])] else []).

(** The [.map] that formats a scored vector: [metadata?.field || default]. *)
Definition format_result (r : ScoredVector.t) : RetrievalResult.t :=
  let field {A : Type} (f : VectorMetadata -> A) : option A :=
    option_map f (ScoredVector.metadata r) in
  {| RetrievalResult.content := Playbooks.str_or (field content) [];
     RetrievalResult.score := ScoredVector.score r;
     RetrievalResult.metadata :=
       {| ResultMetadata.kbId := Playbooks.str_or (field kbId) [];
          ResultMetadata.docId := Playbooks.str_or (field docId) [];
          ResultMetadata.product := Playbooks.str_or (field product) [];
          ResultMetadata.chunkIndex := Playbooks.num_or (field chunkIndex) 0;
          ResultMetadata.language := Playbooks.str_or (field language) "en" |} |}.

(** [result.score >= minScore] *)
Definition score_ok (minScore : float) (r : ScoredVector.t) : bool :=
  PrimFloat.leb minScore (ScoredVector.score r).

Definition retrieveRelevantChunks (W : World) (tenantId query : str)
    (options : RetrievalOptions.t) : M (list RetrievalResult.t) :=
  let topK := Playbooks.nullish_or (RetrievalOptions.topK options) 5%Z in
  let minScore := Playbooks.nullish_or (RetrievalOptions.minScore options) DEFAULT_MIN_SCORE in
  queryEmbedding <- Embeddings.generateEmbedding W query ;;
  let flt := build_filter options in
  results <- queryVectors W tenantId queryEmbedding
    {| QueryOptions.topK := Some topK;
       QueryOptions.filter := if Nat.ltb 0 (length flt) then Some flt else None;
       QueryOptions.includeMetadata := Some true |} ;;
  ret (map format_result (List.filter (score_ok minScore) results)).

(** [Math.ceil(text.length / 4)] *)
Definition estimateTokens (t : str) : Z := ceil_div4 (len t).

(** The comparator [(a, b) => b.score - a.score] is negative. *)
Definition score_before (a b : RetrievalResult.t) : bool :=
  PrimFloat.ltb (RetrievalResult.score b - RetrievalResult.score a) 0.

(** The [for ... of sortedChunks] loop of [assembleContext], from the state
    [(context, totalTokens)]. *)
Fixpoint assemble (maxTokens : Z) (sortedChunks : list RetrievalResult.t)
    (context : str) (totalTokens : Z) : str :=
  match sortedChunks with
  | [] => context
  | chunk :: more =>
      let chunkTokens := estimateTokens (RetrievalResult.content chunk) in
      if (maxTokens <? totalTokens + chunkTokens)%Z then
        let remainingTokens := (maxTokens - totalTokens)%Z in
        let truncatedContent :=
          slice (RetrievalResult.content chunk) 0 (remainingTokens * 4) in
        if (100 <? len truncatedContent)%Z
        then context ++ delimiter ++ truncatedContent ++ "..."
        else context
      else
        assemble maxTokens more
          (context ++ delimiter ++ RetrievalResult.content chunk)
          (totalTokens + chunkTokens)%Z
  end.

Definition DEFAULT_MAX_TOKENS : Z := 2000.

(** [assembleContext(chunks, maxTokens = 2000)] *)
Definition assembleContext (chunks : list RetrievalResult.t) (maxTokens : option Z) : str :=
  match chunks with
  | [] => []
  | _ =>
      trim (assemble (Playbooks.nullish_or maxTokens DEFAULT_MAX_TOKENS)
              (JSArray.sort score_before chunks) [] 0)
  end.

(** ** assembleContextWithSources *)

(** A source citation of [assembleContextWithSources]. *)
Module SourceRef.
Record t : Type := {
  kbId : str;
  docId : str;
  product : str
}.
End SourceRef.

(** [`${chunk.metadata.kbId}:${chunk.metadata.docId}`] *)
Definition sourceKey (chunk : RetrievalResult.t) : str :=
  ResultMetadata.kbId (RetrievalResult.metadata chunk) ++ ":" ++
  ResultMetadata.docId (RetrievalResult.metadata chunk).

Definition source_of (chunk : RetrievalResult.t) : SourceRef.t :=
  {| SourceRef.kbId := ResultMetadata.kbId (RetrievalResult.metadata chunk);
     SourceRef.docId := ResultMetadata.docId (RetrievalResult.metadata chunk);
     SourceRef.product := ResultMetadata.product (RetrievalResult.metadata chunk) |}.

(** The loop of [assembleContextWithSources], from the state
    [(context, totalTokens, sources, seenSources)]; the set [seenSources] is
    kept in insertion order. *)
Fixpoint assemble_with_sources (maxTokens : Z) (sortedChunks : list RetrievalResult.t)
    (context : str) (totalTokens : Z) (sources : list SourceRef.t)
    (seenSources : list str) : str * list SourceRef.t :=
  match sortedChunks with
  | [] => (context, sources)
  | chunk :: more =>
      let chunkTokens := estimateTokens (RetrievalResult.content chunk) in
      if (maxTokens <? totalTokens + chunkTokens)%Z then (context, sources)
      else
        let seen := Playbooks.array_includes seenSources (sourceKey chunk) in
        let seenSources' := if seen then seenSources else seenSources ++ [sourceKey chunk] in
        let sources' := if seen then sources else sources ++ [source_of chunk] in
        assemble_with_sources maxTokens more
          (context ++ nl ++ "[Source " ++ string_of_Z (Z.of_nat (length sources')) ++ "]" ++
           nl ++ RetrievalResult.content chunk)
          (totalTokens + chunkTokens)%Z sources' seenSources'
  end.

(** [assembleContextWithSources(chunks, maxTokens = 2000)] *)
Definition assembleContextWithSources (chunks : list RetrievalResult.t)
    (maxTokens : option Z) : str * list SourceRef.t :=
  match chunks with
  | [] => ([], [])
  | _ =>
      let '(context, sources) :=
        assemble_with_sources (Playbooks.nullish_or maxTokens DEFAULT_MAX_TOKENS)
          (JSArray.sort score_before chunks) [] 0 [] [] in
      (trim context, sources)
  end.

End Retrieval.

(* ===================================================================== *)
(** * Chunker: lib/knowledge-base/chunker.ts                              *)
(* ===================================================================== *)
Module Chunker.
Import JS Regex.

Definition nl : str := ["010"%char].
Definition cr : str := ["013"%char].
Definition tab : str := ["009"%char].

Module ChunkOptions.
Record t : Type := {
  maxTokens : option Z;
  minTokens : option Z;
  overlapTokens : option Z
}.
End ChunkOptions.

(** A chunk as [chunkSection] builds it, without [index]. *)
Module SectionChunk.
Record t : Type := {
  content : str;
  startChar : Z;
  endChar : Z;
  tokenEstimate : Z
}.
End SectionChunk.

Module TextChunk.
Record t : Type := {
  content : str;
  index : nat;
  startChar : Z;
  endChar : Z;
  tokenEstimate : Z
}.
End TextChunk.

Definition estimateTokens (t : str) : Z := ceil_div4 (len t).

(** [/([.!?]+[\s\n]+|[\n]{2,})/g] *)
Definition sentenceEndings : RegExp :=
  re (alt [ seq [plus (RChar (one_of ".!?")); plus (RChar is_space)];
            at_least 2 (RChar (is_code 10)) ]).

(** The loop of [splitIntoSentences] over the parts, from the state
    [(sentences, current, sentenceEndings.lastIndex)]. *)
Definition sentence_step (acc : list str * str * nat) (part : str)
  : list str * str * nat :=
  let '(sentences, current, lastIndex) := acc in
  let '(hit, lastIndex') := test_g sentenceEndings part lastIndex in
  if hit then
    let current' := current ++ part in
    ((if truthy (trim current') then sentences ++ [trim current'] else sentences),
     [], lastIndex')
  else (sentences, current ++ part, lastIndex').

Definition splitIntoSentences (t : str) : list str :=
  let parts := split sentenceEndings true t in
  let '(sentences, current, _) := fold_left sentence_step parts ([], [], 0) in
  if truthy (trim current) then sentences ++ [trim current] else sentences.

(** [text.split(/\n{2,}/).filter((p) => p.trim())] *)
Definition splitIntoParagraphs (t : str) : list str :=
  List.filter (fun p => truthy (trim p))
    (split (re (at_least 2 (RChar (is_code 10)))) false t).

(** The loop of [getOverlapText] over [i = sentences.length - 1 .. 0], given
    the suffixes [sentences.slice(i)] in that order: the last candidate that
    fits is kept. *)
Definition overlap_candidates (sentences : list str) : list str :=
  map (fun i => join " " (skipn i sentences)) (rev (List.seq 0 (length sentences))).

Definition getOverlapText (t : str) (overlapTokens : Z) : str :=
  let targetChars := (overlapTokens * 4)%Z in
  if (len t <=? targetChars)%Z then t
  else
    let endPortion := slice_from t (- targetChars * 2) in
    let sentences := splitIntoSentences endPortion in
    if Nat.ltb 1 (length sentences) then
      let overlap :=
        fold_left (fun overlap candidate =>
                     if (len candidate <=? targetChars)%Z then candidate else overlap)
                  (overlap_candidates sentences) [] in
      if truthy overlap then overlap else slice_from t (- targetChars)
    else slice_from t (- targetChars).

(** The state of [chunkSection]'s loops. *)
Record section_state : Type := {
  chunks : list SectionChunk.t;
  currentChunk : str;
  currentStartChar : Z;
  charOffset : Z
}.

Definition mk_chunk (c : str) (s e tokens : Z) : SectionChunk.t :=
  {| SectionChunk.content := c;
     SectionChunk.startChar := s;
     SectionChunk.endChar := e;
     SectionChunk.tokenEstimate := tokens |}.

(** The loop over the sentences of an oversized paragraph; here the state's
    [currentChunk] and [currentStartChar] hold [sentenceChunk] and
    [sentenceStartChar]. *)
Definition sentence_chunk_step (maxTokens overlapTokens : Z)
    (st : section_state) (sentence : str) : section_state :=
  let sentenceChunk := currentChunk st in
  let sentenceTokens := estimateTokens sentence in
  let chunkTokens := estimateTokens sentenceChunk in
  if (maxTokens <? chunkTokens + sentenceTokens)%Z && truthy (trim sentenceChunk) then
    let overlapText := getOverlapText sentenceChunk overlapTokens in
    {| chunks := chunks st ++
                 [mk_chunk (trim sentenceChunk) (currentStartChar st) (charOffset st)
                    chunkTokens];
       currentChunk := overlapText ++ " " ++ sentence;
       currentStartChar := (charOffset st - len overlapText)%Z;
       charOffset := (charOffset st + len sentence + 1)%Z |}
  else
    {| chunks := chunks st;
       currentChunk := sentenceChunk ++ (if truthy sentenceChunk then " " else "") ++ sentence;
       currentStartChar := currentStartChar st;
       charOffset := (charOffset st + len sentence + 1)%Z |}.

(** One iteration of [for (const paragraph of paragraphs)]. *)
Definition paragraph_step (maxTokens overlapTokens : Z)
    (st : section_state) (paragraph : str) : section_state :=
  let paragraphTokens := estimateTokens paragraph in
  let currentTokens := estimateTokens (currentChunk st) in
  if (maxTokens <? paragraphTokens)%Z then
    (* flush the current chunk, then chunk the paragraph by sentences *)
    let flushed := truthy (trim (currentChunk st)) in
    let chunks1 :=
      if flushed
      then chunks st ++
           [mk_chunk (trim (currentChunk st)) (currentStartChar st) (charOffset st)
              (estimateTokens (currentChunk st))]
      else chunks st in
    let currentChunk1 := if flushed then [] else currentChunk st in
    let inner :=
      fold_left (sentence_chunk_step maxTokens overlapTokens)
        (splitIntoSentences paragraph)
        {| chunks := chunks1;
           currentChunk := [];
           currentStartChar := charOffset st;
           charOffset := charOffset st |} in
    if truthy (trim (currentChunk inner))
    then inner
    else {| chunks := chunks inner;
            currentChunk := currentChunk1;
            currentStartChar := currentStartChar st;
            charOffset := charOffset inner |}
  else if (maxTokens <? currentTokens + paragraphTokens)%Z then
    let overlapText := getOverlapText (currentChunk st) overlapTokens in
    {| chunks :=
         (if truthy (trim (currentChunk st))
          then chunks st ++
               [mk_chunk (trim (currentChunk st)) (currentStartChar st) (charOffset st)
                  currentTokens]
          else chunks st);
       currentChunk := overlapText ++ nl ++ nl ++ paragraph;
       currentStartChar := (charOffset st - len overlapText)%Z;
       charOffset := (charOffset st + len paragraph + 2)%Z |}
  else
    {| chunks := chunks st;
       currentChunk :=
         currentChunk st ++ (if truthy (currentChunk st) then nl ++ nl else []) ++ paragraph;
       currentStartChar := currentStartChar st;
       charOffset := (charOffset st + len paragraph + 2)%Z |}.

(** [lastChunk.content += ...; lastChunk.endChar = ...;
    lastChunk.tokenEstimate = ...] on the last element of [chunks]. *)
Definition merge_into_last (cs : list SectionChunk.t) (tail : str) (e : Z)
  : list SectionChunk.t :=
  match rev cs with
  | [] => []
  | lastChunk :: before =>
      let c := SectionChunk.content lastChunk ++ nl ++ nl ++ tail in
      rev before ++ [mk_chunk c (SectionChunk.startChar lastChunk) e (estimateTokens c)]
  end.

(** What follows the paragraph loop: the last chunk is pushed, merged into
    the previous one, or pushed although small. *)
Definition finish (minTokens : Z) (st : section_state) : list SectionChunk.t :=
  let cur := currentChunk st in
  let own := mk_chunk (trim cur) (currentStartChar st) (charOffset st) (estimateTokens cur) in
  if truthy (trim cur) && (minTokens <=? estimateTokens cur)%Z then chunks st ++ [own]
  else if truthy (trim cur) && Nat.ltb 0 (length (chunks st))
  then merge_into_last (chunks st) (trim cur) (charOffset st)
  else if truthy (trim cur) then chunks st ++ [own]
  else chunks st.

Definition chunkSection (t : str) (maxTokens minTokens overlapTokens : Z)
  : list SectionChunk.t :=
  finish minTokens
    (fold_left (paragraph_step maxTokens overlapTokens) (splitIntoParagraphs t)
       {| chunks := []; currentChunk := []; currentStartChar := 0; charOffset := 0 |}).

(** [/^(#{1,6})\s+(.+)$/gm] *)
Definition headerPattern : RegExp :=
  re_m (seq [ RBol; between 1 6 (chr "#"); plus (RChar is_space);
              plus (RChar (fun c => negb (is_line_terminator c))); REol ]).

(** [/(?=^#{1,6}\s+)/m] *)
Definition sectionStart : RegExp :=
  re_m (RLook (seq [RBol; between 1 6 (chr "#"); plus (RChar is_space)])).

(** The normalisation at the head of [chunkText]. *)
Definition cleanText (t : str) : str :=
  trim (replace_all (re (at_least 2 (chr " "))) " "
          (replace_all (re (lit tab)) " "
             (replace_all (re (lit (cr ++ nl))) nl t))).

(** The loop over the sections of a text with headers, from the state
    [(chunks, charOffset)]. *)
Definition section_step (maxTokens minTokens overlapTokens : Z)
    (acc : list TextChunk.t * Z) (section : str) : list TextChunk.t * Z :=
  let '(cs, charOffset) := acc in
  let pushed :=
    fold_left (fun cs chunk =>
        cs ++ [ {| TextChunk.content := SectionChunk.content chunk;
                   TextChunk.index := length cs;
                   TextChunk.startChar := (charOffset + SectionChunk.startChar chunk)%Z;
                   TextChunk.endChar := (charOffset + SectionChunk.endChar chunk)%Z;
                   TextChunk.tokenEstimate := SectionChunk.tokenEstimate chunk |} ])
      (chunkSection section maxTokens minTokens overlapTokens) cs in
  (pushed, (charOffset + len section)%Z).

(** [sectionChunks.map((chunk, i) => ({ ...chunk, index: i }))] *)
Fixpoint number_from (i : nat) (cs : list SectionChunk.t) : list TextChunk.t :=
  match cs with
  | [] => []
  | chunk :: more =>
      {| TextChunk.content := SectionChunk.content chunk;
         TextChunk.index := i;
         TextChunk.startChar := SectionChunk.startChar chunk;
         TextChunk.endChar := SectionChunk.endChar chunk;
         TextChunk.tokenEstimate := SectionChunk.tokenEstimate chunk |} ::
      number_from (S i) more
  end.

Definition sections_of (clean : str) : list str :=
  List.filter (fun s => truthy (trim s)) (split sectionStart false clean).

Definition chunkText (t : str) (options : ChunkOptions.t) : list TextChunk.t :=
  let maxTokens := Playbooks.nullish_or (ChunkOptions.maxTokens options) 500%Z in
  let minTokens := Playbooks.nullish_or (ChunkOptions.minTokens options) 100%Z in
  let overlapTokens := Playbooks.nullish_or (ChunkOptions.overlapTokens options) 50%Z in
  let clean := cleanText t in
  if negb (truthy clean) then []
  else if test headerPattern clean then
    fst (fold_left (section_step maxTokens minTokens overlapTokens)
           (sections_of clean) ([], 0%Z))
  else number_from 0 (chunkSection clean maxTokens minTokens overlapTokens).

End Chunker.

(* ===================================================================== *)
(** * L1Agent: lib/ai/l1-agent.ts                                         *)
(* ===================================================================== *)
Module L1Agent.
Import JS Eff Guardrails.

Inductive EscalationLevel : Type := L2 | L3.

Module L1AgentContext.
Record t : Type := {
  tenantId : str;
  caseId : str;
  product : str;
  category : str;
  language : str;
  severity : Severity;
  customerName : option str;
  conversationHistory : list ChatMessage;
  playbookState : option Playbooks.PlaybookExecutionState.t;
  failedAttempts : option Z
}.
End L1AgentContext.

Module Action.
Record t : Type := {
  type : str;
  params : JSON
}.
End Action.

Module StepInfo.
Record t : Type := {
  id : str;
  title : str;
  instruction : str
}.
End StepInfo.

Module Source.
Record t : Type := {
  docId : str;
  content : str;
  score : float
}.
End Source.

Module Metadata.
Record t : Type := {
  model : str;
  tokensUsed : Z;
  ragChunksUsed : Z;
  processingTimeMs : Z
}.
End Metadata.

Module L1AgentResponse.
Record t : Type := {
  message : str;
  action : option Action.t;
  shouldEscalate : bool;
  escalationReason : option JSON;
  escalationLevel : option EscalationLevel;
  playbookStep : option StepInfo.t;
  sources : option (list Source.t);
  metadata : Metadata.t
}.
End L1AgentResponse.

Definition nl : str := ["010"%char].

Section Agent.

Variable W : World.

(** [getOpenAIClient] of the agent.  Unlike the client of the embeddings it
    is built without a test of the key, and the constructor
    [new OpenAI({ apiKey })] throws when the key is undefined. *)
Definition getOpenAIClient : M unit :=
  match OPENAI_API_KEY W with
  | Some _ => ret tt
  | None => throw
  end.

(** [formatInstruction] of the playbook engine, with the engine's regular
    expressions. *)
Definition formatInstruction (instruction : str) (variables : list (str * str))
  : option str :=
  Playbooks.formatInstruction (regexp_replace W) instruction variables.

(** [buildSystemPrompt]; [None]: [formatInstruction] throws. *)
Definition buildSystemPrompt (context : L1AgentContext.t) (ragContext : str)
    (playbook : option Playbooks.Playbook.t) : option str :=
  let head : str :=
    "You are TechSupport AI, a Level 1 (L1) support agent. You help customers with technical issues using a structured approach.

## Your Capabilities
- Search knowledge base documentation
- Guide customers through troubleshooting steps
- Execute playbook steps for common issues
- Escalate to L2 (advanced AI) when needed
- Escalate to human agents for complex cases

## Constraints
- NEVER perform destructive actions (delete accounts, modify billing, etc.)
- NEVER share sensitive information (passwords, API keys, etc.)
- Always be polite and professional
- Keep responses concise but helpful
- If unsure, escalate rather than guess

## Current Case Context
- Product: " ++ L1AgentContext.product context ++ nl ++
    "- Category: " ++ L1AgentContext.category context ++ nl ++
    "- Severity: " ++ severity_name (L1AgentContext.severity context) ++ nl ++
    "- Language: " ++ L1AgentContext.language context ++ nl ++
    (if Playbooks.present (L1AgentContext.customerName context)
     then "- Customer: " ++ Playbooks.nullish_or (L1AgentContext.customerName context) []
     else []) ++ nl ++ nl in
  let rag : str :=
    if truthy ragContext
    then "## Relevant Documentation" ++ nl ++ ragContext ++ nl ++ nl
    else [] in
  let book : option str :=
    match playbook, L1AgentContext.playbookState context with
    | Some pb, Some state =>
        match Playbooks.getCurrentStep pb state with
        | Some currentStep =>
            match formatInstruction (Playbooks.PlaybookStep.instruction currentStep)
                    (Playbooks.PlaybookExecutionState.variables state) with
            | Some instruction =>
                Some ("## Current Playbook: " ++
                  Playbooks.PlaybookMetadata.name (Playbooks.Playbook.metadata pb) ++ nl ++
                  "**Current Step (" ++ Playbooks.PlaybookStep.id currentStep ++ ")**: " ++
                  Playbooks.PlaybookStep.title currentStep ++ nl ++
                  "**Instructions**: " ++ instruction ++ nl ++
                  (if Playbooks.present (Playbooks.PlaybookStep.expectedOutcome currentStep)
                   then "**Expected Outcome**: " ++
                        Playbooks.nullish_or
                          (Playbooks.PlaybookStep.expectedOutcome currentStep) []
                   else []) ++ nl ++ nl ++
                  "Follow this playbook step. If the customer confirms success, mark the step as successful. If they report failure, follow the failure path or escalate if needed." ++
                  nl ++ nl)
            | None => None
            end
        | None => Some []
        end
    | _, _ => Some []
    end in
  option_map (fun book : str => head ++ rag ++ book ++
  "## Response Guidelines
1. First, try to understand the customer's issue
2. Search documentation if you need more information
3. Guide the customer through troubleshooting steps
4. If following a playbook, stick to the current step
5. Escalate if:
   - The issue is beyond L1 scope
   - Multiple attempts have failed
   - Customer requests human assistance
   - Security/compliance concerns arise

Respond in " ++ L1AgentContext.language context ++ ".") book.

(** The guard's answer, before any service is asked: the early return. *)
Definition handoff (startTime now : Z) (escalationCheck : EscalationCheck)
  : L1AgentResponse.t :=
  {| L1AgentResponse.message :=
       "I understand this is a critical matter. I'm connecting you with a human support specialist right away who can assist you better.";
     L1AgentResponse.action := None;
     L1AgentResponse.shouldEscalate := true;
     L1AgentResponse.escalationReason := Some (JString (join "; " (reasons escalationCheck)));
     L1AgentResponse.escalationLevel := Some L3;
     L1AgentResponse.playbookStep := None;
     L1AgentResponse.sources := None;
     L1AgentResponse.metadata :=
       {| Metadata.model := "gpt-4";
          Metadata.tokensUsed := 0;
          Metadata.ragChunksUsed := 0;
          Metadata.processingTimeMs := (now - startTime)%Z |} |}.

(** The escalation check as [processL1Request] runs it on the redacted
    message. *)
Definition escalation_check (context : L1AgentContext.t) (safeUserMessage : str)
  : EscalationCheck :=
  checkEscalationTriggers safeUserMessage
    (Some {| failedAttempts := L1AgentContext.failedAttempts context;
             severity := Some (severity_name (L1AgentContext.severity context));
             customerRequested :=
               Some (includes (toLowerCase safeUserMessage) "speak to human" ||
                     includes (toLowerCase safeUserMessage) "talk to person") |}).

(** The [try] block around retrieval: the context and the sources. *)
Definition retrieve_context (context : L1AgentContext.t) (safeUserMessage : str)
  : M (str * list Source.t) :=
  catch
    (chunks <- Retrieval.retrieveRelevantChunks W (L1AgentContext.tenantId context)
                 safeUserMessage
                 {| Retrieval.RetrievalOptions.topK := Some 5%Z;
                    Retrieval.RetrievalOptions.minScore := None;
                    Retrieval.RetrievalOptions.product := Some (L1AgentContext.product context);
                    Retrieval.RetrievalOptions.kbId := None;
                    Retrieval.RetrievalOptions.language := None |} ;;
     if Nat.ltb 0 (length chunks)
     then ret (Retrieval.assembleContext chunks None,
               map (fun c =>
                      {| Source.docId :=
                           Retrieval.ResultMetadata.docId (Retrieval.RetrievalResult.metadata c);
                         Source.content :=
                           substring0 (Retrieval.RetrievalResult.content c) 200 ++ "...";
                         Source.score := Retrieval.RetrievalResult.score c |}) chunks)
     else ret ([], []))
    (emit (ConsoleError "RAG retrieval error:") ;;; ret ([], [])).

(** [playbooks[0]] of the playbooks found for the case. *)
Definition find_playbook (context : L1AgentContext.t) (safeUserMessage : str)
  : option Playbooks.Playbook.t :=
  hd_error
    (Playbooks.findPlaybooks (playbookRegistry W)
       {| Playbooks.product := Some (L1AgentContext.product context);
          Playbooks.category := Some (L1AgentContext.category context);
          Playbooks.keywords :=
            Some (List.filter (fun w => (3 <? len w)%Z) (split_char " " safeUserMessage)) |}).

(** [functionArgs.reason]: a member of an object, [undefined] on any other
    value but [null], on which the access throws. *)
Definition reason_of (functionArgs : JSON) : option (option JSON) :=
  match functionArgs with
  | JNull => None
  | JObject fields =>
      Some (option_map snd (find (fun kv => str_eqb (fst kv) "reason") fields))
  | _ => Some None
  end.

(** The interpretation of the first tool call: the action and what it
    changes of [(shouldEscalate, escalationReason, escalationLevel)]. *)
Definition interpret_tool_call (toolCalls : list (option FunctionCall))
    (esc : bool * option JSON * option EscalationLevel)
  : M (option Action.t * (bool * option JSON * option EscalationLevel)) :=
  match toolCalls with
  | Some funcCall :: _ =>
      match arguments funcCall with
      | None => throw
      | Some functionArgs =>
          let action := Some {| Action.type := function_name funcCall;
                                Action.params := functionArgs |} in
          if str_eqb (function_name funcCall) "escalate_to_l2" then
            match reason_of functionArgs with
            | Some r => ret (action, (true, r, Some L2))
            | None => throw
            end
          else if str_eqb (function_name funcCall) "escalate_to_human" then
            match reason_of functionArgs with
            | Some r => ret (action, (true, r, Some L3))
            | None => throw
            end
          else ret (action, esc)
      end
  | _ => ret (None, esc)
  end.

(** The playbook step reported with the response; the outer [None]:
    [formatInstruction] throws. *)
Definition step_info (context : L1AgentContext.t) (playbook : option Playbooks.Playbook.t)
  : option (option StepInfo.t) :=
  match playbook, L1AgentContext.playbookState context with
  | Some pb, Some state =>
      match Playbooks.getCurrentStep pb state with
      | Some currentStep =>
          match formatInstruction (Playbooks.PlaybookStep.instruction currentStep)
                  (Playbooks.PlaybookExecutionState.variables state) with
          | Some instruction =>
              Some (Some {| StepInfo.id := Playbooks.PlaybookStep.id currentStep;
                            StepInfo.title := Playbooks.PlaybookStep.title currentStep;
                            StepInfo.instruction := instruction |})
          | None => None
          end
      | None => Some None
      end
  | _, _ => Some None
  end.

(** A value that a function returned, or its exception. *)
Definition returned {A : Type} (x : option A) : M A :=
  match x with
  | Some a => ret a
  | None => throw
  end.

(** What follows the guard: retrieval, playbook, prompt, the client, the
    model's completion, its tool call, validation, the step, the response. *)
Definition answer_with_model (startTime : Z) (context : L1AgentContext.t)
    (safeUserMessage : str) (escalationCheck : EscalationCheck)
  : M L1AgentResponse.t :=
  rag <- retrieve_context context safeUserMessage ;;
  let '(ragContext, ragSources) := rag in
  let playbook := find_playbook context safeUserMessage in
  systemPrompt <- returned (buildSystemPrompt context ragContext playbook) ;;
  let messages :=
    [ {| role := system; message_content := systemPrompt |} ] ++
    L1AgentContext.conversationHistory context ++
    [ {| role := user; message_content := safeUserMessage |} ] in
  getOpenAIClient ;;;
  completion <- request (ChatCompletionsCreate messages)
                  (fun log => chat_completions_create W log messages) ;;
  match choices completion with
  | [] => throw
  | (content, toolCalls) :: _ =>
      interpreted <- interpret_tool_call toolCalls
        (shouldEscalate escalationCheck,
         Some (JString (join "; " (reasons escalationCheck))),
         None) ;;
      let '(action, (shouldEscalate, escalationReason, escalationLevel)) := interpreted in
      let responseContent := Playbooks.str_or content [] in
      match validateAIResponse responseContent with
      | None => throw
      | Some validation =>
          (if valid validation then ret tt
           else emit (ConsoleWarn "AI response validation issues:")) ;;;
          playbookStep <- returned (step_info context playbook) ;;
          fun log =>
            (log,
             Some {| L1AgentResponse.message :=
                       if valid validation then responseContent
                       else sanitizedResponse validation;
                     L1AgentResponse.action := action;
                     L1AgentResponse.shouldEscalate := shouldEscalate;
                     L1AgentResponse.escalationReason :=
                       if shouldEscalate then escalationReason else None;
                     L1AgentResponse.escalationLevel := escalationLevel;
                     L1AgentResponse.playbookStep := playbookStep;
                     L1AgentResponse.sources :=
                       if Nat.ltb 0 (length ragSources) then Some ragSources else None;
                     L1AgentResponse.metadata :=
                       {| Metadata.model := model completion;
                          Metadata.tokensUsed := Playbooks.num_or (total_tokens completion) 0;
                          Metadata.ragChunksUsed := Z.of_nat (length ragSources);
                          Metadata.processingTimeMs := (clock W log - startTime)%Z |} |})
      end
  end.

(** [processL1Request] *)
Definition processL1Request (context : L1AgentContext.t) (userMessage : str)
  : M L1AgentResponse.t :=
  fun log =>
    let startTime := clock W log in
    match redactSecrets userMessage with
    | None => (log, None)
    | Some redactedInput =>
        let safeUserMessage := text redactedInput in
        let escalationCheck := escalation_check context safeUserMessage in
        if shouldEscalate escalationCheck &&
           severity_eqb (check_severity escalationCheck) Critical
        then (log, Some (handoff startTime (clock W log) escalationCheck))
        else answer_with_model startTime context safeUserMessage escalationCheck log
    end.

End Agent.

End L1Agent.

(* ===================================================================== *)
(** * Spec: the predicates the properties are stated with                 *)
(* ===================================================================== *)
Module Spec.
Import JS Regex Eff.

(** ** Regular expressions *)

(** A pattern every match of which consumes at least one character. *)
Fixpoint consumes (r : regex) : bool :=
  match r with
  | RChar _ => true
  | RSeq a b => consumes a || consumes b
  | RAlt a b => consumes a && consumes b
  | RRep a lo hi =>
      match hi with
      | Some O => false
      | _ => Nat.ltb 0 lo && consumes a
      end
  | _ => false
  end.

(** [st'] is reached from [st] by consuming characters: the positions
    account for the characters left; strictly further when [strict]. *)
Definition reached (strict : bool) (st st' : mstate) : Prop :=
  pos st' + length (rest st') = pos st + length (rest st) /\
  pos st <= pos st' /\
  (strict = true -> pos st < pos st').

(** What a matcher promises: a result comes from the continuation, at a
    state reached from the start. *)
Definition advances (strict : bool)
    (m : mstate -> (mstate -> option nat) -> option nat) : Prop :=
  forall (st : mstate) (k : mstate -> option nat) (z : nat),
    m st k = Some z ->
    exists st' : mstate, k st' = Some z /\ reached strict st st'.

(** ** Guardrails *)

(** The scan never leaves [Low] without pushing a reason. *)
Definition reasoned (acc : Guardrails.scan) : Prop :=
  snd acc <> Guardrails.Low -> fst acc <> [].

(** No pattern of the catalogue matches anywhere in the text. *)
Definition unmatched (t : str) : bool :=
  forallb (fun p => match exec (Guardrails.pattern p) t 0 with
                    | None => true
                    | Some _ => false
                    end) Guardrails.SENSITIVE_PATTERNS.

(** ** Retrieval *)

(** The scores of a list of results. *)
Definition scores (rs : list Retrieval.RetrievalResult.t) : list float :=
  map Retrieval.RetrievalResult.score rs.

(** Descending order of a list of scores, every element against every later
    one. *)
Definition descending : list float -> Prop :=
  StronglySorted (fun x y => PrimFloat.leb y x = true).

Fixpoint descendingb (l : list float) : bool :=
  match l with
  | [] => true
  | x :: t => forallb (fun y => PrimFloat.leb y x) t && descendingb t
  end.

(** ** Embeddings *)

(** The provider answers every batch with one embedding per text. *)
Definition one_per_input (W : World) : Prop :=
  forall (log : list Call) (batch : list str),
    exists data : list (list float),
      embeddings_create W log (Batch batch) = Some data /\
      length data = length batch.

(** The sum of the squares of a vector's components, accumulated from [acc]
    in the order of the loop. *)
Definition sum_squares (acc : float) (v : list float) : float :=
  fold_left (fun s x => (s + x * x)%float) v acc.

(** [Math.sqrt] of the sum of squares is [0]. *)
Definition zero_norm (v : list float) : Prop :=
  Embeddings.is_zero (PrimFloat.sqrt (sum_squares 0 v)) = true.

(** ** Chunker *)

(** A text fits the budget when its estimate does not exceed [maxTokens]. *)
Definition fits (maxTokens : Z) (s : str) : bool :=
  (Chunker.estimateTokens s <=? maxTokens)%Z.

(** The sections [chunkText] chunks: the text after normalisation, split at
    its headers when it has any. *)
Definition sections (t : str) : list str :=
  if test Chunker.headerPattern (Chunker.cleanText t)
  then Chunker.sections_of (Chunker.cleanText t)
  else [Chunker.cleanText t].

(** The sentences of the section that alone exceed [maxTokens].  Only a
    paragraph that exceeds [maxTokens] is split into sentences. *)
Definition oversized_sentences (maxTokens : Z) (section : str) : list str :=
  List.filter (fun s => negb (fits maxTokens s))
    (flat_map Chunker.splitIntoSentences
       (List.filter (fun p => negb (fits maxTokens p))
          (Chunker.splitIntoParagraphs section))).

(** [s] occurs in [x]. *)
Definition occurs (s x : str) : Prop :=
  exists before after : str, x = before ++ s ++ after.

(** The text holds one of the sentences [os]. *)
Definition holds (os : list str) (x : str) : Prop :=
  exists s : str, In s os /\ occurs s x.

(** A text that begins and ends with a character that is not white space. *)
Definition tight (s : str) : Prop :=
  (exists c x, s = c :: x /\ is_space c = false) /\
  (exists x c, s = x ++ [c] /\ is_space c = false).

(** Only whitespace. *)
Definition blank (s : str) : bool := forallb is_space s.

(** A chunk within the bound [B], by its estimate and by its content. *)
Definition chunk_ok (B : Z) (c : Chunker.SectionChunk.t) : Prop :=
  (Chunker.SectionChunk.tokenEstimate c <= B)%Z /\
  (Chunker.estimateTokens (Chunker.SectionChunk.content c) <= B)%Z.

(** A chunk within the bound, or one that holds a sentence of [os]. *)
Definition chunk_fine (B : Z) (os : list str) (c : Chunker.SectionChunk.t) : Prop :=
  chunk_ok B c \/ holds os (Chunker.SectionChunk.content c).

(** A chunk made by merging a tail of fewer than [minTokens] tokens into a
    chunk within the bound. *)
Definition chunk_merged (B minTokens : Z) (c : Chunker.SectionChunk.t) : Prop :=
  exists head tail : str,
    Chunker.SectionChunk.content c = head ++ Chunker.nl ++ Chunker.nl ++ tail /\
    (Chunker.estimateTokens head <= B)%Z /\
    (Chunker.estimateTokens tail < minTokens)%Z /\
    (Chunker.SectionChunk.tokenEstimate c <= B + minTokens)%Z.

(** A state of [chunkSection]'s loops: each of its chunks, and its buffer, is
    within the bound or holds a sentence of [os]. *)
Definition state_fine (B : Z) (os : list str) (st : Chunker.section_state) : Prop :=
  Forall (chunk_fine B os) (Chunker.chunks st) /\
  ((Chunker.estimateTokens (Chunker.currentChunk st) <= B)%Z \/
   holds os (Chunker.currentChunk st)).

(** The content and the estimate of a chunk. *)
Definition measured (c : Chunker.TextChunk.t) : str * Z :=
  (Chunker.TextChunk.content c, Chunker.TextChunk.tokenEstimate c).

(** The contents and the estimates of the chunks [chunkSection] makes of a
    section, in order. *)
Definition section_measures (maxTokens minTokens overlapTokens : Z) (section : str)
  : list (str * Z) :=
  map (fun c => (Chunker.SectionChunk.content c, Chunker.SectionChunk.tokenEstimate c))
      (Chunker.chunkSection section maxTokens minTokens overlapTokens).

(** The estimate is within the bound, or the content holds a sentence of
    [os]. *)
Definition within (B : Z) (os : list str) (m : str * Z) : Prop :=
  (snd m <= B)%Z \/ holds os (fst m).

(** The content is a text within the bound, two line feeds, and a tail of
    fewer than [minTokens] tokens; the estimate is at most [minTokens] above
    the bound. *)
Definition merged (B minTokens : Z) (m : str * Z) : Prop :=
  exists head tail : str,
    fst m = head ++ Chunker.nl ++ Chunker.nl ++ tail /\
    (Chunker.estimateTokens head <= B)%Z /\
    (Chunker.estimateTokens tail < minTokens)%Z /\
    (snd m <= B + minTokens)%Z.

End Spec.

(* ===================================================================== *)
(** * Spec: predicates on playbooks, guardrails, calls and chunks         *)
(* ===================================================================== *)
Module PlaybookSpec.
Import JS Playbooks.

(** The fields [validatePlaybook] requires of a step. *)
Definition step_fields_ok (s : PlaybookStep.t) : bool :=
  truthy (PlaybookStep.id s) && truthy (PlaybookStep.title s) &&
  truthy (PlaybookStep.instruction s).

(** A reference to a next step, when there is one, names a step of [l]. *)
Definition declared (l : list PlaybookStep.t) (x : option str) : Prop :=
  present x = true -> In (nullish_or x []) (map PlaybookStep.id l).

(** What [validatePlaybook] accepts. *)
Definition well_formed (p : PlaybookJson.t) : Prop :=
  (exists m, PlaybookJson.metadata p = Some m /\
             truthy (PlaybookMetadata.id m) = true /\
             truthy (PlaybookMetadata.name m) = true) /\
  (exists l, PlaybookJson.steps p = Some l /\ l <> [] /\
             Forall (fun s => step_fields_ok s = true) l /\
             List.NoDup (map PlaybookStep.id l) /\
             Forall (fun s => declared l (PlaybookStep.nextOnSuccess s) /\
                              declared l (PlaybookStep.nextOnFailure s)) l).

(** [x] is referenced by the step [s]. *)
Definition references (s : PlaybookStep.t) (x : str) : Prop :=
  (present (PlaybookStep.nextOnSuccess s) = true /\
   nullish_or (PlaybookStep.nextOnSuccess s) [] = x) \/
  (present (PlaybookStep.nextOnFailure s) = true /\
   nullish_or (PlaybookStep.nextOnFailure s) [] = x).

(** A caller that reports one outcome after the other: the state after the
    last call and the results of all of them. *)
Fixpoint run_steps (playbook : Playbook.t) (state : PlaybookExecutionState.t)
    (events : list (Z * StepOutcome))
  : PlaybookExecutionState.t * list PlaybookExecutionResult.t :=
  match events with
  | [] => (state, [])
  | (now, stepOutcome) :: more =>
      let '(state1, r) := executeStep now playbook state stepOutcome in
      let '(state2, rs) := run_steps playbook state1 more in
      (state2, r :: rs)
  end.

(** The state's outcome is 'escalated'. *)
Definition marked_escalated (state : PlaybookExecutionState.t) : bool :=
  match PlaybookExecutionState.outcome state with
  | Some escalated => true
  | _ => false
  end.

End PlaybookSpec.

Module GuardrailSpec.
Import JS Regex Guardrails.

(** The names of the catalogue of sensitive patterns. *)
Definition pattern_names : list str := map name SENSITIVE_PATTERNS.

(** A record of a redaction shows at most four characters of what was
    matched, and names a pattern of the catalogue. *)
Definition discreet (d : Redaction) : Prop :=
  (exists shown, original d = shown ++ "..." /\ length shown <= 4) /\
  In (type d) pattern_names.

(** The scan has a reason and a severity above [Low]. *)
Definition raised (acc : scan) : Prop := fst acc <> [] /\ snd acc <> Low.

End GuardrailSpec.

Module CallSpec.
Import JS Eff Guardrails L1Agent.

(** Whatever a computation adds to the log satisfies [P]. *)
Definition emits {A : Type} (P : Call -> Prop) (m : M A) : Prop :=
  forall log : list Call, exists new : list Call,
    fst (m log) = log ++ new /\ Forall P new.

(** A computation that returns a result from every log. *)
Definition returns {A : Type} (m : M A) : Prop :=
  forall log : list Call, exists (log' : list Call) (a : A), m log = (log', Some a).

(** What a call of [retrieveRelevantChunks] may ask of the outside: the
    embedding of the query, and a query of the tenant's namespace under the
    filter of the options. *)
Definition retrieval_call (tenantId query : str) (options : Retrieval.RetrievalOptions.t)
    (c : Call) : Prop :=
  match c with
  | EmbeddingsCreate input => input = OneText query
  | NamespaceQuery namespace _ topK flt includeMetadata =>
      namespace = tenantId /\
      topK = Playbooks.num_or
               (Some (Playbooks.nullish_or (Retrieval.RetrievalOptions.topK options) 5%Z)) 5 /\
      flt = (match Retrieval.build_filter options with
             | [] => None
             | f => Some f
             end) /\
      includeMetadata = true
  | _ => False
  end.

(** The options [processL1Request] retrieves with. *)
Definition l1_options (context : L1AgentContext.t) : Retrieval.RetrievalOptions.t :=
  {| Retrieval.RetrievalOptions.topK := Some 5%Z;
     Retrieval.RetrievalOptions.minScore := None;
     Retrieval.RetrievalOptions.product := Some (L1AgentContext.product context);
     Retrieval.RetrievalOptions.kbId := None;
     Retrieval.RetrievalOptions.language := None |}.

(** What a turn of the tier-1 agent may ask of the outside, given the
    redacted text of the user's message: the requests of retrieval for that
    text, and the chat request, made of the system prompt built for some
    retrieved context and the playbook found for that text, the
    conversation history, and that text as the user's message. *)
Definition l1_call (W : World)
    (context : L1AgentContext.t) (safeUserMessage : str) (c : Call) : Prop :=
  match c with
  | EmbeddingsCreate _ | NamespaceQuery _ _ _ _ _ =>
      retrieval_call (L1AgentContext.tenantId context) safeUserMessage (l1_options context) c
  | ChatCompletionsCreate messages =>
      exists ragContext systemPrompt : str,
        buildSystemPrompt W context ragContext (find_playbook W context safeUserMessage) =
          Some systemPrompt /\
        messages =
          [ {| role := system; message_content := systemPrompt |} ] ++
          L1AgentContext.conversationHistory context ++
          [ {| role := user; message_content := safeUserMessage |} ]
  | ConsoleError _ | ConsoleWarn _ => True
  | Sleep _ | OnProgress _ _ => False
  end.

(** The chat model answers every request with a completion whose first
    choice calls no tool. *)
Definition answers_in_text (W : World) : Prop :=
  forall (log : list Call) (messages : list ChatMessage),
    exists (completion : Completion) (content : option str)
           (more : list (option str * list (option FunctionCall))),
      chat_completions_create W log messages = Some completion /\
      choices completion = (content, []) :: more.

(** [formatInstruction] returns for the variables of the case's playbook
    state, whatever the instruction: no key of theirs fails to compile.  A
    case without a playbook state formats nothing. *)
Definition formats (W : World) (context : L1AgentContext.t) : Prop :=
  forall (state : Playbooks.PlaybookExecutionState.t) (instruction : str),
    L1AgentContext.playbookState context = Some state ->
    exists formatted : str,
      formatInstruction W instruction (Playbooks.PlaybookExecutionState.variables state) =
        Some formatted.

(** [content] is what the chat model said in the first choice of one of its
    completions. *)
Definition said_by_model (W : World) (content : str) : Prop :=
  exists (log : list Call) (messages : list ChatMessage) (completion : Completion)
         (c : option str) (toolCalls : list (option FunctionCall))
         (more : list (option str * list (option FunctionCall))),
    chat_completions_create W log messages = Some completion /\
    choices completion = (c, toolCalls) :: more /\
    content = Playbooks.str_or c [].

(** The inputs of the embedding requests of a log, in order. *)
Definition embedding_inputs (log : list Call) : list EmbeddingInput :=
  flat_map (fun c => match c with
                     | EmbeddingsCreate input => [input]
                     | _ => []
                     end) log.

(** The pauses of a log. *)
Definition pauses (log : list Call) : list Z :=
  flat_map (fun c => match c with
                     | Sleep ms => [ms]
                     | _ => []
                     end) log.

(** A batch the embedding service accepts: from 1 to 100 texts. *)
Definition batch_ok (b : list str) : Prop := 1 <= length b <= 100.

(** The consecutive slices of at most [MAX_BATCH_SIZE] texts that make up
    [texts]; [fuel] bounds their number. *)
Fixpoint slices_upto (fuel : nat) (texts : list str) : list (list str) :=
  match fuel with
  | O => []
  | S fuel' =>
      match texts with
      | [] => []
      | _ :: _ =>
          firstn Embeddings.MAX_BATCH_SIZE texts :: slices_upto fuel' (skipn Embeddings.MAX_BATCH_SIZE texts)
      end
  end.

Definition slices (texts : list str) : list (list str) :=
  slices_upto (length texts) texts.

(** The report of progress after the batch that starts at [i]. *)
Definition progress_report (onProgress : bool) (total i : nat) : list Call :=
  if onProgress
  then [OnProgress (Z.min (Z.of_nat (i + Embeddings.MAX_BATCH_SIZE)) (Z.of_nat total))
          (Z.of_nat total)]
  else [].

(** The calls of a run that requests the batches [bs], the first of which
    starts at [i]: the request of a batch is followed by the report of
    progress and, when another batch follows, by the pause and by that
    batch; in a run that fails, the last request is followed by the error
    message, and by nothing else. *)
Fixpoint batch_calls (onProgress : bool) (total i : nat) (failed : bool)
    (bs : list (list str)) : list Call :=
  match bs with
  | [] => []
  | b :: more =>
      EmbeddingsCreate (Batch b) ::
      match more with
      | [] =>
          if failed then [ConsoleError "Error generating embeddings for batch"]
          else progress_report onProgress total i
      | _ :: _ =>
          progress_report onProgress total i ++ [Sleep Embeddings.RATE_LIMIT_DELAY] ++
          batch_calls onProgress total (i + Embeddings.MAX_BATCH_SIZE) failed more
      end
  end.

(** The answers of the embedding service to the requests among the calls
    [new], made after [log]. *)
Fixpoint answers (W : World) (log new : list Call) : list (option (list (list float))) :=
  match new with
  | [] => []
  | c :: more =>
      match c with
      | EmbeddingsCreate input => [embeddings_create W log input]
      | _ => []
      end ++ answers W (log ++ [c]) more
  end.

(** The key under which [assembleContextWithSources] remembers a citation. *)
Definition key_of (s : Retrieval.SourceRef.t) : str :=
  Retrieval.SourceRef.kbId s ++ ":" ++ Retrieval.SourceRef.docId s.

End CallSpec.

Module ChunkSpec.
Import JS Chunker Spec.

(** A chunk whose content is neither empty nor white space only. *)
Definition nonblank_chunk (c : SectionChunk.t) : Prop :=
  blank (SectionChunk.content c) = false.

End ChunkSpec.

(* ===================================================================== *)
(** * Example inputs                                                      *)
(* ===================================================================== *)
Module Examples.
Import JS Eff.

(** A step that allows two attempts, and a playbook made of it. *)
Definition restart_step : Playbooks.PlaybookStep.t :=
  {| Playbooks.PlaybookStep.id := "restart";
     Playbooks.PlaybookStep.title := "Restart the app";
     Playbooks.PlaybookStep.instruction := "Close the app and open it again";
     Playbooks.PlaybookStep.expectedOutcome := None;
     Playbooks.PlaybookStep.failureHint := None;
     Playbooks.PlaybookStep.nextOnSuccess := None;
     Playbooks.PlaybookStep.nextOnFailure := None;
     Playbooks.PlaybookStep.escalateOnFailure := None;
     Playbooks.PlaybookStep.requiresConfirmation := None;
     Playbooks.PlaybookStep.maxAttempts := Some 2%Z;
     Playbooks.PlaybookStep.timeout := None |}.

Definition restart_playbook : Playbooks.Playbook.t :=
  {| Playbooks.Playbook.metadata :=
       {| Playbooks.PlaybookMetadata.id := "pb-restart";
          Playbooks.PlaybookMetadata.name := "Restart";
          Playbooks.PlaybookMetadata.description := "";
          Playbooks.PlaybookMetadata.version := "1";
          Playbooks.PlaybookMetadata.product := "AI Factory";
          Playbooks.PlaybookMetadata.category := "login";
          Playbooks.PlaybookMetadata.language := "en" |};
     Playbooks.Playbook.triggers :=
       {| Playbooks.PlaybookTrigger.keywords := None;
          Playbooks.PlaybookTrigger.categories := None;
          Playbooks.PlaybookTrigger.products := None;
          Playbooks.PlaybookTrigger.severity := None;
          Playbooks.PlaybookTrigger.condition := None |};
     Playbooks.Playbook.steps := [restart_step];
     Playbooks.Playbook.escalation :=
       {| Playbooks.Escalation.defaultMessage := "A specialist will take over.";
          Playbooks.Escalation.conditions := [] |};
     Playbooks.Playbook.variables := None |}.

(** The state after two failed attempts at the step. *)
Definition after_two_failures : Playbooks.PlaybookExecutionState.t :=
  fst (Playbooks.executeStep 2 restart_playbook
         (fst (Playbooks.executeStep 1 restart_playbook
                 (Playbooks.createExecutionState 0 restart_playbook)
                 Playbooks.failure))
         Playbooks.failure).

(** A retrieval result with the given content and score. *)
Definition chunk_of (c : str) (s : float) : Retrieval.RetrievalResult.t :=
  {| Retrieval.RetrievalResult.content := c;
     Retrieval.RetrievalResult.score := s;
     Retrieval.RetrievalResult.metadata :=
       {| Retrieval.ResultMetadata.kbId := "kb";
          Retrieval.ResultMetadata.docId := "doc";
          Retrieval.ResultMetadata.product := "AI Factory";
          Retrieval.ResultMetadata.chunkIndex := 0;
          Retrieval.ResultMetadata.language := "en" |} |}.

(** A match of the vector index. *)
Definition match_of (i : string) (s : float) : IndexMatch :=
  {| match_id := i; match_score := Some s;
     match_metadata :=
       Some {| tenantId := "t1"; kbId := "kb"; docId := i; product := "AI Factory";
               chunkIndex := 0; content := "Reset the password from the login page.";
               language := "en" |} |}.

(** A world with both keys set: the embedding model answers every text with
    the same vector, the index answers every query with two matches, the
    lower score first, the chat model answers with a plain text and no tool
    call, no playbook is registered, so that no pattern is ever compiled, and
    the clock counts the calls. *)
Definition example_world : World :=
  {| OPENAI_API_KEY := Some (list_ascii_of_string "key");
     PINECONE_API_KEY := Some (list_ascii_of_string "key");
     embeddings_create := fun _ input =>
       match input with
       | OneText _ => Some [[1%float; 0%float]]
       | Batch ts => Some (map (fun _ => [1%float; 0%float]) ts)
       end;
     namespace_query := fun _ _ _ _ _ _ =>
       Some (Some [match_of "d1" 0.8; match_of "d2" 0.9]);
     chat_completions_create := fun _ _ =>
       Some {| model := "gpt-4";
               choices := [(Some (list_ascii_of_string "Please try again."), [])];
               total_tokens := Some 42%Z |};
     playbookRegistry := [];
     clock := fun log => Z.of_nat (length log);
     regexp_replace := fun _ text _ => Some text |}.

Definition no_options : Retrieval.RetrievalOptions.t :=
  {| Retrieval.RetrievalOptions.topK := None;
     Retrieval.RetrievalOptions.minScore := None;
     Retrieval.RetrievalOptions.product := None;
     Retrieval.RetrievalOptions.kbId := None;
     Retrieval.RetrievalOptions.language := None |}.

(** 250 texts: the decimal numerals from 0 to 249. *)
Definition example_texts : list str :=
  map (fun i => string_of_Z (Z.of_nat i)) (List.seq 0 250).

(** A case of low severity with no history, no playbook state and no failed
    attempt. *)
Definition example_context : L1Agent.L1AgentContext.t :=
  {| L1Agent.L1AgentContext.tenantId := "t1";
     L1Agent.L1AgentContext.caseId := "case-1";
     L1Agent.L1AgentContext.product := "AI Factory";
     L1Agent.L1AgentContext.category := "login";
     L1Agent.L1AgentContext.language := "en";
     L1Agent.L1AgentContext.severity := Guardrails.Low;
     L1Agent.L1AgentContext.customerName := None;
     L1Agent.L1AgentContext.conversationHistory := [];
     L1Agent.L1AgentContext.playbookState := None;
     L1Agent.L1AgentContext.failedAttempts := None |}.

(** The chunker's options, all left to their defaults (500, 100, 50). *)
Definition default_options : Chunker.ChunkOptions.t :=
  {| Chunker.ChunkOptions.maxTokens := None;
     Chunker.ChunkOptions.minTokens := None;
     Chunker.ChunkOptions.overlapTokens := None |}.

(** Two paragraphs of 1000 characters each. *)
Definition two_paragraphs : str :=
  repeat "a"%char 1000 ++ Chunker.nl ++ Chunker.nl ++ repeat "b"%char 1000.

(** Options for small examples: 10, 3 and 2 tokens. *)
Definition small_options : Chunker.ChunkOptions.t :=
  {| Chunker.ChunkOptions.maxTokens := Some 10%Z;
     Chunker.ChunkOptions.minTokens := Some 3%Z;
     Chunker.ChunkOptions.overlapTokens := Some 2%Z |}.

(** A paragraph whose second sentence, of 61 characters, alone exceeds 10
    tokens, and a short paragraph. *)
Definition long_sentence_text : str :=
  "Restart it. " ++ repeat "a"%char 60 ++ ". Then sign in." ++
  Chunker.nl ++ Chunker.nl ++ "Call us.".

(** The criteria of a search with an empty list of keywords. *)
Definition no_keywords : Playbooks.Criteria :=
  {| Playbooks.product := None;
     Playbooks.category := None;
     Playbooks.keywords := Some [] |}.

(** The context of a check after three failed attempts. *)
Definition three_failed_attempts : Guardrails.TriggerContext :=
  {| Guardrails.failedAttempts := Some 3%Z;
     Guardrails.severity := None;
     Guardrails.customerRequested := None |}.

(** The example case, with severity 'critical'. *)
Definition critical_context : L1Agent.L1AgentContext.t :=
  {| L1Agent.L1AgentContext.tenantId := "t1";
     L1Agent.L1AgentContext.caseId := "case-1";
     L1Agent.L1AgentContext.product := "AI Factory";
     L1Agent.L1AgentContext.category := "login";
     L1Agent.L1AgentContext.language := "en";
     L1Agent.L1AgentContext.severity := Guardrails.Critical;
     L1Agent.L1AgentContext.customerName := None;
     L1Agent.L1AgentContext.conversationHistory := [];
     L1Agent.L1AgentContext.playbookState := None;
     L1Agent.L1AgentContext.failedAttempts := None |}.

(** The example world without the key of the vector index, and with an
    embedding model that fails. *)
Definition unindexed_world : World :=
  {| OPENAI_API_KEY := OPENAI_API_KEY example_world;
     PINECONE_API_KEY := None;
     embeddings_create := fun _ _ => None;
     namespace_query := namespace_query example_world;
     chat_completions_create := chat_completions_create example_world;
     playbookRegistry := playbookRegistry example_world;
     clock := clock example_world;
     regexp_replace := regexp_replace example_world |}.

(** The example world without the key of the language model. *)
Definition keyless_world : World :=
  {| OPENAI_API_KEY := None;
     PINECONE_API_KEY := PINECONE_API_KEY example_world;
     embeddings_create := embeddings_create example_world;
     namespace_query := namespace_query example_world;
     chat_completions_create := chat_completions_create example_world;
     playbookRegistry := playbookRegistry example_world;
     clock := clock example_world;
     regexp_replace := regexp_replace example_world |}.

(** A step that sets [maxAttempts] to 0, and a playbook made of it. *)
Definition single_try_step : Playbooks.PlaybookStep.t :=
  {| Playbooks.PlaybookStep.id := "reset";
     Playbooks.PlaybookStep.title := "Reset the password";
     Playbooks.PlaybookStep.instruction := "Send the reset link";
     Playbooks.PlaybookStep.expectedOutcome := None;
     Playbooks.PlaybookStep.failureHint := None;
     Playbooks.PlaybookStep.nextOnSuccess := None;
     Playbooks.PlaybookStep.nextOnFailure := None;
     Playbooks.PlaybookStep.escalateOnFailure := None;
     Playbooks.PlaybookStep.requiresConfirmation := None;
     Playbooks.PlaybookStep.maxAttempts := Some 0%Z;
     Playbooks.PlaybookStep.timeout := None |}.

Definition single_try_playbook : Playbooks.Playbook.t :=
  {| Playbooks.Playbook.metadata := Playbooks.Playbook.metadata restart_playbook;
     Playbooks.Playbook.triggers := Playbooks.Playbook.triggers restart_playbook;
     Playbooks.Playbook.steps := [single_try_step];
     Playbooks.Playbook.escalation := Playbooks.Playbook.escalation restart_playbook;
     Playbooks.Playbook.variables := None |}.

(** A step whose id is the name of a property of [Object.prototype], and a
    playbook made of it. *)
Definition constructor_step : Playbooks.PlaybookStep.t :=
  {| Playbooks.PlaybookStep.id := "constructor";
     Playbooks.PlaybookStep.title := "Restart the app";
     Playbooks.PlaybookStep.instruction := "Close the app and open it again";
     Playbooks.PlaybookStep.expectedOutcome := None;
     Playbooks.PlaybookStep.failureHint := None;
     Playbooks.PlaybookStep.nextOnSuccess := None;
     Playbooks.PlaybookStep.nextOnFailure := None;
     Playbooks.PlaybookStep.escalateOnFailure := None;
     Playbooks.PlaybookStep.requiresConfirmation := None;
     Playbooks.PlaybookStep.maxAttempts := Some 2%Z;
     Playbooks.PlaybookStep.timeout := None |}.

Definition constructor_playbook : Playbooks.Playbook.t :=
  {| Playbooks.Playbook.metadata := Playbooks.Playbook.metadata restart_playbook;
     Playbooks.Playbook.triggers := Playbooks.Playbook.triggers restart_playbook;
     Playbooks.Playbook.steps := [constructor_step];
     Playbooks.Playbook.escalation := Playbooks.Playbook.escalation restart_playbook;
     Playbooks.Playbook.variables := None |}.

End Examples.

(** Closed statements about the embedded code are settled by evaluating it:
    a conjunction is split, and each part computed. *)
Ltac by_evaluation :=
  cbv zeta;
  repeat match goal with |- _ /\ _ => split end;
  vm_compute; reflexivity.

(* ===================================================================== *)
(** * Properties of the guardrails' escalation check                     *)
(* ===================================================================== *)
Module GuardrailsFacts.
Import JS Guardrails Spec.

(** C1 (the code departs from the claim).  On the message "hack fraud" the
    scan reaches [Critical] at the keyword "hack" (the fourteenth of the
    list), and the later keyword "fraud" assigns [High]: the severity
    returned is lower than one reached during the evaluation.  On "lawsuit"
    with a case of severity "high", the case's severity is assigned over the
    [Critical] the scan had reached. *)
Lemma checkEscalationTriggers_lowers_critical :
  snd (keyword_scan (toLowerCase "hack fraud") (firstn 14 ESCALATION_KEYWORDS) ([], Low))
    = Critical /\
  check_severity (checkEscalationTriggers "hack fraud" None) = High /\
  check_severity (checkEscalationTriggers "lawsuit" None) = Critical /\
  check_severity
    (checkEscalationTriggers "lawsuit"
       (Some {| failedAttempts := None;
                severity := Some (list_ascii_of_string "high");
                customerRequested := None |})) = High.
Proof. by_evaluation. Qed.

Lemma keyword_step_reasoned lowerMessage acc keyword :
  reasoned acc -> reasoned (keyword_step lowerMessage acc keyword).
Proof.
  unfold reasoned, keyword_step. destruct acc as [rs sev]. simpl.
  intros Hacc.
  destruct (includes lowerMessage (toLowerCase keyword)); [| exact Hacc].
  repeat match goal with |- context [if ?c then _ else _] => destruct c end;
    simpl; intros _ Hnil; apply app_eq_nil in Hnil as [_ Hnil]; discriminate.
Qed.

Lemma keyword_scan_reasoned lowerMessage keywords acc :
  reasoned acc -> reasoned (keyword_scan lowerMessage keywords acc).
Proof.
  unfold keyword_scan. revert acc.
  induction keywords as [| k ks IH]; intros acc Hacc; simpl; [exact Hacc |].
  apply IH, keyword_step_reasoned, Hacc.
Qed.

Lemma context_steps_reasoned context acc :
  reasoned acc -> reasoned (context_steps context acc).
Proof.
  destruct context as [c |]; [| auto]. simpl.
  intros Hacc.
  assert (H1 : reasoned (failed_attempts_step c acc)).
  { unfold failed_attempts_step. destruct acc as [rs sev].
    destruct (failedAttempts c) as [n |]; [| exact Hacc].
    destruct (negb (n =? 0)%Z && (3 <=? n)%Z); [| exact Hacc].
    intros _ Hnil; simpl in Hnil.
    apply app_eq_nil in Hnil as [_ Hnil]; discriminate. }
  assert (H2 : reasoned (case_severity_step c (failed_attempts_step c acc))).
  { revert H1. generalize (failed_attempts_step c acc). intros [rs sev] H1.
    unfold case_severity_step.
    destruct (severity c) as [s |]; [| exact H1].
    destruct (str_eqb s "critical");
      [intros _ Hnil; simpl in Hnil; apply app_eq_nil in Hnil as [_ Hnil]; discriminate |].
    destruct (str_eqb s "high"); [| exact H1].
    intros _ Hnil; simpl in Hnil; apply app_eq_nil in Hnil as [_ Hnil]; discriminate. }
  revert H2. generalize (case_severity_step c (failed_attempts_step c acc)).
  intros [rs sev] H2. unfold customer_requested_step.
  destruct (customerRequested c) as [[|] |]; try exact H2.
  intros _ Hnil; simpl in Hnil; apply app_eq_nil in Hnil as [_ Hnil]; discriminate.
Qed.

(** A check whose severity is not [Low] asks for escalation. *)
Lemma severity_raised_escalates message context :
  check_severity (checkEscalationTriggers message context) <> Low ->
  shouldEscalate (checkEscalationTriggers message context) = true.
Proof.
  unfold checkEscalationTriggers.
  pose proof (context_steps_reasoned context
    (keyword_scan (toLowerCase message) ESCALATION_KEYWORDS ([], Low))
    (keyword_scan_reasoned _ _ ([], Low) (fun H => False_ind _ (H eq_refl)))) as Hr.
  destruct (context_steps context _) as [rs sev]. simpl in *.
  intros Hsev. specialize (Hr Hsev).
  destruct rs; [contradiction | reflexivity].
Qed.

(** A keyword that the message does not contain leaves the scan as it is. *)
Lemma keyword_scan_no_keyword (lowerMessage : str) (keywords : list str) (acc : scan) :
  forallb (fun k => negb (includes lowerMessage (toLowerCase k))) keywords = true ->
  keyword_scan lowerMessage keywords acc = acc.
Proof.
  unfold keyword_scan. revert acc.
  induction keywords as [| k ks IH]; intros acc H; simpl; [reflexivity |].
  simpl in H. apply andb_true_iff in H as [Hk Hks].
  apply negb_true_iff in Hk.
  unfold keyword_step at 2. destruct acc as [rs sev]. rewrite Hk. apply IH, Hks.
Qed.

(** A message that contains none of the escalation keywords, checked
    without a context, does not escalate: no reason, severity [Low]. *)
Theorem checkEscalationTriggers_quiet (message : str) :
  forallb (fun k => negb (includes (toLowerCase message) (toLowerCase k)))
    ESCALATION_KEYWORDS = true ->
  checkEscalationTriggers message None =
    {| shouldEscalate := false; reasons := []; check_severity := Low |}.
Proof.
  intros H. unfold checkEscalationTriggers, context_steps.
  rewrite (keyword_scan_no_keyword _ _ _ H). reflexivity.
Qed.

(** "My printer shows a blank page" holds no escalation keyword. *)
Lemma checkEscalationTriggers_quiet_example :
  checkEscalationTriggers "My printer shows a blank page" None =
    {| shouldEscalate := false; reasons := []; check_severity := Low |}.
Proof.
  apply (checkEscalationTriggers_quiet "My printer shows a blank page").
  vm_compute. reflexivity.
Defined.

End GuardrailsFacts.

(* ===================================================================== *)
(** * Properties of the playbook engine                                   *)
(* ===================================================================== *)
Module PlaybookFacts.
Import JS Playbooks.

(** C3, amended.  When the current step resolves, the outcome is [failure]
    and the incremented attempt count exceeds the step's limit, which is
    [step.maxAttempts || 3] (3 when [maxAttempts] is absent or 0),
    [executeStep] appends the step's id to [failedSteps] and signals
    [shouldEscalate = step.escalateOnFailure ?? true], which is [true] unless
    [escalateOnFailure] is [false]. *)
Theorem executeStep_failure_beyond_maxAttempts
    (now : Z) (playbook : Playbook.t) (state : PlaybookExecutionState.t)
    (step : PlaybookStep.t) :
  getCurrentStep playbook state = Some step ->
  exceeds (next_attempt state step) (max_attempts step) = true ->
  let state' := fst (executeStep now playbook state failure) in
  let r := snd (executeStep now playbook state failure) in
  PlaybookExecutionState.failedSteps state' =
    PlaybookExecutionState.failedSteps state ++ [PlaybookStep.id step] /\
  PlaybookExecutionResult.shouldEscalate r =
    nullish_or (PlaybookStep.escalateOnFailure step) true /\
  (PlaybookExecutionResult.shouldEscalate r = false <->
   PlaybookStep.escalateOnFailure step = Some false).
Proof.
  intros Hstep Hover. unfold executeStep. rewrite Hstep, Hover. simpl.
  repeat split.
  - destruct (PlaybookStep.escalateOnFailure step) as [[|] |]; simpl; congruence.
  - intros ->. reflexivity.
Qed.

(** The third failure in a row of a step with [maxAttempts = 2]. *)
Lemma executeStep_third_failure_escalates :
  let state' := fst (executeStep 3 Examples.restart_playbook Examples.after_two_failures failure) in
  let r := snd (executeStep 3 Examples.restart_playbook Examples.after_two_failures failure) in
  PlaybookExecutionState.failedSteps state' =
    [] ++ [PlaybookStep.id Examples.restart_step] /\
  PlaybookExecutionResult.shouldEscalate r = nullish_or None true /\
  (PlaybookExecutionResult.shouldEscalate r = false <-> None = Some false).
Proof.
  apply (executeStep_failure_beyond_maxAttempts 3 Examples.restart_playbook
           Examples.after_two_failures Examples.restart_step).
  - reflexivity.
  - vm_compute. reflexivity.
Defined.

(** C3, refuted.  A step with [maxAttempts = 0], in a playbook that
    [validatePlaybook] accepts: at the first failure the count, 1, exceeds
    the step's [maxAttempts], and yet the step is not recorded as failed and
    no escalation is signalled, because [0 || 3] is 3. *)
Lemma executeStep_zero_maxAttempts_is_three :
  let state := createExecutionState 0 Examples.single_try_playbook in
  let state' := fst (executeStep 1 Examples.single_try_playbook state failure) in
  let r := snd (executeStep 1 Examples.single_try_playbook state failure) in
  PlaybookValidationResult.valid
    (validatePlaybook (as_json Examples.single_try_playbook)) = true /\
  getCurrentStep Examples.single_try_playbook state = Some Examples.single_try_step /\
  PlaybookStep.maxAttempts Examples.single_try_step = Some 0%Z /\
  next_attempt state Examples.single_try_step = Count 1 /\
  PlaybookExecutionState.failedSteps state' = [] /\
  PlaybookExecutionResult.shouldEscalate r = false.
Proof. by_evaluation. Qed.

(** C4.  When the current step resolves and the outcome is [success],
    [executeStep] appends the step's id to [completedSteps]; then, if the
    step has a [nextOnSuccess] (a non-empty one: the test is its
    truthiness), [currentStepId] becomes that id and [outcome] is left as it
    was; otherwise [outcome] becomes [resolved] and [currentStepId] stays. *)
Theorem executeStep_success_advances_or_resolves
    (now : Z) (playbook : Playbook.t) (state : PlaybookExecutionState.t)
    (step : PlaybookStep.t) :
  getCurrentStep playbook state = Some step ->
  let state' := fst (executeStep now playbook state success) in
  PlaybookExecutionState.completedSteps state' =
    PlaybookExecutionState.completedSteps state ++ [PlaybookStep.id step] /\
  (if present (PlaybookStep.nextOnSuccess step)
   then Some (PlaybookExecutionState.currentStepId state') = PlaybookStep.nextOnSuccess step /\
        PlaybookExecutionState.outcome state' = PlaybookExecutionState.outcome state
   else PlaybookExecutionState.outcome state' = Some resolved /\
        PlaybookExecutionState.currentStepId state' =
          PlaybookExecutionState.currentStepId state).
Proof.
  intros Hstep. unfold executeStep. rewrite Hstep.
  rewrite andb_false_r.
  destruct (PlaybookStep.nextOnSuccess step) as [n |] eqn:Hnext; simpl.
  - destruct (truthy n); simpl; auto.
  - auto.
Qed.

(** The only step of the example playbook has no successor: success
    resolves the playbook. *)
Lemma executeStep_success_resolves_example :
  let state := createExecutionState 0 Examples.restart_playbook in
  let state' := fst (executeStep 1 Examples.restart_playbook state success) in
  PlaybookExecutionState.completedSteps state' =
    [] ++ [PlaybookStep.id Examples.restart_step] /\
  (if present None
   then Some (PlaybookExecutionState.currentStepId state') = None /\
        PlaybookExecutionState.outcome state' = PlaybookExecutionState.outcome state
   else PlaybookExecutionState.outcome state' = Some resolved /\
        PlaybookExecutionState.currentStepId state' =
          PlaybookExecutionState.currentStepId state).
Proof.
  apply (executeStep_success_advances_or_resolves 1 Examples.restart_playbook
           (createExecutionState 0 Examples.restart_playbook) Examples.restart_step).
  reflexivity.
Defined.

(** When the current step is not one of the playbook's, [executeStep] leaves
    the state as it is and asks for escalation. *)
Theorem executeStep_step_not_found
    (now : Z) (playbook : Playbook.t) (state : PlaybookExecutionState.t)
    (stepOutcome : StepOutcome) :
  getCurrentStep playbook state = None ->
  fst (executeStep now playbook state stepOutcome) = state /\
  PlaybookExecutionResult.shouldEscalate (snd (executeStep now playbook state stepOutcome))
    = true /\
  PlaybookExecutionResult.escalationReason (snd (executeStep now playbook state stepOutcome))
    = Some (list_ascii_of_string "Playbook step not found").
Proof.
  intros H. unfold executeStep. rewrite H. simpl. auto.
Qed.

(** A state that points at a step the example playbook does not have. *)
Lemma executeStep_step_not_found_example :
  let state := set_currentStepId "missing" (createExecutionState 0 Examples.restart_playbook) in
  fst (executeStep 1 Examples.restart_playbook state failure) = state /\
  PlaybookExecutionResult.shouldEscalate
    (snd (executeStep 1 Examples.restart_playbook state failure)) = true /\
  PlaybookExecutionResult.escalationReason
    (snd (executeStep 1 Examples.restart_playbook state failure))
    = Some (list_ascii_of_string "Playbook step not found").
Proof.
  apply (executeStep_step_not_found 1 Examples.restart_playbook
           (set_currentStepId "missing" (createExecutionState 0 Examples.restart_playbook))
           failure).
  reflexivity.
Defined.

(** A failure with attempts left does not escalate and records no failed
    step: the execution moves to [nextOnFailure] when the step has one, and
    stays on the step otherwise. *)
Theorem executeStep_failure_with_attempts_left
    (now : Z) (playbook : Playbook.t) (state : PlaybookExecutionState.t)
    (step : PlaybookStep.t) :
  getCurrentStep playbook state = Some step ->
  exceeds (next_attempt state step) (max_attempts step) = false ->
  let state' := fst (executeStep now playbook state failure) in
  let r := snd (executeStep now playbook state failure) in
  PlaybookExecutionResult.shouldEscalate r = false /\
  PlaybookExecutionState.failedSteps state' = PlaybookExecutionState.failedSteps state /\
  (if present (PlaybookStep.nextOnFailure step)
   then Some (PlaybookExecutionState.currentStepId state') = PlaybookStep.nextOnFailure step
   else PlaybookExecutionState.currentStepId state' =
          PlaybookExecutionState.currentStepId state).
Proof.
  intros Hstep Hleft. unfold executeStep. rewrite Hstep, Hleft. simpl.
  destruct (PlaybookStep.nextOnFailure step) as [n |]; simpl; [| auto].
  destruct (truthy n); simpl; auto.
Qed.

(** The first failure of the example step, which allows two attempts. *)
Lemma executeStep_first_failure_stays :
  let state := createExecutionState 0 Examples.restart_playbook in
  let state' := fst (executeStep 1 Examples.restart_playbook state failure) in
  let r := snd (executeStep 1 Examples.restart_playbook state failure) in
  PlaybookExecutionResult.shouldEscalate r = false /\
  PlaybookExecutionState.failedSteps state' = PlaybookExecutionState.failedSteps state /\
  (if present None
   then Some (PlaybookExecutionState.currentStepId state') = None
   else PlaybookExecutionState.currentStepId state' =
          PlaybookExecutionState.currentStepId state).
Proof.
  apply (executeStep_failure_with_attempts_left 1 Examples.restart_playbook
           (createExecutionState 0 Examples.restart_playbook) Examples.restart_step).
  - reflexivity.
  - vm_compute. reflexivity.
Defined.

End PlaybookFacts.

(* ===================================================================== *)
(** * Properties of the string primitives and of sorting                  *)
(* ===================================================================== *)
Module JSFacts.
Import JS.

Lemma length_trimStart (s : str) : length (trimStart s) <= length s.
Proof.
  induction s as [| c t IH]; simpl; [lia |].
  destruct (is_space c); simpl; lia.
Qed.

Lemma length_trimEnd (s : str) : length (trimEnd s) <= length s.
Proof.
  unfold trimEnd. rewrite length_rev.
  pose proof (length_trimStart (rev s)) as H. rewrite length_rev in H. exact H.
Qed.

Lemma length_trim (s : str) : length (trim s) <= length s.
Proof.
  unfold trim. pose proof (length_trimEnd (trimStart s)).
  pose proof (length_trimStart s). lia.
Qed.

Lemma len_trim (s : str) : (len (trim s) <= len s)%Z.
Proof. unfold len. pose proof (length_trim s). lia. Qed.

Lemma len_app (a b : str) : (len (a ++ b) = len a + len b)%Z.
Proof. unfold len. rewrite length_app. lia. Qed.

Lemma len_nonneg (s : str) : (0 <= len s)%Z.
Proof. unfold len. lia. Qed.

(** Four characters a token: the estimate covers the text. *)
Lemma ceil_div4_covers (n : Z) : (n <= 4 * ceil_div4 n)%Z.
Proof.
  unfold ceil_div4.
  pose proof (Z.div_mod (n + 3) 4 ltac:(lia)).
  pose proof (Z.mod_pos_bound (n + 3) 4 ltac:(lia)). lia.
Qed.

Lemma ceil_div4_nonneg (n : Z) : (0 <= n -> 0 <= ceil_div4 n)%Z.
Proof. intros H. unfold ceil_div4. apply Z.div_pos; lia. Qed.

Lemma ceil_div4_mono (n m : Z) : (n <= m -> ceil_div4 n <= ceil_div4 m)%Z.
Proof. intros H. unfold ceil_div4. apply Z.div_le_mono; lia. Qed.

(** A text of [4 a + b] characters costs at most [a] tokens more than one
    of [b] characters. *)
Lemma ceil_div4_add (a b : Z) : (ceil_div4 (4 * a + b) = a + ceil_div4 b)%Z.
Proof.
  unfold ceil_div4.
  replace (4 * a + b + 3)%Z with (a * 4 + (b + 3))%Z by lia.
  rewrite Z.div_add_l by lia. reflexivity.
Qed.

(** [slice(0, n)] for [n >= 0] keeps at most [n] characters. *)
Lemma len_slice0 (s : str) (n : Z) : (0 <= n -> len (slice s 0 n) <= n)%Z.
Proof.
  intros Hn. unfold slice, clamp_index, len. simpl.
  destruct (n <? 0)%Z eqn:E; [apply Z.ltb_lt in E; lia |].
  rewrite length_firstn. lia.
Qed.

Lemma insert_length {A : Type} (before : A -> A -> bool) (x : A) (l : list A) :
  length (JSArray.insert before x l) = S (length l).
Proof.
  induction l as [| y t IH]; simpl; [reflexivity |].
  destruct (before x y); simpl; [reflexivity | now rewrite IH].
Qed.

Lemma sort_length {A : Type} (before : A -> A -> bool) (l : list A) :
  length (JSArray.sort before l) = length l.
Proof.
  unfold JSArray.sort.
  assert (H : forall acc, length (fold_left (fun acc x => JSArray.insert before x acc) l acc)
                          = length l + length acc).
  { induction l as [| x t IH]; intros acc; simpl; [reflexivity |].
    rewrite IH, insert_length. lia. }
  rewrite H. simpl. lia.
Qed.

End JSFacts.

(* ===================================================================== *)
(** * Properties of the matcher: progress                                 *)
(* ===================================================================== *)
Module RegexFacts.
Import JS Regex Spec.

Lemma reached_refl (st : mstate) : reached false st st.
Proof. unfold reached. repeat split; [lia | discriminate]. Qed.

Lemma reached_trans (s1 s2 : bool) (a b c : mstate) :
  reached s1 a b -> reached s2 b c -> reached (s1 || s2) a c.
Proof.
  unfold reached. intros (H1 & H2 & H3) (H4 & H5 & H6).
  repeat split; [lia | lia |].
  intros H. apply orb_true_iff in H as [H | H]; [specialize (H3 H) | specialize (H6 H)]; lia.
Qed.

Lemma reached_weaken (s : bool) (a b : mstate) : reached s a b -> reached false a b.
Proof. unfold reached. intros (H1 & H2 & _). repeat split; [lia | lia | discriminate]. Qed.

Lemma rep_loop_advances (ca : bool)
    (m : mstate -> (mstate -> option nat) -> option nat) (k : mstate -> option nat) :
  advances ca m ->
  forall (fuel lo : nat) (hi : option nat) (st : mstate) (z : nat),
    rep_loop m k fuel lo hi st = Some z ->
    exists st' : mstate,
      k st' = Some z /\
      reached (match hi with Some O => false | _ => Nat.ltb 0 lo && ca end) st st'.
Proof.
  intros Hm. induction fuel as [| fuel IH]; intros lo hi st z H; [discriminate |].
  simpl in H.
  assert (Hstay : k st = Some z ->
                  exists st', k st' = Some z /\ reached false st st').
  { intros Hk. exists st. split; [exact Hk | apply reached_refl]. }
  assert (Hgo : forall hi' : option nat,
            m st (fun st' =>
                    if Nat.eqb lo 0 && Nat.eqb (pos st') (pos st) then None
                    else rep_loop m k fuel (Nat.pred lo) hi' st') = Some z ->
            exists st', k st' = Some z /\ reached ca st st').
  { intros hi' Hgo. apply Hm in Hgo as (st1 & Hd & Hr1).
    destruct (Nat.eqb lo 0 && Nat.eqb (pos st1) (pos st)); [discriminate |].
    apply IH in Hd as (st' & Hk & Hr2).
    exists st'. split; [exact Hk |].
    pose proof (reached_trans _ _ _ _ _ Hr1 (reached_weaken _ _ _ Hr2)) as Hr.
    rewrite orb_false_r in Hr. exact Hr. }
  destruct hi as [[| h] |].
  - apply Hstay, H.
  - destruct (Nat.ltb 0 lo) eqn:Hlo; simpl.
    + apply (Hgo _ H).
    + destruct (m st _) as [z0 |] eqn:E.
      * injection H as <-. destruct (Hgo _ E) as (st' & Hk & Hr).
        exists st'. split; [exact Hk | eapply reached_weaken, Hr].
      * apply Hstay, H.
  - destruct (Nat.ltb 0 lo) eqn:Hlo; simpl.
    + apply (Hgo _ H).
    + destruct (m st _) as [z0 |] eqn:E.
      * injection H as <-. destruct (Hgo _ E) as (st' & Hk & Hr).
        exists st'. split; [exact Hk | eapply reached_weaken, Hr].
      * apply Hstay, H.
Qed.

Lemma rmatch_advances (ml : bool) (r : regex) : advances (consumes r) (rmatch ml r).
Proof.
  induction r as [| p | a IHa b IHb | a IHa b IHb | a IHa lo hi | | | | a IHa];
    intros st k z H; cbn [rmatch] in H.
  - exists st. split; [exact H | apply reached_refl].
  - destruct (rest st) as [| c t] eqn:E; [discriminate |].
    destruct (p c); [| discriminate].
    eexists. split; [exact H |].
    unfold reached. simpl. rewrite E. simpl. repeat split; lia.
  - apply IHa in H as (st1 & H & Hr1). apply IHb in H as (st' & H & Hr2).
    exists st'. split; [exact H | exact (reached_trans _ _ _ _ _ Hr1 Hr2)].
  - simpl. destruct (rmatch ml a st k) as [z0 |] eqn:E.
    + injection H as <-. apply IHa in E as (st' & Hk & Hr).
      exists st'. split; [exact Hk |].
      destruct Hr as (H1 & H2 & H3). repeat split; [lia | lia |].
      intros Hc. apply andb_true_iff in Hc as [Hc _]. auto.
    + apply IHb in H as (st' & Hk & Hr).
      exists st'. split; [exact Hk |].
      destruct Hr as (H1 & H2 & H3). repeat split; [lia | lia |].
      intros Hc. apply andb_true_iff in Hc as [_ Hc]. auto.
  - apply (rep_loop_advances (consumes a) _ _ IHa) in H as (st' & Hk & Hr).
    exists st'. split; [exact Hk |]. simpl. exact Hr.
  - destruct (at_bol ml st); [| discriminate].
    exists st. split; [exact H | apply reached_refl].
  - destruct (at_eol ml st); [| discriminate].
    exists st. split; [exact H | apply reached_refl].
  - destruct (xorb _ _); [| discriminate].
    exists st. split; [exact H | apply reached_refl].
  - destruct (rmatch ml a st _); [| discriminate].
    exists st. split; [exact H | apply reached_refl].
Qed.

(** A match of a consuming pattern ends after it starts, within the
    subject. *)
Lemma match_here_advances (ml : bool) (r : regex) (st : mstate) (e : nat) :
  match_here ml r st = Some e ->
  pos st <= e <= pos st + length (rest st) /\
  (consumes r = true -> pos st < e).
Proof.
  intros H. apply rmatch_advances in H as (st' & Hk & H1 & H2 & H3).
  injection Hk as <-. repeat split; [lia | lia | exact H3].
Qed.

Lemma search_advances (ml : bool) (r : regex) (s : str) :
  forall (p : option ascii) (i0 i e : nat),
    search ml r p s i0 = Some (i, e) ->
    i0 <= i /\ i <= e <= i0 + length s /\ (consumes r = true -> i < e).
Proof.
  induction s as [| c t IH]; intros p i0 i e H; simpl in H.
  - destruct (match_here ml r _) as [e0 |] eqn:E; [| discriminate].
    injection H as <- <-. apply match_here_advances in E. simpl in E. intuition lia.
  - destruct (match_here ml r _) as [e0 |] eqn:E.
    + injection H as <- <-. apply match_here_advances in E. simpl in E. intuition lia.
    + apply IH in H. simpl. intuition lia.
Qed.

Lemma seek_state (s : str) :
  forall (p : option ascii) (i n : nat) (st : mstate),
    seek p s i n = Some st ->
    pos st = i + n /\ pos st + length (rest st) = i + length s.
Proof.
  induction s as [| c t IH]; intros p i n st H; destruct n as [| n]; simpl in H;
    try discriminate.
  - injection H as <-. simpl. lia.
  - injection H as <-. simpl. lia.
  - apply IH in H. simpl. lia.
Qed.

Lemma exec_advances (r : RegExp) (t : str) (lastIndex i e : nat) :
  exec r t lastIndex = Some (i, e) ->
  lastIndex <= i /\ i <= e <= length t /\ (consumes (pattern r) = true -> i < e).
Proof.
  unfold exec. destruct (seek None t 0 lastIndex) as [st |] eqn:E; [| discriminate].
  apply seek_state in E as [Hp Hl]. intros H.
  apply search_advances in H. intuition lia.
Qed.

(** The loop over the matches of a consuming pattern ends. *)
Lemma exec_all_from_returns (r : RegExp) (t : str) :
  consumes (pattern r) = true ->
  forall fuel lastIndex : nat,
    length t < fuel + lastIndex ->
    lastIndex <= length t ->
    exists ms, exec_all_from fuel r t lastIndex = Some ms.
Proof.
  intros Hc. induction fuel as [| fuel IH]; intros lastIndex Hfuel Hle; [lia |].
  simpl. destruct (exec r t lastIndex) as [[i e] |] eqn:E; [| eauto].
  apply exec_advances in E as (H1 & H2 & H3). specialize (H3 Hc).
  destruct (Nat.leb e i) eqn:El; [apply Nat.leb_le in El; lia |].
  destruct (IH e ltac:(lia) ltac:(lia)) as (ms & ->). eauto.
Qed.

Lemma exec_all_returns (r : RegExp) (t : str) :
  consumes (pattern r) = true -> exists ms, exec_all r t = Some ms.
Proof.
  intros Hc. unfold exec_all. apply exec_all_from_returns; [exact Hc | lia | lia].
Qed.

End RegexFacts.

(* ===================================================================== *)
(** * Properties of redaction                                             *)
(* ===================================================================== *)
Module RedactionFacts.
Import JS Regex Guardrails Spec.

Lemma redact_patterns_unmatched (ps : list SensitivePattern) (t : str)
    (acc : str * list Redaction) :
  forallb (fun p => match exec (pattern p) t 0 with
                    | None => true
                    | Some _ => false
                    end) ps = true ->
  redact_patterns ps t acc = Some acc.
Proof.
  induction ps as [| p ps IH]; simpl; [reflexivity |].
  intros H. apply andb_true_iff in H as [Hp Hps].
  unfold exec_all. simpl.
  destruct (exec (pattern p) t 0); [discriminate |].
  simpl. apply IH, Hps.
Qed.

(** A text no pattern matches is returned as it is, with no redaction. *)
Lemma redactSecrets_unmatched (t : str) :
  unmatched t = true ->
  redactSecrets t = Some {| text := t; redactions := []; hasSecrets := false |}.
Proof.
  intros H. unfold redactSecrets.
  rewrite (redact_patterns_unmatched SENSITIVE_PATTERNS t (t, []) H). reflexivity.
Qed.


Lemma redact_patterns_returns (ps : list SensitivePattern) (t : str) :
  forallb (fun p => consumes (Regex.pattern (pattern p))) ps = true ->
  forall acc, exists out, redact_patterns ps t acc = Some out.
Proof.
  induction ps as [| p ps IH]; intros H acc; simpl; [eauto |].
  simpl in H. apply andb_true_iff in H as [Hp Hps].
  destruct (RegexFacts.exec_all_returns (pattern p) t Hp) as (ms & ->).
  apply IH, Hps.
Qed.

(** [redactSecrets] returns on every input. *)
Theorem redactSecrets_returns (t : str) : exists r, redactSecrets t = Some r.
Proof.
  unfold redactSecrets.
  destruct (redact_patterns_returns SENSITIVE_PATTERNS t eq_refl (t, [])) as ([res reds] & ->).
  eauto.
Qed.

(** C8, refuted: the text "pwd=apikey aaaaaaaaaaaaaaaaaaaa" is redacted to
    "pwd=[REDACTED API Key]" (only the API-key pattern matches it), and
    redacting that text again gives "[REDACTED Password] API Key]": the
    password pattern now matches "pwd=[REDACTED". *)
Lemma redactSecrets_not_idempotent :
  option_map text (redactSecrets "pwd=apikey aaaaaaaaaaaaaaaaaaaa")
    = Some (list_ascii_of_string "pwd=[REDACTED API Key]") /\
  option_map text (redactSecrets "pwd=[REDACTED API Key]")
    = Some (list_ascii_of_string "[REDACTED Password] API Key]").
Proof. split; vm_compute; reflexivity. Qed.

(** C8, amended.  Redacting a redacted text again returns it unchanged, and
    reports no secret, whenever no pattern of the catalogue matches the
    redacted text. *)
Theorem redactSecrets_idempotent_when_unmatched (x : str) (r : RedactionResult) :
  redactSecrets x = Some r ->
  unmatched (text r) = true ->
  redactSecrets (text r) =
    Some {| text := text r; redactions := []; hasSecrets := false |}.
Proof. intros _ H. apply redactSecrets_unmatched, H. Qed.

(** "password=abcdefgh" becomes "[REDACTED Password]", which no pattern
    matches. *)
Lemma redactSecrets_idempotent_on_password :
  redactSecrets (list_ascii_of_string "[REDACTED Password]") =
    Some {| text := list_ascii_of_string "[REDACTED Password]";
            redactions := []; hasSecrets := false |}.
Proof.
  apply (redactSecrets_idempotent_when_unmatched "password=abcdefgh"
           {| text := list_ascii_of_string "[REDACTED Password]";
              redactions := [ {| type := list_ascii_of_string "Password";
                                 original := list_ascii_of_string "pass...";
                                 position := 0 |} ];
              hasSecrets := true |}).
  - vm_compute. reflexivity.
  - vm_compute. reflexivity.
Defined.

End RedactionFacts.

(* ===================================================================== *)
(** * Properties of context assembly and retrieval                       *)
(* ===================================================================== *)
Module RetrievalFacts.
Import JS Eff Retrieval JSFacts Spec Examples.

(** C5, refuted.  With a budget of one token, the one chunk "abcd" costs one
    token and is included in full; the output, "---" and a line feed before
    "abcd", has eight characters: two tokens.  With the default budget of
    2000 tokens, a chunk of 8000 characters gives 8004 characters: 2001
    tokens. *)
Lemma assembleContext_exceeds_budget :
  assembleContext [chunk_of "abcd" 0.9] (Some 1%Z)
    = list_ascii_of_string "---" ++ nl ++ list_ascii_of_string "abcd" /\
  estimateTokens (assembleContext [chunk_of "abcd" 0.9] (Some 1%Z)) = 2%Z /\
  estimateTokens (assembleContext [chunk_of (repeat "a"%char (8 * 1000)) 0.9] None) = 2001%Z.
Proof. by_evaluation. Qed.

Lemma len_delimiter : len delimiter = 5%Z.
Proof. reflexivity. Qed.

(** The loop of [assembleContext]: what it appends to [context] is at most
    four characters per token of budget left, five per chunk for the
    delimiters, and three for an ellipsis. *)
Lemma assemble_length (maxTokens : Z) (sortedChunks : list RetrievalResult.t) :
  forall (context : str) (totalTokens : Z),
    (0 <= totalTokens <= maxTokens)%Z ->
    (len (assemble maxTokens sortedChunks context totalTokens)
     <= len context + 4 * (maxTokens - totalTokens)
        + 5 * Z.of_nat (length sortedChunks) + 3)%Z.
Proof.
  induction sortedChunks as [| chunk more IH]; intros context totalTokens Htot.
  - simpl. lia.
  - cbn [assemble].
    set (chunkTokens := estimateTokens (RetrievalResult.content chunk)).
    assert (Hct : (0 <= chunkTokens)%Z).
    { apply ceil_div4_nonneg, len_nonneg. }
    assert (Hcover : (len (RetrievalResult.content chunk) <= 4 * chunkTokens)%Z).
    { apply ceil_div4_covers. }
    replace (Z.of_nat (length (chunk :: more)))
      with (Z.of_nat (length more) + 1)%Z by (simpl; lia).
    destruct (maxTokens <? totalTokens + chunkTokens)%Z eqn:Hover.
    + pose proof (len_slice0 (RetrievalResult.content chunk)
                    ((maxTokens - totalTokens) * 4) ltac:(lia)) as Hs.
      destruct (100 <? len _)%Z.
      * rewrite !len_app, len_delimiter.
        change (len (list_ascii_of_string "...")) with 3%Z. lia.
      * lia.
    + apply Z.ltb_ge in Hover.
      specialize (IH (context ++ delimiter ++ RetrievalResult.content chunk)
                     (totalTokens + chunkTokens)%Z ltac:(lia)).
      rewrite !len_app, len_delimiter in IH. lia.
Qed.

(** C5, amended.  For a budget [maxTokens >= 0] (2000 when it is not given),
    the output of [assembleContext] has at most [4 * maxTokens] characters
    of chunk content, plus five characters of delimiter per chunk and three
    of ellipsis, which are not counted against the budget: its estimated
    token count is at most [maxTokens] plus the estimate of those
    [5 * chunks.length + 3] characters. *)
Theorem assembleContext_length_bound
    (chunks : list RetrievalResult.t) (maxTokens : option Z) :
  (0 <= Playbooks.nullish_or maxTokens DEFAULT_MAX_TOKENS)%Z ->
  (len (assembleContext chunks maxTokens)
   <= 4 * Playbooks.nullish_or maxTokens DEFAULT_MAX_TOKENS
      + (5 * Z.of_nat (length chunks) + 3))%Z /\
  (estimateTokens (assembleContext chunks maxTokens)
   <= Playbooks.nullish_or maxTokens DEFAULT_MAX_TOKENS
      + ceil_div4 (5 * Z.of_nat (length chunks) + 3))%Z.
Proof.
  intros Hb.
  assert (Hlen : (len (assembleContext chunks maxTokens)
                  <= 4 * Playbooks.nullish_or maxTokens DEFAULT_MAX_TOKENS
                     + (5 * Z.of_nat (length chunks) + 3))%Z).
  { unfold assembleContext.
    destruct chunks as [| c cs] eqn:E.
    - change (len []) with 0%Z. simpl. lia.
    - rewrite <- E.
      pose proof (assemble_length (Playbooks.nullish_or maxTokens DEFAULT_MAX_TOKENS)
                    (JSArray.sort score_before chunks) [] 0 ltac:(lia)) as H.
      rewrite sort_length in H. change (len []) with 0%Z in H.
      pose proof (len_trim (assemble (Playbooks.nullish_or maxTokens DEFAULT_MAX_TOKENS)
                              (JSArray.sort score_before chunks) [] 0)).
      lia. }
  split; [exact Hlen |].
  unfold estimateTokens. rewrite <- ceil_div4_add. apply ceil_div4_mono, Hlen.
Qed.

(** With the default budget and two chunks: at most 8013 characters, 2004
    tokens. *)
Lemma assembleContext_length_bound_default :
  (len (assembleContext [chunk_of "abcd" 0.9; chunk_of "efgh" 0.8] None)
   <= 4 * Playbooks.nullish_or None DEFAULT_MAX_TOKENS + (5 * Z.of_nat 2 + 3))%Z /\
  (estimateTokens (assembleContext [chunk_of "abcd" 0.9; chunk_of "efgh" 0.8] None)
   <= Playbooks.nullish_or None DEFAULT_MAX_TOKENS + ceil_div4 (5 * Z.of_nat 2 + 3))%Z.
Proof.
  apply (assembleContext_length_bound [chunk_of "abcd" 0.9; chunk_of "efgh" 0.8] None).
  vm_compute. discriminate.
Defined.

(** ** retrieveRelevantChunks *)


(** C7, refuted.  When the index returns a match of score 0.8 before one of
    score 0.9, [retrieveRelevantChunks] returns them in that order: the list
    is not in descending order of score. *)
Lemma retrieveRelevantChunks_keeps_index_order :
  option_map scores
    (result (run (retrieveRelevantChunks example_world "t1" "reset password" no_options)))
    = Some [0.8%float; 0.9%float] /\
  descendingb [0.8%float; 0.9%float] = false.
Proof. split; vm_compute; reflexivity. Qed.

Lemma scores_format (found : list ScoredVector.t) :
  scores (map format_result found) = map ScoredVector.score found.
Proof. unfold scores. rewrite map_map. reflexivity. Qed.

Lemma map_filter_score (minScore : float) (found : list ScoredVector.t) :
  map ScoredVector.score (List.filter (score_ok minScore) found)
  = List.filter (PrimFloat.leb minScore) (map ScoredVector.score found).
Proof.
  induction found as [| r rs IH]; simpl; [reflexivity |].
  unfold score_ok at 1. destruct (PrimFloat.leb minScore (ScoredVector.score r)); simpl;
    now rewrite IH.
Qed.

Lemma descending_filter (f : float -> bool) (l : list float) :
  descending l -> descending (List.filter f l).
Proof.
  unfold descending. induction 1 as [| x l Hl IH Hx]; simpl; [constructor |].
  destruct (f x); [| exact IH].
  constructor; [exact IH |].
  apply List.Forall_forall. intros y Hy. apply filter_In in Hy as [Hy _].
  rewrite List.Forall_forall in Hx. apply Hx, Hy.
Qed.

(** What [retrieveRelevantChunks] returns, in terms of what [queryVectors]
    answered. *)
Lemma retrieveRelevantChunks_inv (W : World) (tenantId query : str)
    (options : RetrievalOptions.t) (log log' : list Call)
    (rs : list RetrievalResult.t) :
  retrieveRelevantChunks W tenantId query options log = (log', Some rs) ->
  exists (e : list float) (log1 : list Call) (found : list ScoredVector.t),
    Embeddings.generateEmbedding W query log = (log1, Some e) /\
    queryVectors W tenantId e
      {| QueryOptions.topK := Some (Playbooks.nullish_or (RetrievalOptions.topK options) 5%Z);
         QueryOptions.filter :=
           if Nat.ltb 0 (length (build_filter options))
           then Some (build_filter options) else None;
         QueryOptions.includeMetadata := Some true |} log1 = (log', Some found) /\
    rs = map format_result
           (List.filter
              (score_ok (Playbooks.nullish_or (RetrievalOptions.minScore options)
                           DEFAULT_MIN_SCORE)) found).
Proof.
  unfold retrieveRelevantChunks, bind. intros H.
  destruct (Embeddings.generateEmbedding W query log) as [log1 [e |]] eqn:He;
    [| discriminate].
  destruct (queryVectors W tenantId e _ log1) as [log2 [found |]] eqn:Hq;
    [| discriminate].
  unfold ret in H. injection H as <- <-.
  exists e, log1, found. repeat split; assumption.
Qed.

(** C7, amended.  Whatever [retrieveRelevantChunks] returns holds only
    results whose score is at least [minScore] (0.7 when it is not given),
    in the order in which the vector index returned them: no sort is
    applied, and the result is in descending order of score whenever the
    matches of the index are. *)
Theorem retrieveRelevantChunks_filters_in_order (W : World) (tenantId query : str)
    (options : RetrievalOptions.t) (log log' : list Call)
    (rs : list RetrievalResult.t) :
  retrieveRelevantChunks W tenantId query options log = (log', Some rs) ->
  let minScore := Playbooks.nullish_or (RetrievalOptions.minScore options) DEFAULT_MIN_SCORE in
  Forall (fun r => PrimFloat.leb minScore (RetrievalResult.score r) = true) rs /\
  exists (e : list float) (log1 : list Call) (found : list ScoredVector.t),
    queryVectors W tenantId e
      {| QueryOptions.topK := Some (Playbooks.nullish_or (RetrievalOptions.topK options) 5%Z);
         QueryOptions.filter :=
           if Nat.ltb 0 (length (build_filter options))
           then Some (build_filter options) else None;
         QueryOptions.includeMetadata := Some true |} log1 = (log', Some found) /\
    scores rs = List.filter (PrimFloat.leb minScore) (map ScoredVector.score found) /\
    (descending (map ScoredVector.score found) -> descending (scores rs)).
Proof.
  intros H minScore.
  apply retrieveRelevantChunks_inv in H as (e & log1 & found & _ & Hq & ->).
  fold minScore.
  assert (Hs : scores (map format_result (List.filter (score_ok minScore) found))
               = List.filter (PrimFloat.leb minScore) (map ScoredVector.score found)).
  { rewrite scores_format. apply map_filter_score. }
  split.
  - apply List.Forall_forall. intros r Hr.
    apply in_map_iff in Hr as (v & <- & Hv).
    apply filter_In in Hv as [_ Hv]. exact Hv.
  - exists e, log1, found. split; [exact Hq |]. split; [exact Hs |].
    intros Hd. rewrite Hs. apply descending_filter, Hd.
Qed.

(** The example world again: both matches pass the default threshold. *)
Lemma retrieveRelevantChunks_filters_example :
  let r := run (retrieveRelevantChunks example_world "t1" "reset password" no_options) in
  r = (calls r, Some (map format_result
                        (map (fun m => {| ScoredVector.id := match_id m;
                                          ScoredVector.score := float_or (match_score m) 0;
                                          ScoredVector.metadata := match_metadata m |})
                             [match_of "d1" 0.8; match_of "d2" 0.9]))) /\
  Forall (fun r => PrimFloat.leb DEFAULT_MIN_SCORE (RetrievalResult.score r) = true)
    (map format_result
       (map (fun m => {| ScoredVector.id := match_id m;
                         ScoredVector.score := float_or (match_score m) 0;
                         ScoredVector.metadata := match_metadata m |})
            [match_of "d1" 0.8; match_of "d2" 0.9])).
Proof.
  assert (H : run (retrieveRelevantChunks example_world "t1" "reset password" no_options)
              = (calls (run (retrieveRelevantChunks example_world "t1" "reset password"
                               no_options)),
                 Some (map format_result
                        (map (fun m => {| ScoredVector.id := match_id m;
                                          ScoredVector.score := float_or (match_score m) 0;
                                          ScoredVector.metadata := match_metadata m |})
                             [match_of "d1" 0.8; match_of "d2" 0.9])))).
  { vm_compute. reflexivity. }
  split; [exact H |].
  exact (proj1 (retrieveRelevantChunks_filters_in_order example_world "t1"
                  "reset password" no_options [] _ _ H)).
Defined.

End RetrievalFacts.

(* ===================================================================== *)
(** * Properties of the embedding service                                 *)
(* ===================================================================== *)
Module EmbeddingsFacts.
Import JS Eff Embeddings Spec Examples.

(** ** generateEmbeddings *)

Lemma pair_results_text (data : list (list float)) (batch : list str) (i : nat) :
  length data = length batch ->
  map text (pair_results data batch i) = map Some batch.
Proof.
  revert batch i. induction data as [| e data IH]; intros [| t batch] i H;
    simpl in *; try discriminate; [reflexivity |].
  f_equal. apply IH. lia.
Qed.

Lemma pair_results_index (data : list (list float)) (batch : list str) (i : nat) :
  length data = length batch ->
  map index (pair_results data batch i) = map Some (List.seq i (length batch)).
Proof.
  revert batch i. induction data as [| e data IH]; intros [| t batch] i H;
    simpl in *; try discriminate; [reflexivity |].
  f_equal. apply IH. lia.
Qed.

(** The texts and indices from [i] on, cut after one batch. *)
Lemma batch_then_rest (texts : list str) (i : nat) :
  firstn MAX_BATCH_SIZE (skipn i texts) ++ skipn (i + MAX_BATCH_SIZE) texts
  = skipn i texts.
Proof.
  rewrite (Nat.add_comm i), <- skipn_skipn. apply firstn_skipn.
Qed.

Lemma seq_batch_then_rest (n i : nat) :
  i < n ->
  List.seq i (Nat.min MAX_BATCH_SIZE (n - i)) ++
  List.seq (i + MAX_BATCH_SIZE) (n - (i + MAX_BATCH_SIZE))
  = List.seq i (n - i).
Proof.
  intros Hi. unfold MAX_BATCH_SIZE.
  destruct (Nat.le_gt_cases 100 (n - i)) as [Hbig | Hsmall].
  - rewrite Nat.min_l by lia.
    replace (List.seq i (n - i)) with (List.seq i (100 + (n - (i + 100))))
      by (f_equal; lia).
    now rewrite seq_app.
  - rewrite Nat.min_r by lia.
    replace (n - (i + 100)) with 0 by lia. simpl. apply app_nil_r.
Qed.

(** The batch loop from [i]: it returns, having pushed one result per text
    from [i] on, each with its text and its index, in order. *)
Lemma batches_results (W : World) (texts : list str) (onProgress : bool) :
  one_per_input W ->
  forall (k i : nat) (results : list EmbeddingResult) (log : list Call),
    length texts - i <= k ->
    exists (log' : list Call) (out : list EmbeddingResult),
      batches W texts onProgress i results log = (log', Some (results ++ out)) /\
      map text out = map Some (skipn i texts) /\
      map index out = map Some (List.seq i (length texts - i)).
Proof.
  intros Hw. induction k as [| k IH]; intros i results log Hk;
    rewrite batches_equation_1; destruct (lt_dec i (length texts)) as [Hlt | Hge];
    simpl; try lia.
  - exists log, []. rewrite app_nil_r, skipn_all2 by lia.
    replace (length texts - i) with 0 by lia. auto.
  - destruct (Hw log (firstn MAX_BATCH_SIZE (skipn i texts))) as (data & -> & Hlen).
    set (batch := firstn MAX_BATCH_SIZE (skipn i texts)) in *.
    match goal with
    | |- context [batches W texts onProgress _ ?rs ?lg] =>
        destruct (IH (i + MAX_BATCH_SIZE) rs lg) as (log' & out & Heq & Ht & Hi)
    end.
    { unfold MAX_BATCH_SIZE. lia. }
    exists log', (pair_results data batch i ++ out).
    rewrite Heq, <- app_assoc. split; [reflexivity |].
    rewrite !map_app, Ht, Hi, pair_results_text, pair_results_index by exact Hlen.
    rewrite <- !map_app. split.
    + f_equal. apply batch_then_rest.
    + f_equal. subst batch. rewrite length_firstn, length_skipn.
      apply seq_batch_then_rest, Hlt.
  - exists log, []. rewrite app_nil_r, skipn_all2 by lia.
    replace (length texts - i) with 0 by lia. auto.
Qed.

(** Sorting by index leaves alone a list that is already in index order. *)
Lemma insert_after_all (x : EmbeddingResult) (acc : list EmbeddingResult) :
  Forall (fun y => index_before x y = false) acc ->
  JSArray.insert index_before x acc = acc ++ [x].
Proof.
  induction 1 as [| y acc Hy _ IH]; simpl; [reflexivity |].
  rewrite Hy, IH. reflexivity.
Qed.

Lemma sort_in_index_order (l : list EmbeddingResult) :
  forall (i : nat) (acc : list EmbeddingResult),
    map index l = map Some (List.seq i (length l)) ->
    Forall (fun y => exists j, index y = Some j /\ j < i) acc ->
    fold_left (fun acc x => JSArray.insert index_before x acc) l acc = acc ++ l.
Proof.
  induction l as [| x l IH]; intros i acc Hl Hacc; simpl.
  - now rewrite app_nil_r.
  - simpl in Hl. injection Hl as Hx Hl.
    rewrite insert_after_all.
    + rewrite (IH (S i)); [now rewrite <- app_assoc | exact Hl |].
      apply List.Forall_app. split.
      * eapply List.Forall_impl; [| exact Hacc].
        intros y (j & Hj & Hlt). exists j. split; [exact Hj | lia].
      * constructor; [| constructor]. exists i. split; [exact Hx | lia].
    + eapply List.Forall_impl; [| exact Hacc].
      intros y (j & Hj & Hlt). unfold index_before. rewrite Hx, Hj.
      apply Nat.ltb_ge. lia.
Qed.

(** C9.  When the key is set and the provider answers every batch with one
    embedding per text, [generateEmbeddings] returns one result per input
    text, result [i] carrying index [i] and text [texts[i]], in ascending
    order of the original index, whatever the number of batches. *)
Theorem generateEmbeddings_one_result_per_text
    (W : World) (texts : list str) (onProgress : bool) (log : list Call) :
  Playbooks.present (OPENAI_API_KEY W) = true ->
  one_per_input W ->
  exists (log' : list Call) (results : list EmbeddingResult),
    generateEmbeddings W texts onProgress log = (log', Some results) /\
    length results = length texts /\
    map text results = map Some texts /\
    map index results = map Some (List.seq 0 (length texts)).
Proof.
  intros Hkey Hw. unfold generateEmbeddings, getOpenAIClient, bind. rewrite Hkey.
  unfold ret at 1.
  destruct (batches_results W texts onProgress Hw (length texts) 0 [] log ltac:(lia))
    as (log' & out & Heq & Ht & Hi).
  rewrite Heq. simpl in *. rewrite Nat.sub_0_r in Hi.
  assert (Hlen : length out = length texts).
  { apply (f_equal (@length _)) in Ht. now rewrite !length_map in Ht. }
  assert (Hsort : JSArray.sort index_before out = out).
  { unfold JSArray.sort. rewrite (sort_in_index_order out 0 []); [reflexivity | |].
    - now rewrite Hlen.
    - constructor. }
  exists log', out. unfold ret. rewrite Hsort. auto.
Qed.

Lemma generateEmbeddings_250_texts :
  exists (log' : list Call) (results : list EmbeddingResult),
    generateEmbeddings example_world example_texts false []
      = (log', Some results) /\
    length results = length example_texts /\
    map text results = map Some example_texts /\
    map index results = map Some (List.seq 0 (length example_texts)).
Proof.
  apply (generateEmbeddings_one_result_per_text example_world
           example_texts false []).
  - reflexivity.
  - intros log batch. exists (map (fun _ => [1%float; 0%float]) batch).
    split; [reflexivity | apply length_map].
Defined.

(** ** cosineSimilarity *)

Lemma accumulate_norms (a b : list float) :
  length a = length b ->
  forall dot na nb : float,
    exists dot' : float,
      fold_left (fun acc xy =>
          let '(dot, na, nb) := acc in
          let '(x, y) := (xy : float * float) in
          (dot + x * y, na + x * x, nb + y * y)%float)
        (combine a b) (dot, na, nb)
      = (dot', sum_squares na a, sum_squares nb b).
Proof.
  revert b. induction a as [| x a IH]; intros [| y b] Hlen dot na nb;
    simpl in *; try discriminate.
  - exists dot. reflexivity.
  - apply IH. lia.
Qed.

(** C10.  On vectors of equal length [cosineSimilarity] returns a number
    (it throws only when the lengths differ); when the norm of either vector
    is zero, the number is 0: the division is not reached. *)
Theorem cosineSimilarity_zero_norm (a b : list float) :
  length a = length b ->
  (exists x : float, cosineSimilarity a b = Some x) /\
  (zero_norm a \/ zero_norm b -> cosineSimilarity a b = Some 0%float).
Proof.
  intros Hlen. unfold cosineSimilarity, accumulate.
  rewrite Hlen, Nat.eqb_refl. simpl.
  destruct (accumulate_norms a b Hlen 0 0 0) as (dot & ->).
  unfold zero_norm. split.
  - destruct (is_zero _ || is_zero _); eauto.
  - intros [Ha | Hb].
    + rewrite Ha. reflexivity.
    + rewrite Hb, orb_true_r. reflexivity.
Qed.

(** The sum of squares of a vector of zeros is zero. *)
Lemma sum_squares_zeros (n : nat) : sum_squares 0 (repeat 0%float n) = 0%float.
Proof.
  unfold sum_squares. induction n as [| n IH]; [reflexivity |].
  simpl. exact IH.
Qed.

(** A vector of zeros has zero norm, whatever its length. *)
Lemma zero_norm_zeros (n : nat) : zero_norm (repeat 0%float n).
Proof. unfold zero_norm. rewrite sum_squares_zeros. reflexivity. Qed.

(** The zero vector against a vector with a component that is not a number
    and an infinite one: the result is 0. *)
Lemma cosineSimilarity_zeros_example :
  (exists x : float,
     cosineSimilarity [0; 0; 0]%float [PrimFloat.nan; 1; PrimFloat.infinity]%float = Some x) /\
  (zero_norm [0; 0; 0]%float \/ zero_norm [PrimFloat.nan; 1; PrimFloat.infinity]%float ->
   cosineSimilarity [0; 0; 0]%float [PrimFloat.nan; 1; PrimFloat.infinity]%float
     = Some 0%float).
Proof.
  apply (cosineSimilarity_zero_norm [0; 0; 0]%float
           [PrimFloat.nan; 1; PrimFloat.infinity]%float).
  reflexivity.
Defined.

End EmbeddingsFacts.

(* ===================================================================== *)
(** * Properties of the tier-1 agent                                      *)
(* ===================================================================== *)
Module L1AgentFacts.
Import JS Eff Guardrails L1Agent Spec Examples.

(** C2, refuted.  On the message "I'm going to sue you", for a case of low
    severity, the only keyword found is "sue", which gives severity
    [Medium], not [Critical]: the turn is not cut short.  The agent asks
    the embedding model and the vector index (retrieval), then the chat
    model, and returns [shouldEscalate = true] with no escalation level. *)
Lemma processL1Request_sue_reaches_the_model :
  let r := run (processL1Request example_world
                  example_context "I'm going to sue you") in
  check_severity (escalation_check example_context "I'm going to sue you") = Medium /\
  length (List.filter is_rag_call (calls r)) = 2 /\
  length (List.filter is_llm_call (calls r)) = 1 /\
  option_map L1AgentResponse.shouldEscalate (result r) = Some true /\
  option_map L1AgentResponse.escalationLevel (result r) = Some None.
Proof. by_evaluation. Qed.

(** A critical check asks for escalation. *)
Lemma escalation_check_critical (context : L1AgentContext.t) (safeUserMessage : str) :
  check_severity (escalation_check context safeUserMessage) = Critical ->
  shouldEscalate (escalation_check context safeUserMessage) = true.
Proof.
  unfold escalation_check. intros H.
  apply GuardrailsFacts.severity_raised_escalates. rewrite H. discriminate.
Qed.

(** C2, amended.  When the escalation check that [processL1Request] runs on
    the redacted message gives severity [Critical], the call returns at
    once, with [shouldEscalate = true] and [escalationLevel = L3], and the
    log of calls is the one it started from: no retrieval call and no call
    of the chat model is made. *)
Theorem processL1Request_critical_hands_off
    (W : World)
    (context : L1AgentContext.t) (userMessage : str)
    (redactedInput : RedactionResult) (log : list Call) :
  redactSecrets userMessage = Some redactedInput ->
  check_severity (escalation_check context (text redactedInput)) = Critical ->
  exists response : L1AgentResponse.t,
    processL1Request W context userMessage log = (log, Some response) /\
    L1AgentResponse.shouldEscalate response = true /\
    L1AgentResponse.escalationLevel response = Some L3.
Proof.
  intros Hred Hsev.
  pose proof (escalation_check_critical context (text redactedInput) Hsev) as Hesc.
  unfold processL1Request. rewrite Hred, Hesc, Hsev.
  change (true && severity_eqb Critical Critical) with true. cbv iota.
  eexists. split; [reflexivity |]. split; reflexivity.
Qed.

(** A message with "lawsuit" on a case of low severity is handed off without
    a call. *)
Lemma processL1Request_lawsuit_hands_off :
  exists response : L1AgentResponse.t,
    processL1Request example_world example_context
      "I will file a lawsuit" [] = ([], Some response) /\
    L1AgentResponse.shouldEscalate response = true /\
    L1AgentResponse.escalationLevel response = Some L3.
Proof.
  apply (processL1Request_critical_hands_off example_world
           example_context "I will file a lawsuit"
           {| text := list_ascii_of_string "I will file a lawsuit";
              redactions := []; hasSecrets := false |} []).
  - vm_compute. reflexivity.
  - vm_compute. reflexivity.
Defined.

End L1AgentFacts.

(* ===================================================================== *)
(** * Properties of the chunker                                           *)
(* ===================================================================== *)
Module ChunkerFacts.
Import JS Regex Chunker JSFacts Spec Examples.

(** C6, refuted.  With the default options (500, 100, 50), two paragraphs of
    1000 characters (250 tokens each, together not more than 500) are joined
    by two line feeds into one chunk of 2002 characters, whose
    [tokenEstimate] is 501; the chunk is made of two sentences, of 250
    tokens each. *)
Lemma chunkText_exceeds_maxTokens :
  map TextChunk.tokenEstimate (chunkText two_paragraphs default_options) = [501%Z] /\
  map (fun c => map estimateTokens (splitIntoSentences (TextChunk.content c)))
      (chunkText two_paragraphs default_options) = [[250%Z; 250%Z]].
Proof. by_evaluation. Qed.

Lemma trimStart_blank_nil (s : str) : blank (trimStart s) = true -> trimStart s = [].
Proof.
  induction s as [| c t IH]; simpl; [reflexivity |].
  destruct (is_space c) eqn:E; [exact IH |].
  simpl. rewrite E. discriminate.
Qed.

Lemma blank_trimStart (s : str) : blank (trimStart s) = blank s.
Proof.
  induction s as [| c t IH]; simpl; [reflexivity |].
  destruct (is_space c) eqn:E; simpl; [exact IH | now rewrite E].
Qed.

Lemma blank_rev (s : str) : blank (rev s) = blank s.
Proof.
  unfold blank. induction s as [| c t IH]; simpl; [reflexivity |].
  rewrite forallb_app, IH. simpl. rewrite andb_true_r. apply andb_comm.
Qed.

Lemma blank_app (a b : str) : blank (a ++ b) = blank a && blank b.
Proof. unfold blank. apply forallb_app. Qed.

Lemma blank_trim (s : str) : blank (trim s) = blank s.
Proof.
  unfold trim, trimEnd.
  now rewrite blank_rev, blank_trimStart, blank_rev, blank_trimStart.
Qed.

(** [s.trim()] is truthy exactly when [s] is not blank. *)
Lemma truthy_trim (s : str) : truthy (trim s) = negb (blank s).
Proof.
  destruct (blank s) eqn:E; simpl.
  - unfold trim, trimEnd.
    rewrite (trimStart_blank_nil (rev (trimStart s))); [reflexivity |].
    now rewrite blank_trimStart, blank_rev, blank_trimStart.
  - rewrite <- blank_trim in E. destruct (trim s); [discriminate | reflexivity].
Qed.

Lemma estimateTokens_mono (a b : str) :
  (len a <= len b -> estimateTokens a <= estimateTokens b)%Z.
Proof. apply ceil_div4_mono. Qed.

Lemma estimateTokens_nonneg (a : str) : (0 <= estimateTokens a)%Z.
Proof. apply ceil_div4_nonneg, len_nonneg. Qed.

(** Joining two texts with at most two characters between them costs at
    most one token more than the two together. *)
Lemma ceil_div4_join (a b sep : Z) :
  (0 <= sep <= 2 ->
   ceil_div4 (a + sep + b) <= ceil_div4 a + ceil_div4 b + 1)%Z.
Proof.
  intros Hsep. unfold ceil_div4.
  pose proof (Z.div_mod (a + sep + b + 3) 4 ltac:(lia)).
  pose proof (Z.mod_pos_bound (a + sep + b + 3) 4 ltac:(lia)).
  pose proof (Z.div_mod (a + 3) 4 ltac:(lia)).
  pose proof (Z.mod_pos_bound (a + 3) 4 ltac:(lia)).
  pose proof (Z.div_mod (b + 3) 4 ltac:(lia)).
  pose proof (Z.mod_pos_bound (b + 3) 4 ltac:(lia)).
  lia.
Qed.

(** A text seeded with an overlap of at most [4 * overlapTokens]
    characters, a separator of at most two, and a text [b]. *)
Lemma ceil_div4_seed (o b sep overlapTokens : Z) :
  (o <= 4 * overlapTokens -> 0 <= sep <= 2 ->
   ceil_div4 (o + sep + b) <= overlapTokens + ceil_div4 b + 1)%Z.
Proof.
  intros Ho Hsep.
  transitivity (ceil_div4 (4 * overlapTokens + (sep + b)))%Z.
  - apply ceil_div4_mono. lia.
  - rewrite ceil_div4_add.
    pose proof (ceil_div4_join 0 b sep Hsep) as H.
    replace (0 + sep + b)%Z with (sep + b)%Z in H by lia.
    change (ceil_div4 0) with 0%Z in H. lia.
Qed.

Lemma len_slice_from_neg (t : str) (n : Z) :
  (0 < n -> len (slice_from t (- n)) <= n)%Z.
Proof.
  intros Hn. unfold slice_from, clamp_index.
  destruct (- n <? 0)%Z eqn:E; [| apply Z.ltb_ge in E; lia].
  unfold len. rewrite length_skipn. lia.
Qed.

Lemma getOverlapText_length (t : str) (overlapTokens : Z) :
  (0 < overlapTokens ->
   len (getOverlapText t overlapTokens) <= 4 * overlapTokens)%Z.
Proof.
  intros Ho. unfold getOverlapText.
  destruct (len t <=? overlapTokens * 4)%Z eqn:E; [apply Z.leb_le in E; lia |].
  assert (Hs : (len (slice_from t (- (overlapTokens * 4))) <= 4 * overlapTokens)%Z).
  { pose proof (len_slice_from_neg t (overlapTokens * 4) ltac:(lia)). lia. }
  destruct (Nat.ltb 1 _); [| exact Hs].
  set (cands := overlap_candidates _).
  assert (Hf : forall acc : str, (len acc <= 4 * overlapTokens)%Z ->
            (len (fold_left (fun overlap candidate =>
                     if (len candidate <=? overlapTokens * 4)%Z then candidate else overlap)
                   cands acc) <= 4 * overlapTokens)%Z).
  { induction cands as [| c cs IH]; intros acc Hacc; simpl; [exact Hacc |].
    apply IH. destruct (len c <=? overlapTokens * 4)%Z eqn:Ec; [| exact Hacc].
    apply Z.leb_le in Ec. lia. }
  destruct (truthy _); [| exact Hs].
  apply Hf. change (len []) with 0%Z. lia.
Qed.

(** ** The sentences of [splitIntoSentences] are not blank *)

Lemma sentence_step_nonblank (acc : list str * str * nat) (part : str) :
  Forall (fun s => blank s = false) (fst (fst acc)) ->
  Forall (fun s => blank s = false) (fst (fst (sentence_step acc part))).
Proof.
  destruct acc as [[sentences current] lastIndex]. unfold sentence_step.
  destruct (test_g sentenceEndings part lastIndex) as [hit lastIndex'].
  intros H. destruct hit; [| exact H].
  destruct (truthy (trim (current ++ part))) eqn:E; [| exact H].
  simpl. apply List.Forall_app. split; [exact H |].
  constructor; [| constructor].
  rewrite truthy_trim in E. rewrite blank_trim.
  destruct (blank (current ++ part)); [discriminate | reflexivity].
Qed.

Lemma splitIntoSentences_nonblank (t : str) :
  Forall (fun s => blank s = false) (splitIntoSentences t).
Proof.
  unfold splitIntoSentences.
  assert (H : forall parts acc,
            Forall (fun s => blank s = false) (fst (fst acc)) ->
            Forall (fun s => blank s = false)
              (fst (fst (fold_left sentence_step parts acc)))).
  { induction parts as [| p ps IH]; intros acc Hacc; simpl; [exact Hacc |].
    apply IH, sentence_step_nonblank, Hacc. }
  specialize (H (split sentenceEndings true t) ([], [], 0) (List.Forall_nil _)).
  destruct (fold_left sentence_step _ _) as [[sentences current] lastIndex].
  simpl in H.
  destruct (truthy (trim current)) eqn:E; [| exact H].
  apply List.Forall_app. split; [exact H |].
  constructor; [| constructor].
  rewrite truthy_trim in E. rewrite blank_trim.
  destruct (blank current); [discriminate | reflexivity].
Qed.

(** ** The invariant of [chunkSection]'s loops *)

Lemma flushed_chunk_ok (B : Z) (buffer : str) (s e : Z) :
  (estimateTokens buffer <= B)%Z ->
  chunk_ok B (mk_chunk (trim buffer) s e (estimateTokens buffer)).
Proof.
  intros H. split; simpl; [exact H |].
  pose proof (estimateTokens_mono (trim buffer) buffer (len_trim buffer)). lia.
Qed.

(** ** Occurrences and trimming *)

Lemma trimStart_app_tight (pre x : str) (c : ascii) :
  is_space c = false -> trimStart (pre ++ c :: x) = trimStart pre ++ c :: x.
Proof.
  intros Hc. induction pre as [| a pre IH]; simpl.
  - rewrite Hc. reflexivity.
  - destruct (is_space a); [exact IH | reflexivity].
Qed.

Lemma trimStart_head (s : str) :
  blank s = false -> exists c x, trimStart s = c :: x /\ is_space c = false.
Proof.
  induction s as [| a s IH]; simpl; [discriminate |].
  destruct (is_space a) eqn:E; simpl; [exact IH | eauto].
Qed.

Lemma trimStart_nonspace (s w : str) (c : ascii) :
  trimStart s = c :: w -> is_space c = false.
Proof.
  induction s as [| a s IH]; simpl; [discriminate |].
  destruct (is_space a) eqn:E; [exact IH | intros [= <- _]; exact E].
Qed.

Lemma trimEnd_app_tight (x post : str) (d : ascii) :
  is_space d = false -> trimEnd (x ++ d :: post) = x ++ d :: trimEnd post.
Proof.
  intros Hd. unfold trimEnd.
  replace (rev (x ++ d :: post)) with (rev post ++ d :: rev x).
  2:{ rewrite rev_app_distr. simpl. rewrite <- app_assoc. reflexivity. }
  rewrite (trimStart_app_tight _ _ _ Hd).
  rewrite rev_app_distr. simpl. rewrite rev_involutive, <- app_assoc. reflexivity.
Qed.

Lemma trim_tight (s : str) : blank s = false -> tight (trim s).
Proof.
  intros Hs. destruct (trimStart_head s Hs) as [c [x [Hx Hc]]].
  unfold trim. rewrite Hx.
  pose proof (trimEnd_app_tight [] x c Hc) as H. cbn [app] in H. rewrite H.
  split; [exists c, (trimEnd x); auto |].
  destruct (@exists_last _ (c :: trimEnd x)) as [y [d Hy]]; [discriminate |].
  exists y, d. split; [exact Hy |].
  apply (f_equal (@rev _)) in Hy. rewrite rev_app_distr in Hy. simpl in Hy.
  unfold trimEnd in Hy. rewrite rev_involutive in Hy.
  destruct (trimStart (rev x)) as [| a w] eqn:Hw; simpl in Hy.
  - injection Hy as <- _. exact Hc.
  - injection Hy as <- _. apply (trimStart_nonspace _ _ _ Hw).
Qed.

Lemma occurs_trim (s x : str) : tight s -> occurs s x -> occurs s (trim x).
Proof.
  intros [[c [s1 [Hs1 Hc]]] [s2 [d [Hs2 Hd]]]] [before [after ->]].
  exists (trimStart before), (trimEnd after). unfold trim.
  assert (E1 : trimStart (before ++ s ++ after) = trimStart before ++ s ++ after).
  { rewrite Hs1. cbn [app]. apply trimStart_app_tight, Hc. }
  rewrite E1.
  replace (trimStart before ++ s ++ after)
    with ((trimStart before ++ s2) ++ d :: after).
  2:{ rewrite Hs2, <- !app_assoc. reflexivity. }
  rewrite (trimEnd_app_tight _ _ _ Hd), Hs2, <- !app_assoc. reflexivity.
Qed.

Lemma occurs_app_l (s x y : str) : occurs s x -> occurs s (x ++ y).
Proof.
  intros [before [after ->]]. exists before, (after ++ y).
  rewrite <- !app_assoc. reflexivity.
Qed.

Lemma occurs_app_r (s x y : str) : occurs s y -> occurs s (x ++ y).
Proof.
  intros [before [after ->]]. exists (x ++ before), after.
  rewrite <- !app_assoc. reflexivity.
Qed.

Lemma occurs_self (s : str) : occurs s s.
Proof. exists [], []. rewrite app_nil_r. reflexivity. Qed.

Lemma holds_app_l (os : list str) (x y : str) : holds os x -> holds os (x ++ y).
Proof. intros [s [Hs Ho]]. exists s. split; [exact Hs | apply occurs_app_l, Ho]. Qed.

Lemma holds_app_r (os : list str) (x y : str) : holds os y -> holds os (x ++ y).
Proof. intros [s [Hs Ho]]. exists s. split; [exact Hs | apply occurs_app_r, Ho]. Qed.

Lemma holds_trim (os : list str) (x : str) :
  Forall tight os -> holds os x -> holds os (trim x).
Proof.
  intros Ht [s [Hs Ho]]. exists s. split; [exact Hs |].
  rewrite List.Forall_forall in Ht. apply occurs_trim; auto.
Qed.

(** ** The sentences of [splitIntoSentences] are tight *)

Lemma sentence_step_tight (acc : list str * str * nat) (part : str) :
  Forall tight (fst (fst acc)) ->
  Forall tight (fst (fst (sentence_step acc part))).
Proof.
  destruct acc as [[sentences current] lastIndex]. unfold sentence_step.
  destruct (test_g sentenceEndings part lastIndex) as [hit lastIndex'].
  intros H. destruct hit; [| exact H].
  destruct (truthy (trim (current ++ part))) eqn:E; [| exact H].
  simpl. apply List.Forall_app. split; [exact H |].
  constructor; [| constructor].
  rewrite truthy_trim in E. apply trim_tight.
  destruct (blank (current ++ part)); [discriminate | reflexivity].
Qed.

Lemma splitIntoSentences_tight (t : str) : Forall tight (splitIntoSentences t).
Proof.
  unfold splitIntoSentences.
  assert (H : forall parts acc,
            Forall tight (fst (fst acc)) ->
            Forall tight (fst (fst (fold_left sentence_step parts acc)))).
  { induction parts as [| p ps IH]; intros acc Hacc; simpl; [exact Hacc |].
    apply IH, sentence_step_tight, Hacc. }
  specialize (H (split sentenceEndings true t) ([], [], 0) (List.Forall_nil _)).
  destruct (fold_left sentence_step _ _) as [[sentences current] lastIndex].
  simpl in H.
  destruct (truthy (trim current)) eqn:E; [| exact H].
  apply List.Forall_app. split; [exact H |].
  constructor; [| constructor].
  rewrite truthy_trim in E. apply trim_tight.
  destruct (blank current); [discriminate | reflexivity].
Qed.

Lemma oversized_sentences_tight (maxTokens : Z) (section : str) :
  Forall tight (oversized_sentences maxTokens section).
Proof.
  unfold oversized_sentences. apply List.Forall_forall. intros s Hs.
  apply filter_In in Hs as [Hs _]. apply in_flat_map in Hs as [p [_ Hs]].
  pose proof (splitIntoSentences_tight p) as H.
  rewrite List.Forall_forall in H. auto.
Qed.

(** A sentence of an oversized paragraph of the section fits, or is one of
    its oversized sentences. *)
Lemma sentence_fits_or_oversized (maxTokens : Z) (section p s : str) :
  In p (splitIntoParagraphs section) ->
  (maxTokens <? estimateTokens p)%Z = true ->
  In s (splitIntoSentences p) ->
  fits maxTokens s = true \/ In s (oversized_sentences maxTokens section).
Proof.
  intros Hp Hbig Hs. destruct (fits maxTokens s) eqn:E; [left; reflexivity | right].
  unfold oversized_sentences. apply filter_In. split; [| rewrite E; reflexivity].
  apply in_flat_map. exists p. split; [| exact Hs].
  apply filter_In. split; [exact Hp |].
  unfold fits. apply Z.ltb_lt in Hbig.
  destruct (Z.leb_spec (estimateTokens p) maxTokens); [lia | reflexivity].
Qed.

(** ** The invariant of [chunkSection]'s loops *)

Section Loops.
Variables (maxTokens overlapTokens : Z) (os : list str).
Hypothesis Hmax : (0 <= maxTokens)%Z.
Hypothesis Hov : (1 <= overlapTokens)%Z.
Hypothesis Htight : Forall tight os.

Lemma flushed_chunk_fine (B : Z) (buffer : str) (s e : Z) :
  (estimateTokens buffer <= B)%Z \/ holds os buffer ->
  chunk_fine B os (mk_chunk (trim buffer) s e (estimateTokens buffer)).
Proof.
  intros [H | H].
  - left. apply flushed_chunk_ok, H.
  - right. cbn [mk_chunk SectionChunk.content]. apply holds_trim; assumption.
Qed.

Lemma pushed_fine (B : Z) (cs : list SectionChunk.t) (buffer : str) (s e : Z) :
  Forall (chunk_fine B os) cs ->
  (estimateTokens buffer <= B)%Z \/ holds os buffer ->
  Forall (chunk_fine B os) (cs ++ [mk_chunk (trim buffer) s e (estimateTokens buffer)]).
Proof.
  intros Hcs Hb. apply List.Forall_app. split; [exact Hcs |].
  constructor; [| constructor]. apply flushed_chunk_fine, Hb.
Qed.

Lemma sentence_chunk_step_fine (st : section_state) (sentence : str) :
  fits maxTokens sentence = true \/ In sentence os ->
  blank sentence = false ->
  state_fine (maxTokens + overlapTokens + 1) os st ->
  (blank (currentChunk st) = true -> currentChunk st = []) ->
  state_fine (maxTokens + overlapTokens + 1) os
    (sentence_chunk_step maxTokens overlapTokens st sentence) /\
  (blank (currentChunk (sentence_chunk_step maxTokens overlapTokens st sentence)) = true ->
   currentChunk (sentence_chunk_step maxTokens overlapTokens st sentence) = []).
Proof.
  intros Hfit Hnb [Hchunks Hcur] Hempty.
  unfold sentence_chunk_step.
  destruct ((maxTokens <? estimateTokens (currentChunk st) + estimateTokens sentence)%Z
            && truthy (trim (currentChunk st))) eqn:Hcond;
    unfold state_fine; cbn [chunks currentChunk].
  - split; [split |].
    + apply pushed_fine; assumption.
    + destruct Hfit as [Hfit | Hin].
      * left. unfold fits in Hfit. apply Z.leb_le in Hfit.
        unfold estimateTokens at 1. rewrite !len_app.
        change (len (list_ascii_of_string " ")) with 1%Z.
        pose proof (getOverlapText_length (currentChunk st) overlapTokens ltac:(lia)).
        pose proof (ceil_div4_seed (len (getOverlapText (currentChunk st) overlapTokens))
                      (len sentence) 1 overlapTokens ltac:(lia) ltac:(lia)) as Hs.
        unfold estimateTokens in Hfit.
        replace (len (getOverlapText (currentChunk st) overlapTokens) + (1 + len sentence))%Z
          with (len (getOverlapText (currentChunk st) overlapTokens) + 1 + len sentence)%Z
          by lia.
        lia.
      * right. exists sentence. split; [exact Hin |].
        apply occurs_app_r, occurs_app_r, occurs_self.
    + rewrite !blank_app, Hnb, !andb_false_r. discriminate.
  - split; [split |].
    + exact Hchunks.
    + destruct Hfit as [Hfit | Hin].
      * left. unfold fits in Hfit. apply Z.leb_le in Hfit.
        apply andb_false_iff in Hcond as [Hle | Hblank].
        -- apply Z.ltb_ge in Hle.
           unfold estimateTokens at 1. rewrite !len_app.
           assert (Hsep : (0 <= len (if truthy (currentChunk st)
                                     then list_ascii_of_string " "
                                     else list_ascii_of_string "") <= 2)%Z).
           { destruct (truthy (currentChunk st)); unfold len; simpl; lia. }
           pose proof (ceil_div4_join (len (currentChunk st)) (len sentence) _ Hsep) as Hj.
           unfold estimateTokens in Hle.
           match goal with |- (ceil_div4 ?x <= _)%Z =>
             match type of Hj with (ceil_div4 ?y <= _)%Z => replace x with y by lia end
           end.
           lia.
        -- rewrite truthy_trim in Hblank. apply negb_false_iff in Hblank.
           rewrite (Hempty Hblank). simpl. lia.
      * right. exists sentence. split; [exact Hin |].
        apply occurs_app_r, occurs_app_r, occurs_self.
    + rewrite !blank_app, Hnb, !andb_false_r. discriminate.
Qed.

Lemma sentence_loop_fine (sentences : list str) :
  Forall (fun s => fits maxTokens s = true \/ In s os) sentences ->
  Forall (fun s => blank s = false) sentences ->
  forall st : section_state,
    state_fine (maxTokens + overlapTokens + 1) os st ->
    (blank (currentChunk st) = true -> currentChunk st = []) ->
    state_fine (maxTokens + overlapTokens + 1) os
      (fold_left (sentence_chunk_step maxTokens overlapTokens) sentences st).
Proof.
  intros Hfit. induction Hfit as [| s ss Hs _ IH]; intros Hnb st Hst Hempty.
  - exact Hst.
  - inversion Hnb as [| ? ? Hs' Hss']; subst. simpl.
    destruct (sentence_chunk_step_fine st s Hs Hs' Hst Hempty) as [Hst' Hempty'].
    apply IH; assumption.
Qed.

Lemma paragraph_step_fine (st : section_state) (paragraph : str) :
  ((maxTokens <? estimateTokens paragraph)%Z = true ->
   Forall (fun s => fits maxTokens s = true \/ In s os) (splitIntoSentences paragraph)) ->
  state_fine (maxTokens + overlapTokens + 1) os st ->
  state_fine (maxTokens + overlapTokens + 1) os
    (paragraph_step maxTokens overlapTokens st paragraph).
Proof.
  intros Hsent [Hchunks Hcur]. unfold paragraph_step.
  destruct (maxTokens <? estimateTokens paragraph)%Z eqn:Hbig.
  - specialize (Hsent eq_refl).
    match goal with |- context [fold_left _ _ ?st0] =>
      assert (Hinner : state_fine (maxTokens + overlapTokens + 1) os
                (fold_left (sentence_chunk_step maxTokens overlapTokens)
                   (splitIntoSentences paragraph) st0))
    end.
    { apply sentence_loop_fine; try assumption.
      - apply splitIntoSentences_nonblank.
      - split; cbn [chunks currentChunk];
          [| left; change (estimateTokens []) with 0%Z; lia].
        destruct (truthy (trim (currentChunk st))); [| exact Hchunks].
        apply pushed_fine; assumption.
      - reflexivity. }
    destruct (truthy (trim (currentChunk (fold_left _ _ _)))); [exact Hinner |].
    destruct Hinner as [Hc _]. split; cbn [chunks currentChunk]; [exact Hc |].
    destruct (truthy (trim (currentChunk st)));
      [left; change (estimateTokens []) with 0%Z; lia | exact Hcur].
  - apply Z.ltb_ge in Hbig.
    destruct (maxTokens <? estimateTokens (currentChunk st) + estimateTokens paragraph)%Z
      eqn:Hover; split; cbn [chunks currentChunk].
    + destruct (truthy (trim (currentChunk st))); [| exact Hchunks].
      apply pushed_fine; assumption.
    + left. unfold estimateTokens at 1. rewrite !len_app.
      change (len nl) with 1%Z.
      pose proof (getOverlapText_length (currentChunk st) overlapTokens ltac:(lia)).
      pose proof (ceil_div4_seed (len (getOverlapText (currentChunk st) overlapTokens))
                    (len paragraph) 2 overlapTokens ltac:(lia) ltac:(lia)) as Hs.
      unfold estimateTokens in Hbig.
      replace (len (getOverlapText (currentChunk st) overlapTokens) + (1 + (1 + len paragraph)))%Z
        with (len (getOverlapText (currentChunk st) overlapTokens) + 2 + len paragraph)%Z
        by lia.
      lia.
    + exact Hchunks.
    + left. apply Z.ltb_ge in Hover.
      unfold estimateTokens at 1. rewrite !len_app.
      assert (Hsep : (0 <= len (if truthy (currentChunk st) then nl ++ nl else []) <= 2)%Z).
      { destruct (truthy (currentChunk st)); unfold len; simpl; lia. }
      pose proof (ceil_div4_join (len (currentChunk st)) (len paragraph) _ Hsep) as Hj.
      unfold estimateTokens in Hover.
      pose proof (estimateTokens_nonneg (currentChunk st)).
      match goal with |- (ceil_div4 ?x <= _)%Z =>
        match type of Hj with (ceil_div4 ?y <= _)%Z => replace x with y by lia end
      end.
      unfold estimateTokens in *. lia.
Qed.

Lemma paragraph_loop_fine (paragraphs : list str) :
  Forall (fun p => (maxTokens <? estimateTokens p)%Z = true ->
                   Forall (fun s => fits maxTokens s = true \/ In s os)
                          (splitIntoSentences p)) paragraphs ->
  forall st : section_state,
    state_fine (maxTokens + overlapTokens + 1) os st ->
    state_fine (maxTokens + overlapTokens + 1) os
      (fold_left (paragraph_step maxTokens overlapTokens) paragraphs st).
Proof.
  induction 1 as [| p ps Hp _ IH]; intros st Hst; [exact Hst |].
  simpl. apply IH. apply paragraph_step_fine; assumption.
Qed.

Lemma Forall_removelast {A : Type} (P : A -> Prop) (l : list A) :
  Forall P l -> Forall P (removelast l).
Proof.
  induction 1 as [| x l Hx Hl IH]; [constructor |].
  destruct l as [| y l]; [constructor |].
  change (removelast (x :: y :: l)) with (x :: removelast (y :: l)).
  constructor; assumption.
Qed.

Lemma merge_into_last_fine (B minTokens : Z) (cs : list SectionChunk.t)
    (tail : str) (e : Z) :
  Forall (chunk_fine B os) cs ->
  (estimateTokens tail < minTokens)%Z ->
  Forall (chunk_fine B os) (removelast (merge_into_last cs tail e)) /\
  Forall (fun c => chunk_fine B os c \/ chunk_merged B minTokens c)
    (merge_into_last cs tail e).
Proof.
  intros Hcs Htail. unfold merge_into_last.
  destruct (rev cs) as [| lastChunk before] eqn:E; [split; constructor |].
  assert (Hrev : Forall (chunk_fine B os) (lastChunk :: before)).
  { rewrite <- E. apply List.Forall_rev, Hcs. }
  inversion Hrev as [| ? ? Hlast Hbefore]; subst.
  rewrite removelast_last. split; [apply List.Forall_rev, Hbefore |].
  apply List.Forall_app. split.
  - apply List.Forall_rev. eapply List.Forall_impl; [| exact Hbefore]. auto.
  - constructor; [| constructor].
    destruct Hlast as [[_ Hlast] | Hlast].
    + right. exists (SectionChunk.content lastChunk), tail.
      cbn [mk_chunk SectionChunk.content SectionChunk.tokenEstimate].
      split; [reflexivity |]. split; [exact Hlast |]. split; [exact Htail |].
      unfold estimateTokens at 1. rewrite !len_app. change (len nl) with 1%Z.
      pose proof (ceil_div4_join (len (SectionChunk.content lastChunk)) (len tail) 2
                    ltac:(lia)) as Hj.
      unfold estimateTokens in Hlast, Htail.
      replace (len (SectionChunk.content lastChunk) + (1 + (1 + len tail)))%Z
        with (len (SectionChunk.content lastChunk) + 2 + len tail)%Z by lia.
      lia.
    + left. right. cbn [mk_chunk SectionChunk.content]. apply holds_app_l, Hlast.
Qed.

Lemma finish_fine (B minTokens : Z) (st : section_state) :
  state_fine B os st ->
  Forall (chunk_fine B os) (removelast (finish minTokens st)) /\
  Forall (fun c => chunk_fine B os c \/ chunk_merged B minTokens c) (finish minTokens st).
Proof.
  intros [Hchunks Hcur]. unfold finish.
  assert (Hweak : forall l, Forall (chunk_fine B os) l ->
            Forall (fun c => chunk_fine B os c \/ chunk_merged B minTokens c) l).
  { intros l Hl. eapply List.Forall_impl; [| exact Hl]. auto. }
  assert (Hown : let l := chunks st ++
                    [mk_chunk (trim (currentChunk st)) (currentStartChar st) (charOffset st)
                       (estimateTokens (currentChunk st))] in
                 Forall (chunk_fine B os) (removelast l) /\
                 Forall (fun c => chunk_fine B os c \/ chunk_merged B minTokens c) l).
  { cbn zeta. rewrite removelast_last. split; [exact Hchunks |].
    apply Hweak, pushed_fine; assumption. }
  assert (Hnone : Forall (chunk_fine B os) (removelast (chunks st)) /\
                  Forall (fun c => chunk_fine B os c \/ chunk_merged B minTokens c)
                    (chunks st)).
  { split; [apply Forall_removelast, Hchunks | apply Hweak, Hchunks]. }
  destruct (truthy (trim (currentChunk st))); cbn [andb]; [| exact Hnone].
  destruct (minTokens <=? estimateTokens (currentChunk st))%Z eqn:Hmin; [exact Hown |].
  apply Z.leb_gt in Hmin.
  destruct (Nat.ltb 0 (length (chunks st))); [| exact Hown].
  apply merge_into_last_fine; [exact Hchunks |].
  pose proof (estimateTokens_mono (trim (currentChunk st)) (currentChunk st)
                (len_trim (currentChunk st))). lia.
Qed.

End Loops.

(** The chunks of one section. *)
Lemma chunkSection_fine (section : str) (maxTokens minTokens overlapTokens : Z) :
  (0 <= maxTokens)%Z -> (1 <= overlapTokens)%Z ->
  Forall (chunk_fine (maxTokens + overlapTokens + 1) (oversized_sentences maxTokens section))
    (removelast (chunkSection section maxTokens minTokens overlapTokens)) /\
  Forall (fun c => chunk_fine (maxTokens + overlapTokens + 1)
                     (oversized_sentences maxTokens section) c \/
                   chunk_merged (maxTokens + overlapTokens + 1) minTokens c)
    (chunkSection section maxTokens minTokens overlapTokens).
Proof.
  intros Hmax Hov. unfold chunkSection.
  pose proof (oversized_sentences_tight maxTokens section) as Htight.
  apply (finish_fine _ Htight).
  apply (paragraph_loop_fine _ _ _ Hmax Hov Htight).
  - apply List.Forall_forall. intros p Hp Hbig.
    apply List.Forall_forall. intros s Hs.
    apply (sentence_fits_or_oversized maxTokens section p s); assumption.
  - split; cbn [chunks currentChunk]; [constructor |].
    left. change (estimateTokens []) with 0%Z. lia.
Qed.

Lemma removelast_map {A B : Type} (f : A -> B) (l : list A) :
  removelast (map f l) = map f (removelast l).
Proof.
  induction l as [| x l IH]; [reflexivity |].
  destruct l as [| y l]; [reflexivity |].
  change (removelast (map f (x :: y :: l))) with (f x :: removelast (map f (y :: l))).
  rewrite IH. reflexivity.
Qed.

Lemma section_measures_within (section : str) (maxTokens minTokens overlapTokens : Z) :
  (0 <= maxTokens)%Z -> (1 <= overlapTokens)%Z ->
  Forall (within (maxTokens + overlapTokens + 1) (oversized_sentences maxTokens section))
    (removelast (section_measures maxTokens minTokens overlapTokens section)) /\
  Forall (fun m => within (maxTokens + overlapTokens + 1)
                     (oversized_sentences maxTokens section) m \/
                   merged (maxTokens + overlapTokens + 1) minTokens m)
    (section_measures maxTokens minTokens overlapTokens section).
Proof.
  intros Hmax Hov.
  destruct (chunkSection_fine section maxTokens minTokens overlapTokens Hmax Hov)
    as [H1 H2].
  assert (Hw : forall c, chunk_fine (maxTokens + overlapTokens + 1)
                           (oversized_sentences maxTokens section) c ->
                         within (maxTokens + overlapTokens + 1)
                           (oversized_sentences maxTokens section)
                           (SectionChunk.content c, SectionChunk.tokenEstimate c)).
  { intros c [[Hc _] | Hc]; [left | right]; assumption. }
  unfold section_measures. rewrite removelast_map. split.
  - apply List.Forall_map. eapply List.Forall_impl; [| exact H1]. exact Hw.
  - apply List.Forall_map. eapply List.Forall_impl; [| exact H2].
    intros c [Hc | Hc]; [left; apply Hw, Hc | right; exact Hc].
Qed.

(** ** The chunks of a text are those of its sections *)

Lemma number_from_measured (i : nat) (cs : list SectionChunk.t) :
  map measured (number_from i cs) =
  map (fun c => (SectionChunk.content c, SectionChunk.tokenEstimate c)) cs.
Proof.
  revert i. induction cs as [| c cs IH]; intros i; simpl; [reflexivity |].
  f_equal. apply IH.
Qed.

Lemma section_step_measured (maxTokens minTokens overlapTokens : Z)
    (acc : list TextChunk.t * Z) (section : str) :
  map measured (fst (section_step maxTokens minTokens overlapTokens acc section)) =
  map measured (fst acc) ++ section_measures maxTokens minTokens overlapTokens section.
Proof.
  destruct acc as [cs charOffset]. unfold section_step, section_measures. cbn [fst].
  generalize (chunkSection section maxTokens minTokens overlapTokens). intros new.
  revert cs. induction new as [| chunk new IH]; intros cs; simpl.
  - rewrite app_nil_r. reflexivity.
  - rewrite IH, map_app, <- app_assoc. reflexivity.
Qed.

Lemma sections_measured (maxTokens minTokens overlapTokens : Z) (ss : list str)
    (acc : list TextChunk.t * Z) :
  map measured (fst (fold_left (section_step maxTokens minTokens overlapTokens) ss acc)) =
  map measured (fst acc) ++
  concat (map (section_measures maxTokens minTokens overlapTokens) ss).
Proof.
  revert acc. induction ss as [| s ss IH]; intros acc; simpl.
  - rewrite app_nil_r. reflexivity.
  - rewrite IH, section_step_measured, <- app_assoc. reflexivity.
Qed.

(** C6, amended.  For [maxTokens >= 0] and [overlapTokens >= 1], the
    chunks of [chunkText] are, by content and estimate, those of the
    sections of the text in order; and in each section every chunk but the
    last has a [tokenEstimate] of at most [maxTokens + overlapTokens + 1],
    unless its content holds a sentence of the section that alone exceeds
    [maxTokens].  The same goes for the last chunk of the section, unless a
    tail of fewer than [minTokens] tokens was merged into it: its content is
    then a text within that bound, two line feeds and the tail, and its
    estimate is at most [minTokens] above the bound.  The overlap a chunk is
    seeded with and the separator between the texts joined in it come on top
    of [maxTokens]. *)
Theorem chunkText_tokenEstimate_bound (t : str) (options : ChunkOptions.t) :
  let maxTokens := Playbooks.nullish_or (ChunkOptions.maxTokens options) 500%Z in
  let minTokens := Playbooks.nullish_or (ChunkOptions.minTokens options) 100%Z in
  let overlapTokens := Playbooks.nullish_or (ChunkOptions.overlapTokens options) 50%Z in
  (0 <= maxTokens)%Z -> (1 <= overlapTokens)%Z ->
  map measured (chunkText t options) =
    concat (map (section_measures maxTokens minTokens overlapTokens) (sections t)) /\
  Forall (fun section =>
            let group := section_measures maxTokens minTokens overlapTokens section in
            let oversized := oversized_sentences maxTokens section in
            Forall (within (maxTokens + overlapTokens + 1) oversized) (removelast group) /\
            Forall (fun m => within (maxTokens + overlapTokens + 1) oversized m \/
                             merged (maxTokens + overlapTokens + 1) minTokens m) group)
         (sections t).
Proof.
  intros maxTokens minTokens overlapTokens Hmax Hov. split.
  - unfold chunkText, sections. fold maxTokens minTokens overlapTokens.
    destruct (truthy (cleanText t)) eqn:Hclean; cbn [negb].
    + destruct (test headerPattern (cleanText t)).
      * apply (sections_measured maxTokens minTokens overlapTokens _ ([], 0%Z)).
      * rewrite number_from_measured. cbn [map concat]. rewrite app_nil_r. reflexivity.
    + destruct (cleanText t); [| discriminate]. reflexivity.
  - apply List.Forall_forall. intros section _. cbn zeta.
    apply section_measures_within; assumption.
Qed.

(** The text with a sentence of 61 characters, chunked with 10, 3 and 2
    tokens.  The sentence alone has 16 tokens.  The chunk that holds it, of
    18 tokens, does not consist of it alone: it begins with the overlap, the
    end of the sentence before.  The last chunk is the overlap, the sentence
    after, and the short paragraph merged into it. *)
Lemma chunkText_long_sentence_chunks :
  oversized_sentences 10 (cleanText long_sentence_text) =
    [repeat "a"%char 60 ++ "."] /\
  map estimateTokens (oversized_sentences 10 (cleanText long_sentence_text)) = [16%Z] /\
  map measured (chunkText long_sentence_text small_options) =
    [ (list_ascii_of_string "Restart it.", 3%Z);
      ("tart it. " ++ repeat "a"%char 60 ++ ".", 18%Z);
      ("aaaaaaa. Then sign in." ++ nl ++ nl ++ "Call us.", 8%Z) ].
Proof. by_evaluation. Qed.

(** The same text: the chunk that holds the long sentence is excepted, the
    other two are within 10 + 2 + 1. *)
Lemma chunkText_tokenEstimate_bound_long_sentence :
  map measured (chunkText long_sentence_text small_options) =
    concat (map (section_measures 10 3 2) (sections long_sentence_text)) /\
  Forall (fun section =>
            let group := section_measures 10 3 2 section in
            let oversized := oversized_sentences 10 section in
            Forall (within (10 + 2 + 1) oversized) (removelast group) /\
            Forall (fun m => within (10 + 2 + 1) oversized m \/
                             merged (10 + 2 + 1) 3 m) group)
         (sections long_sentence_text).
Proof.
  apply (chunkText_tokenEstimate_bound long_sentence_text small_options).
  - vm_compute. discriminate.
  - vm_compute. discriminate.
Defined.

End ChunkerFacts.

(* ===================================================================== *)
(** * Equality of strings                                                 *)
(* ===================================================================== *)
Module StringFacts.
Import JS Playbooks.

Lemma char_eqb_eq (a b : ascii) : char_eqb a b = true <-> a = b.
Proof.
  unfold char_eqb, code. rewrite N.eqb_eq. split; [| intros ->; reflexivity].
  intros H. rewrite <- (ascii_N_embedding a), <- (ascii_N_embedding b), H. reflexivity.
Qed.

Lemma str_eqb_eq (a b : str) : Guardrails.str_eqb a b = true <-> a = b.
Proof.
  unfold Guardrails.str_eqb. rewrite andb_true_iff, Nat.eqb_eq.
  revert b. induction a as [| x a IH]; intros [| y b]; simpl; try (intuition congruence).
  rewrite andb_true_iff, char_eqb_eq. specialize (IH b).
  split.
  - intros [Hl [Hxy Hs]]. f_equal; [congruence | apply IH; split; [lia | exact Hs]].
  - intros H. injection H as -> ->. destruct IH as [_ IH]. specialize (IH eq_refl).
    intuition.
Qed.

Lemma array_includes_In (l : list str) (x : str) :
  array_includes l x = true <-> In x l.
Proof.
  unfold array_includes. rewrite existsb_exists. split.
  - intros [y [Hy Heq]]. apply str_eqb_eq in Heq. subst. exact Hy.
  - intros H. exists x. split; [exact H | apply str_eqb_eq; reflexivity].
Qed.

End StringFacts.

(* ===================================================================== *)
(** * Properties of playbook validation                                   *)
(* ===================================================================== *)
Module ValidationFacts.
Import JS Playbooks PlaybookSpec StringFacts.

Lemma set_add_In (s : list str) (x y : str) :
  In y (set_add s x) <-> In y s \/ y = x.
Proof.
  unfold set_add. destruct (array_includes s x) eqn:E.
  - apply array_includes_In in E. split; [auto | intros [H | ->]; auto].
  - rewrite in_app_iff. simpl. intuition.
Qed.

Lemma validate_step_stepIds (acc : step_scan) (i : nat) (s : PlaybookStep.t) (x : str) :
  In x (stepIds (validate_step acc (i, s))) <->
  In x (stepIds acc) \/ (truthy x = true /\ x = PlaybookStep.id s).
Proof.
  unfold validate_step.
  destruct (truthy (PlaybookStep.id s)) eqn:Ht; simpl.
  - destruct (array_includes (stepIds acc) (PlaybookStep.id s)) eqn:Ei; simpl.
    + apply array_includes_In in Ei. split; [auto | intros [H | [_ ->]]; auto].
    + rewrite in_app_iff. simpl. split.
      * intros [H | [<- | []]]; auto.
      * intros [H | [_ ->]]; auto.
  - split; [auto | intros [H | [Hx ->]]; [auto | congruence]].
Qed.

Lemma validate_step_referencedIds (acc : step_scan) (i : nat) (s : PlaybookStep.t) (x : str) :
  In x (referencedIds (validate_step acc (i, s))) <->
  In x (referencedIds acc) \/ references s x.
Proof.
  unfold validate_step, references.
  destruct (truthy (PlaybookStep.id s)), (array_includes (stepIds acc) (PlaybookStep.id s));
    simpl;
    destruct (present (PlaybookStep.nextOnSuccess s)),
             (present (PlaybookStep.nextOnFailure s));
    rewrite ?set_add_In; intuition congruence.
Qed.

Lemma validate_step_errors (acc : step_scan) (i : nat) (s : PlaybookStep.t) :
  scan_errors (validate_step acc (i, s)) = [] <->
  scan_errors acc = [] /\ step_fields_ok s = true /\ ~ In (PlaybookStep.id s) (stepIds acc).
Proof.
  unfold validate_step, step_fields_ok.
  rewrite <- array_includes_In.
  destruct (truthy (PlaybookStep.id s)),
           (array_includes (stepIds acc) (PlaybookStep.id s)),
           (truthy (PlaybookStep.title s)),
           (truthy (PlaybookStep.instruction s)); simpl;
    destruct (scan_errors acc); simpl; intuition congruence.
Qed.

Lemma validate_steps_scan (l : list PlaybookStep.t) (i : nat) (acc : step_scan) :
  let r := fold_left validate_step (combine (List.seq i (length l)) l) acc in
  (forall x, In x (stepIds r) <->
             In x (stepIds acc) \/ (truthy x = true /\ In x (map PlaybookStep.id l))) /\
  (forall x, In x (referencedIds r) <->
             In x (referencedIds acc) \/ exists s, In s l /\ references s x) /\
  (scan_errors r = [] <->
   scan_errors acc = [] /\
   Forall (fun s => step_fields_ok s = true) l /\
   List.NoDup (map PlaybookStep.id l) /\
   forall s, In s l -> ~ In (PlaybookStep.id s) (stepIds acc)).
Proof.
  revert i acc. induction l as [| s l IH]; intros i acc; cbn zeta.
  - simpl. split; [| split].
    + intros x. split; [auto | intros [H | [_ []]]; exact H].
    + intros x. split; [auto | intros [H | [s [[] _]]]; exact H].
    + split.
      * intros H. split; [exact H |]. split; [constructor |]. split; [constructor | tauto].
      * intros [H _]. exact H.
  - cbn [length List.seq combine fold_left].
    specialize (IH (S i) (validate_step acc (i, s))). cbn zeta in IH.
    destruct IH as [Hids [Hrefs Herr]].
    split; [| split].
    + intros x. rewrite Hids, validate_step_stepIds. simpl. intuition (subst; auto).
    + intros x. rewrite Hrefs, validate_step_referencedIds. split.
      * intros [[H | H] | [s' [Hs' H]]]; [auto | right; exists s; simpl; auto |].
        right. exists s'. simpl. auto.
      * intros [H | [s' [[Heq | Hs'] H]]]; [auto | subst s'; auto |].
        right. exists s'. auto.
    + rewrite Herr, validate_step_errors. cbn [map].
      rewrite List.Forall_cons_iff, NoDup_cons_iff. split.
      * intros [[Hacc [Hok Hnew]] [Hall [Hnd Hfresh]]].
        assert (Ht : truthy (PlaybookStep.id s) = true).
        { unfold step_fields_ok in Hok. apply andb_true_iff in Hok as [Hok _].
          apply andb_true_iff in Hok as [Hok _]. exact Hok. }
        split; [exact Hacc |]. split; [split; [exact Hok | exact Hall] |].
        split; [split; [| exact Hnd] |].
        -- intros Hin. apply in_map_iff in Hin as [s' [Heq Hs']].
           apply (Hfresh s' Hs'). apply validate_step_stepIds. right.
           split; congruence.
        -- intros s' [Heq | Hs']; [subst s'; exact Hnew |].
           intros Hin. apply (Hfresh s' Hs'). apply validate_step_stepIds. auto.
      * intros [Hacc [[Hok Hall] [[Hnotin Hnd] Hfresh]]].
        split; [split; [exact Hacc | split; [exact Hok | apply Hfresh; left; reflexivity]] |].
        split; [exact Hall |]. split; [exact Hnd |].
        intros s' Hs' Hin. apply validate_step_stepIds in Hin as [Hin | [_ Heq]].
        -- apply (Hfresh s'); [right; exact Hs' | exact Hin].
        -- apply Hnotin. rewrite <- Heq. apply in_map. exact Hs'.
Qed.

Lemma missing_references_nil (scan : step_scan) :
  missing_references scan = [] <->
  forall x, In x (referencedIds scan) -> In x (stepIds scan).
Proof.
  unfold missing_references. induction (referencedIds scan) as [| r rs IH]; simpl.
  - tauto.
  - destruct (array_includes (stepIds scan) r) eqn:E; simpl.
    + apply array_includes_In in E. rewrite IH. split.
      * intros H x [<- | Hx]; auto.
      * auto.
    + split; [discriminate |]. intros H.
      assert (Hr : In r (stepIds scan)) by auto.
      apply array_includes_In in Hr. congruence.
Qed.

Lemma step_fields_ok_id (s : PlaybookStep.t) :
  step_fields_ok s = true -> truthy (PlaybookStep.id s) = true.
Proof.
  unfold step_fields_ok. intros H. apply andb_true_iff in H as [H _].
  apply andb_true_iff in H as [H _]. exact H.
Qed.

Lemma validate_steps_nil (steps : option (list PlaybookStep.t)) :
  validate_steps steps = [] <->
  exists l, steps = Some l /\ l <> [] /\
            Forall (fun s => step_fields_ok s = true) l /\
            List.NoDup (map PlaybookStep.id l) /\
            Forall (fun s => declared l (PlaybookStep.nextOnSuccess s) /\
                             declared l (PlaybookStep.nextOnFailure s)) l.
Proof.
  destruct steps as [[| s0 l0] |]; cbn [validate_steps].
  - split; [discriminate | intros [l [H [Hne _]]]; congruence].
  - set (l := s0 :: l0).
    pose proof (validate_steps_scan l 0
                  {| scan_errors := []; stepIds := []; referencedIds := [] |}) as H.
    cbn zeta in H. destruct H as [Hids [Hrefs Herr]].
    set (scan := fold_left validate_step (combine (List.seq 0 (length l)) l) _) in *.
    split.
    + intros H. apply app_eq_nil in H as [He Hm].
      apply Herr in He as [_ [Hok [Hnd _]]].
      rewrite missing_references_nil in Hm.
      exists l. split; [reflexivity |]. split; [discriminate |].
      split; [exact Hok |]. split; [exact Hnd |].
      apply List.Forall_forall. intros s Hs.
      assert (Hd : forall x, references s x -> In x (map PlaybookStep.id l)).
      { intros x Hx. assert (Hin : In x (stepIds scan)).
        { apply Hm, Hrefs. right. exists s. auto. }
        apply Hids in Hin as [[] | [_ Hin]]. exact Hin. }
      split; intros Hp; apply Hd; unfold references; [left | right]; auto.
    + intros [l' [Heq [_ [Hok [Hnd Hdecl]]]]]. injection Heq as <-.
      assert (He : scan_errors scan = []).
      { apply Herr. split; [reflexivity |]. split; [exact Hok |].
        split; [exact Hnd |]. intros s _ []. }
      rewrite He. simpl. apply missing_references_nil.
      intros x Hx. apply Hrefs in Hx as [[] | [s [Hs Hx]]].
      rewrite List.Forall_forall in Hdecl, Hok.
      assert (Hin : In x (map PlaybookStep.id l)).
      { destruct (Hdecl s Hs) as [D1 D2].
        destruct Hx as [[Hp <-] | [Hp <-]]; auto. }
      apply Hids. right. split; [| exact Hin].
      apply in_map_iff in Hin as [s' [<- Hs']]. apply step_fields_ok_id, Hok, Hs'.
  - split; [discriminate | intros [l [H _]]; discriminate].
Qed.

Lemma validate_metadata_nil (metadata : option PlaybookMetadata.t) :
  fst (validate_metadata metadata) = [] <->
  exists m, metadata = Some m /\
            truthy (PlaybookMetadata.id m) = true /\
            truthy (PlaybookMetadata.name m) = true.
Proof.
  destruct metadata as [m |]; simpl.
  - destruct (truthy (PlaybookMetadata.id m)) eqn:E1,
             (truthy (PlaybookMetadata.name m)) eqn:E2; simpl;
      (split; [intros H; try discriminate; exists m; auto
              | intros [m' [Heq [H1 H2]]]; injection Heq as <-; congruence]).
  - split; [discriminate | intros [m [H _]]; discriminate].
Qed.

Lemma validatePlaybook_accepts (p : PlaybookJson.t) :
  PlaybookValidationResult.valid (validatePlaybook p) = true <-> well_formed p.
Proof.
  unfold validatePlaybook, well_formed.
  rewrite <- validate_metadata_nil, <- validate_steps_nil.
  destruct (validate_metadata (PlaybookJson.metadata p)) as [me mw]. simpl.
  rewrite Nat.eqb_eq, length_zero_iff_nil. split.
  - intros H. apply app_eq_nil in H. exact H.
  - intros [-> ->]. reflexivity.
Qed.

(** [validatePlaybook] accepts exactly the well-formed playbooks: those with
    a metadata block that has an id and a name, and with at least one step,
    every step with an id, a title and an instruction, no two steps with the
    same id, and every [nextOnSuccess] and [nextOnFailure] naming a step.
    [loadPlaybook] returns its argument for these, and throws for all
    others. *)
Theorem validatePlaybook_valid_iff (p : PlaybookJson.t) :
  (PlaybookValidationResult.valid (validatePlaybook p) = true <-> well_formed p) /\
  (loadPlaybook p = Some p <-> well_formed p) /\
  (loadPlaybook p = None <-> ~ well_formed p).
Proof.
  pose proof (validatePlaybook_accepts p) as H. unfold loadPlaybook.
  destruct (PlaybookValidationResult.valid (validatePlaybook p)).
  - split; [exact H |]. split; [tauto |]. split; [discriminate |].
    intros Hn. exfalso. apply Hn, H. reflexivity.
  - split; [exact H |]. split.
    + split; [discriminate |]. intros Hw. apply H in Hw. discriminate.
    + split; [| reflexivity]. intros _ Hw. apply H in Hw. discriminate.
Qed.

End ValidationFacts.

(* ===================================================================== *)
(** * Properties of playbook executions                                   *)
(* ===================================================================== *)
Module ExecutionFacts.
Import JS Playbooks PlaybookSpec StringFacts ValidationFacts.

Lemma find_step (l : list PlaybookStep.t) (x : str) :
  In x (map PlaybookStep.id l) ->
  exists s, find (fun s => Guardrails.str_eqb (PlaybookStep.id s) x) l = Some s /\
            In s l /\ PlaybookStep.id s = x.
Proof.
  induction l as [| s l IH]; simpl; [intros [] |].
  intros H. destruct (Guardrails.str_eqb (PlaybookStep.id s) x) eqn:E.
  - exists s. apply str_eqb_eq in E. auto.
  - destruct H as [H | H]; [apply str_eqb_eq in H; congruence |].
    destruct (IH H) as [s' [Hf [Hin Hid]]]. exists s'. auto.
Qed.

Lemma getCurrentStep_In (playbook : Playbook.t) (state : PlaybookExecutionState.t)
    (step : PlaybookStep.t) :
  getCurrentStep playbook state = Some step ->
  In step (Playbook.steps playbook) /\
  PlaybookStep.id step = PlaybookExecutionState.currentStepId state.
Proof.
  unfold getCurrentStep. intros H. apply find_some in H as [Hin Heq].
  apply str_eqb_eq in Heq. auto.
Qed.

(** Where [executeStep] leaves [currentStepId]: where it was, or at a next
    step of the current step. *)
Lemma executeStep_currentStepId (now : Z) (playbook : Playbook.t)
    (state : PlaybookExecutionState.t) (stepOutcome : StepOutcome) :
  let state' := fst (executeStep now playbook state stepOutcome) in
  PlaybookExecutionState.currentStepId state' = PlaybookExecutionState.currentStepId state \/
  exists step, getCurrentStep playbook state = Some step /\
               references step (PlaybookExecutionState.currentStepId state').
Proof.
  unfold executeStep.
  destruct (getCurrentStep playbook state) as [step |] eqn:Hstep; [| left; reflexivity].
  destruct (exceeds (next_attempt state step) (max_attempts step) && is_failure stepOutcome);
    [left; reflexivity |].
  destruct stepOutcome.
  - destruct (present (PlaybookStep.nextOnSuccess step)) eqn:Hp; [| left; reflexivity].
    right. exists step. split; [reflexivity |]. left. auto.
  - destruct (present (PlaybookStep.nextOnFailure step)) eqn:Hp; [| left; reflexivity].
    right. exists step. split; [reflexivity |]. right. auto.
Qed.

Lemma run_steps_declared (playbook : Playbook.t) (events : list (Z * StepOutcome))
    (state : PlaybookExecutionState.t) :
  Forall (fun s => declared (Playbook.steps playbook) (PlaybookStep.nextOnSuccess s) /\
                   declared (Playbook.steps playbook) (PlaybookStep.nextOnFailure s))
         (Playbook.steps playbook) ->
  In (PlaybookExecutionState.currentStepId state)
     (map PlaybookStep.id (Playbook.steps playbook)) ->
  In (PlaybookExecutionState.currentStepId (fst (run_steps playbook state events)))
     (map PlaybookStep.id (Playbook.steps playbook)) /\
  Forall (fun r => In (PlaybookExecutionResult.stepId r)
                      (map PlaybookStep.id (Playbook.steps playbook)))
         (snd (run_steps playbook state events)).
Proof.
  intros Hdecl. revert state.
  induction events as [| [now o] events IH]; intros state Hin; simpl.
  - split; [exact Hin | constructor].
  - pose proof (executeStep_currentStepId now playbook state o) as Hnext.
    cbn zeta in Hnext.
    assert (Hid : In (PlaybookExecutionResult.stepId (snd (executeStep now playbook state o)))
                     (map PlaybookStep.id (Playbook.steps playbook))).
    { unfold executeStep.
      destruct (find_step _ _ Hin) as [step [Hf [_ Hsid]]].
      unfold getCurrentStep. rewrite Hf.
      destruct (exceeds (next_attempt state step) (max_attempts step) && is_failure o);
        [simpl; rewrite Hsid; exact Hin |].
      destruct o; simpl; rewrite Hsid; exact Hin. }
    destruct (executeStep now playbook state o) as [state1 r]. simpl in Hnext, Hid.
    assert (Hin1 : In (PlaybookExecutionState.currentStepId state1)
                      (map PlaybookStep.id (Playbook.steps playbook))).
    { destruct Hnext as [-> | [step [Hstep Href]]]; [exact Hin |].
      apply getCurrentStep_In in Hstep as [Hs _].
      rewrite List.Forall_forall in Hdecl. destruct (Hdecl step Hs) as [D1 D2].
      destruct Href as [[Hp <-] | [Hp <-]]; auto. }
    specialize (IH state1 Hin1).
    destruct (run_steps playbook state1 events) as [state2 rs]. simpl in *.
    destruct IH as [IH1 IH2]. split; [exact IH1 | constructor; assumption].
Qed.

Lemma validatePlaybook_valid_steps (p : PlaybookJson.t) :
  PlaybookValidationResult.valid (validatePlaybook p) = true ->
  validate_steps (PlaybookJson.steps p) = [].
Proof.
  unfold validatePlaybook. destruct (validate_metadata _) as [me mw].
  cbn [PlaybookValidationResult.valid]. rewrite Nat.eqb_eq, length_zero_iff_nil.
  intros H. apply app_eq_nil in H as [_ H]. exact H.
Qed.

(** An execution of a playbook that [validatePlaybook] accepts, started by
    [createExecutionState], never loses its step: after any sequence of
    reported outcomes the current step is a step of the playbook, and every
    result is about one of its steps. *)
Theorem validated_playbook_keeps_its_step (playbook : Playbook.t) (start : Z)
    (events : list (Z * StepOutcome)) :
  PlaybookValidationResult.valid (validatePlaybook (as_json playbook)) = true ->
  let run := run_steps playbook (createExecutionState start playbook) events in
  (exists step, getCurrentStep playbook (fst run) = Some step /\
                In step (Playbook.steps playbook)) /\
  Forall (fun r => In (PlaybookExecutionResult.stepId r)
                      (map PlaybookStep.id (Playbook.steps playbook))) (snd run).
Proof.
  intros Hvalid. apply validatePlaybook_valid_steps in Hvalid.
  apply validate_steps_nil in Hvalid as [l [Hl [Hne [_ [_ Hdecl]]]]].
  cbn [as_json PlaybookJson.steps] in Hl. injection Hl as <-.
  assert (Hstart : In (PlaybookExecutionState.currentStepId
                         (createExecutionState start playbook))
                      (map PlaybookStep.id (Playbook.steps playbook))).
  { unfold createExecutionState. simpl.
    destruct (Playbook.steps playbook) as [| s l]; [congruence | left; reflexivity]. }
  destruct (run_steps_declared playbook events _ Hdecl Hstart) as [Hin Hrs].
  cbn zeta. split; [| exact Hrs].
  destruct (find_step _ _ Hin) as [step [Hf [Hs _]]].
  exists step. split; [exact Hf | exact Hs].
Qed.

(** A playbook that [validatePlaybook] accepts, run from its first step. *)
Lemma validated_restart_playbook_keeps_its_step :
  let run := run_steps Examples.restart_playbook
               (createExecutionState 0 Examples.restart_playbook)
               [(1%Z, failure); (2%Z, success)] in
  (exists step, getCurrentStep Examples.restart_playbook (fst run) = Some step /\
                In step (Playbook.steps Examples.restart_playbook)) /\
  Forall (fun r => In (PlaybookExecutionResult.stepId r)
                      (map PlaybookStep.id (Playbook.steps Examples.restart_playbook)))
         (snd run).
Proof.
  apply (validated_playbook_keeps_its_step Examples.restart_playbook 0
           [(1%Z, failure); (2%Z, success)]).
  vm_compute. reflexivity.
Defined.

Lemma getCurrentStep_same (playbook : Playbook.t) (s s' : PlaybookExecutionState.t) :
  PlaybookExecutionState.currentStepId s' = PlaybookExecutionState.currentStepId s ->
  getCurrentStep playbook s' = getCurrentStep playbook s.
Proof. unfold getCurrentStep. intros ->. reflexivity. Qed.

Lemma inherited_proto (stepId : str) :
  inherited stepId = false -> Guardrails.str_eqb stepId "__proto__" = false.
Proof.
  unfold inherited, OBJECT_PROTOTYPE. cbn [map existsb].
  rewrite !orb_false_iff. intros H. decompose [and] H. assumption.
Qed.

(** The counter after the attempt was recorded, for a count that is a
    number. *)
Lemma write_attempts_count (state : PlaybookExecutionState.t) (step : PlaybookStep.t)
    (n : Z) :
  next_attempt state step = Count n ->
  write_attempts (PlaybookStep.id step) (Count n)
    (PlaybookExecutionState.stepAttempts state) !! PlaybookStep.id step = Some (Count n).
Proof.
  unfold next_attempt, write_attempts.
  destruct (PlaybookExecutionState.stepAttempts state !! PlaybookStep.id step)
    as [[k | name ones] |] eqn:E; intros H.
  - apply lookup_insert_eq.
  - discriminate.
  - destruct (inherited (PlaybookStep.id step)) eqn:Hi; [discriminate |].
    rewrite (inherited_proto _ Hi). apply lookup_insert_eq.
Qed.

(** The state in which a failure on a step without [nextOnFailure] leaves
    the counters and the current step. *)
Lemma executeStep_failure_stays (now : Z) (playbook : Playbook.t)
    (state : PlaybookExecutionState.t) (step : PlaybookStep.t) :
  getCurrentStep playbook state = Some step ->
  present (PlaybookStep.nextOnFailure step) = false ->
  let state' := fst (executeStep now playbook state failure) in
  getCurrentStep playbook state' = Some step /\
  PlaybookExecutionState.stepAttempts state' =
    write_attempts (PlaybookStep.id step) (next_attempt state step)
      (PlaybookExecutionState.stepAttempts state).
Proof.
  intros Hstep Hnext. cbn zeta. split.
  - rewrite <- Hstep. apply getCurrentStep_same.
    unfold executeStep. rewrite Hstep, Hnext.
    destruct (exceeds (next_attempt state step) (max_attempts step) && is_failure failure);
      reflexivity.
  - unfold executeStep. rewrite Hstep, Hnext.
    destruct (exceeds (next_attempt state step) (max_attempts step) && is_failure failure);
      reflexivity.
Qed.

(** Failures in a row on a step without [nextOnFailure], from a state in
    which the next attempt at the step is the one of number [j + 1]. *)
Lemma repeated_failures (playbook : Playbook.t) (step : PlaybookStep.t) (nows : list Z)
    (j : nat) (state : PlaybookExecutionState.t) :
  getCurrentStep playbook state = Some step ->
  present (PlaybookStep.nextOnFailure step) = false ->
  next_attempt state step = Count (Z.of_nat (S j)) ->
  map PlaybookExecutionResult.shouldEscalate
    (snd (run_steps playbook state (map (fun now => (now, failure)) nows))) =
  map (fun k => (max_attempts step <? Z.of_nat k)%Z &&
                nullish_or (PlaybookStep.escalateOnFailure step) true)
      (List.seq (S j) (length nows)).
Proof.
  intros Hstep Hnext. revert j state Hstep.
  induction nows as [| now nows IH]; intros j state Hstep Hn; [reflexivity |].
  cbn [map run_steps length List.seq].
  assert (H1 : PlaybookExecutionResult.shouldEscalate
                 (snd (executeStep now playbook state failure)) =
               (max_attempts step <? Z.of_nat (S j))%Z &&
               nullish_or (PlaybookStep.escalateOnFailure step) true).
  { unfold executeStep. rewrite Hstep, Hn. cbn [exceeds is_failure].
    rewrite andb_true_r.
    destruct (max_attempts step <? Z.of_nat (S j))%Z; reflexivity. }
  destruct (executeStep_failure_stays now playbook state step Hstep Hnext) as [H2 H3].
  assert (H4 : next_attempt (fst (executeStep now playbook state failure)) step =
               Count (Z.of_nat (S (S j)))).
  { unfold next_attempt at 1. rewrite H3, Hn, (write_attempts_count state step _ Hn).
    unfold num_or. destruct (Z.eqb_spec (Z.of_nat (S j)) 0); [lia |].
    f_equal. lia. }
  destruct (executeStep now playbook state failure) as [state1 r].
  cbn [fst snd] in H1, H2, H4.
  specialize (IH (S j) state1 H2 H4).
  destruct (run_steps playbook state1 (map (fun now0 => (now0, failure)) nows))
    as [state2 rs]. cbn [snd map] in *. rewrite H1, IH. reflexivity.
Qed.

(** The retry budget of a step without [nextOnFailure] whose id is not the
    name of a property of [Object.prototype], from a state that has not
    counted an attempt at it: of the failures reported in a row, the k-th
    asks for escalation exactly when k exceeds [step.maxAttempts || 3],
    unless the step has [escalateOnFailure = false]. *)
Theorem executeStep_retry_budget (playbook : Playbook.t) (state : PlaybookExecutionState.t)
    (step : PlaybookStep.t) (nows : list Z) :
  getCurrentStep playbook state = Some step ->
  present (PlaybookStep.nextOnFailure step) = false ->
  PlaybookExecutionState.stepAttempts state !! PlaybookStep.id step = None ->
  inherited (PlaybookStep.id step) = false ->
  map PlaybookExecutionResult.shouldEscalate
    (snd (run_steps playbook state (map (fun now => (now, failure)) nows))) =
  map (fun k => (max_attempts step <? Z.of_nat k)%Z &&
                nullish_or (PlaybookStep.escalateOnFailure step) true)
      (List.seq 1 (length nows)).
Proof.
  intros Hstep Hnext Hfresh Hown.
  apply (repeated_failures playbook step nows 0 state Hstep Hnext).
  unfold next_attempt. rewrite Hfresh, Hown. reflexivity.
Qed.

(** Four failures in a row of the example step, which allows two attempts:
    the third and the fourth ask for escalation. *)
Lemma executeStep_retry_budget_of_two :
  map PlaybookExecutionResult.shouldEscalate
    (snd (run_steps Examples.restart_playbook
            (createExecutionState 0 Examples.restart_playbook)
            (map (fun now => (now, failure)) [1%Z; 2%Z; 3%Z; 4%Z]))) =
  map (fun k => (max_attempts Examples.restart_step <? Z.of_nat k)%Z &&
                nullish_or (PlaybookStep.escalateOnFailure Examples.restart_step) true)
      (List.seq 1 (length [1%Z; 2%Z; 3%Z; 4%Z])).
Proof.
  apply (executeStep_retry_budget Examples.restart_playbook
           (createExecutionState 0 Examples.restart_playbook) Examples.restart_step
           [1%Z; 2%Z; 3%Z; 4%Z]); reflexivity.
Defined.

(** The next attempt at a step is a text, not a number. *)
Lemma next_attempt_text_stays (now : Z) (playbook : Playbook.t)
    (state : PlaybookExecutionState.t) (step : PlaybookStep.t) :
  getCurrentStep playbook state = Some step ->
  present (PlaybookStep.nextOnFailure step) = false ->
  (exists name ones, next_attempt state step = Text name ones) ->
  let state' := fst (executeStep now playbook state failure) in
  let r := snd (executeStep now playbook state failure) in
  (exists name ones, next_attempt state' step = Text name ones) /\
  PlaybookExecutionResult.shouldEscalate r = false /\
  PlaybookExecutionState.failedSteps state' = PlaybookExecutionState.failedSteps state.
Proof.
  intros Hstep Hnext [name [ones Ht]]. cbn zeta.
  destruct (executeStep_failure_stays now playbook state step Hstep Hnext) as [_ H3].
  split; [| split].
  - unfold next_attempt at 1. rewrite H3, Ht. unfold write_attempts.
    unfold next_attempt in Ht.
    destruct (PlaybookExecutionState.stepAttempts state !! PlaybookStep.id step)
      as [[k | name0 ones0] |] eqn:E.
    + discriminate.
    + rewrite lookup_insert_eq. eauto.
    + destruct (inherited (PlaybookStep.id step)) eqn:Hi; [| discriminate].
      destruct (Guardrails.str_eqb (PlaybookStep.id step) "__proto__").
      * rewrite E. eauto.
      * rewrite lookup_insert_eq. eauto.
  - unfold executeStep. rewrite Hstep, Ht, Hnext. reflexivity.
  - unfold executeStep. rewrite Hstep, Ht, Hnext. reflexivity.
Qed.

(** A step whose id is the name of a property of [Object.prototype] never
    uses up its attempts.  From a state whose [stepAttempts] has no property
    of its own for the step, the count read is a function or an object, the
    incremented count is a text, and no comparison of it with the limit
    holds: every failure reported in a row, on a step without
    [nextOnFailure], returns [shouldEscalate = false], and no step is
    recorded in [failedSteps], whatever [maxAttempts] is. *)
Theorem executeStep_inherited_id_never_escalates (playbook : Playbook.t)
    (state : PlaybookExecutionState.t) (step : PlaybookStep.t) (nows : list Z) :
  getCurrentStep playbook state = Some step ->
  present (PlaybookStep.nextOnFailure step) = false ->
  PlaybookExecutionState.stepAttempts state !! PlaybookStep.id step = None ->
  inherited (PlaybookStep.id step) = true ->
  let run := run_steps playbook state (map (fun now => (now, failure)) nows) in
  map PlaybookExecutionResult.shouldEscalate (snd run) = repeat false (length nows) /\
  PlaybookExecutionState.failedSteps (fst run) = PlaybookExecutionState.failedSteps state.
Proof.
  intros Hstep Hnext Hfresh Hin.
  assert (Ht : exists name ones, next_attempt state step = Text name ones).
  { unfold next_attempt. rewrite Hfresh, Hin. eauto. }
  clear Hfresh. revert state Hstep Ht.
  induction nows as [| now nows IH]; intros state Hstep Ht; [split; reflexivity |].
  cbn zeta. cbn [map run_steps length repeat].
  destruct (next_attempt_text_stays now playbook state step Hstep Hnext Ht)
    as [Ht1 [H1 H2]].
  destruct (executeStep_failure_stays now playbook state step Hstep Hnext) as [Hstep1 _].
  destruct (executeStep now playbook state failure) as [state1 r].
  cbn [fst snd] in Ht1, H1, H2, Hstep1.
  specialize (IH state1 Hstep1 Ht1). cbn zeta in IH.
  destruct (run_steps playbook state1 (map (fun now0 => (now0, failure)) nows))
    as [state2 rs]. cbn [fst snd map] in *.
  destruct IH as [IH1 IH2]. split; [rewrite H1, IH1; reflexivity | congruence].
Qed.

(** Five failures in a row of a step named [constructor] that allows two
    attempts: none of the results asks for escalation. *)
Lemma executeStep_constructor_never_escalates :
  let run := run_steps Examples.constructor_playbook
               (createExecutionState 0 Examples.constructor_playbook)
               (map (fun now => (now, failure)) [1%Z; 2%Z; 3%Z; 4%Z; 5%Z]) in
  map PlaybookExecutionResult.shouldEscalate (snd run) =
    repeat false (length [1%Z; 2%Z; 3%Z; 4%Z; 5%Z]) /\
  PlaybookExecutionState.failedSteps (fst run) =
    PlaybookExecutionState.failedSteps (createExecutionState 0 Examples.constructor_playbook).
Proof.
  apply (executeStep_inherited_id_never_escalates Examples.constructor_playbook
           (createExecutionState 0 Examples.constructor_playbook)
           Examples.constructor_step [1%Z; 2%Z; 3%Z; 4%Z; 5%Z]); reflexivity.
Defined.

Lemma executeStep_outcome (now : Z) (playbook : Playbook.t)
    (state : PlaybookExecutionState.t) (stepOutcome : StepOutcome) :
  let state' := fst (executeStep now playbook state stepOutcome) in
  PlaybookExecutionState.outcome state' = PlaybookExecutionState.outcome state \/
  PlaybookExecutionState.outcome state' = Some resolved.
Proof.
  unfold executeStep.
  destruct (getCurrentStep playbook state) as [step |]; [| left; reflexivity].
  destruct (exceeds (next_attempt state step) (max_attempts step) && is_failure stepOutcome);
    [left; reflexivity |].
  destruct stepOutcome.
  - destruct (present (PlaybookStep.nextOnSuccess step)); [left | right]; reflexivity.
  - destruct (present (PlaybookStep.nextOnFailure step)); left; reflexivity.
Qed.

(** [executeStep] never marks an execution as escalated: whatever outcomes
    are reported, and whatever the results ask for, a state that was not
    marked [escalated] is not marked so afterwards, and it is complete for
    [isPlaybookComplete] only when its outcome is [resolved]. *)
Theorem executeStep_never_marks_escalated (playbook : Playbook.t)
    (state : PlaybookExecutionState.t) (events : list (Z * StepOutcome)) :
  marked_escalated state = false ->
  let state' := fst (run_steps playbook state events) in
  marked_escalated state' = false /\
  isPlaybookComplete state' =
    match PlaybookExecutionState.outcome state' with
    | Some resolved => true
    | _ => false
    end.
Proof.
  revert state. induction events as [| [now o] events IH]; intros state H; cbn zeta.
  - simpl. split; [exact H |]. unfold marked_escalated, isPlaybookComplete in *.
    destruct (PlaybookExecutionState.outcome state) as [[| |] |]; congruence.
  - simpl. pose proof (executeStep_outcome now playbook state o) as Ho. cbn zeta in Ho.
    destruct (executeStep now playbook state o) as [state1 r]. simpl in Ho.
    assert (H1 : marked_escalated state1 = false).
    { unfold marked_escalated in *. destruct Ho as [-> | ->]; [exact H | reflexivity]. }
    specialize (IH state1 H1). cbn zeta in IH.
    destruct (run_steps playbook state1 events) as [state2 rs]. exact IH.
Qed.

(** Three failures of the example step: the third result asks for
    escalation, and the state is still in progress. *)
Lemma executeStep_escalation_leaves_in_progress :
  let state' := fst (run_steps Examples.restart_playbook
                       (createExecutionState 0 Examples.restart_playbook)
                       [(1%Z, failure); (2%Z, failure); (3%Z, failure)]) in
  marked_escalated state' = false /\
  isPlaybookComplete state' =
    match PlaybookExecutionState.outcome state' with
    | Some resolved => true
    | _ => false
    end.
Proof.
  apply (executeStep_never_marks_escalated Examples.restart_playbook
           (createExecutionState 0 Examples.restart_playbook)
           [(1%Z, failure); (2%Z, failure); (3%Z, failure)]).
  reflexivity.
Defined.

(** With an empty list of keywords as criterion ([[]] is truthy, and no
    keyword of it overlaps with a trigger), [findPlaybooks] returns only
    playbooks that have no trigger keywords. *)
Theorem findPlaybooks_no_keywords (registry : list Playbook.t) (criteria : Criteria)
    (playbook : Playbook.t) :
  keywords criteria = Some [] ->
  In playbook (findPlaybooks registry criteria) ->
  PlaybookTrigger.keywords (Playbook.triggers playbook) = None.
Proof.
  intros Hk Hin. unfold findPlaybooks in Hin. apply filter_In in Hin as [_ Hm].
  unfold matches_criteria in Hm. rewrite Hk in Hm.
  destruct (PlaybookTrigger.keywords (Playbook.triggers playbook)); [| reflexivity].
  cbn [keyword_overlap existsb] in Hm. rewrite !andb_false_r in Hm. discriminate.
Qed.

(** The example playbook, which has no trigger keywords, is found. *)
Lemma findPlaybooks_no_keywords_example :
  PlaybookTrigger.keywords (Playbook.triggers Examples.restart_playbook) = None.
Proof.
  apply (findPlaybooks_no_keywords [Examples.restart_playbook] Examples.no_keywords
           Examples.restart_playbook).
  - reflexivity.
  - left. reflexivity.
Defined.

End ExecutionFacts.

(* ===================================================================== *)
(** * Properties of the guardrails' reports                               *)
(* ===================================================================== *)
Module SafetyFacts.
Import JS Regex Guardrails Spec GuardrailSpec StringFacts.

(** No action of [getDangerousActions], in whatever letter case it is
    written, is safe for [isActionSafe]. *)
Theorem isActionSafe_rejects_dangerous (action : str) :
  existsb (str_eqb (toLowerCase action)) getDangerousActions = true ->
  isActionSafe action = false.
Proof.
  intros H. apply existsb_exists in H as [d [Hd Heq]].
  apply str_eqb_eq in Heq. unfold isActionSafe. rewrite Heq.
  unfold getDangerousActions in Hd. simpl in Hd.
  repeat (destruct Hd as [<- | Hd]; [vm_compute; reflexivity |]).
  destruct Hd.
Qed.

Lemma isActionSafe_rejects_DELETE_ACCOUNT : isActionSafe "Delete_Account" = false.
Proof.
  apply (isActionSafe_rejects_dangerous "Delete_Account"). vm_compute. reflexivity.
Defined.

(** ** Redaction records *)

Lemma redact_match_fold (n : str) (t : str) (ms : list (nat * nat))
    (acc : str * list Redaction) :
  snd (fold_left (redact_match n t) ms acc) =
    snd acc ++ map (fun m => {| type := n;
                                original := substring0 (matched t m) 4 ++ "...";
                                position := fst m |}) ms /\
  (ms = [] -> fst (fold_left (redact_match n t) ms acc) = fst acc).
Proof.
  revert acc. induction ms as [| m ms IH]; intros acc; simpl.
  - rewrite app_nil_r. auto.
  - destruct (IH (redact_match n t acc m)) as [IH1 _].
    split; [| discriminate]. rewrite IH1.
    unfold redact_match. cbn [snd]. rewrite <- app_assoc. reflexivity.
Qed.

Lemma exec_all_nil (r : RegExp) (t : str) (ms : list (nat * nat)) :
  exec_all r t = Some ms ->
  (ms = [] <-> exec r t 0 = None).
Proof.
  unfold exec_all. cbn [exec_all_from].
  destruct (exec r t 0) as [[i e] |]; [| intros [= <-]; tauto].
  destruct (Nat.leb e i); [discriminate |].
  destruct (exec_all_from _ r t e); [| discriminate].
  intros [= <-]. split; discriminate.
Qed.

Lemma redact_patterns_records (ps : list SensitivePattern) (t : str)
    (acc out : str * list Redaction) :
  redact_patterns ps t acc = Some out ->
  exists new,
    snd out = snd acc ++ new /\
    Forall (fun d => (exists shown, original d = shown ++ "..." /\ length shown <= 4) /\
                     In (type d) (map name ps)) new /\
    (new = [] <-> forallb (fun p => match exec (pattern p) t 0 with
                                    | None => true
                                    | Some _ => false
                                    end) ps = true) /\
    (new = [] -> fst out = fst acc).
Proof.
  revert acc. induction ps as [| p ps IH]; intros acc; simpl.
  - intros [= <-]. exists []. rewrite app_nil_r. repeat split; auto.
  - destruct (exec_all (pattern p) t) as [ms |] eqn:Hms; [| discriminate].
    intros H. destruct (IH _ H) as [new [Hsnd [Hall [Hnil Hfst]]]].
    destruct (redact_match_fold (name p) t ms acc) as [Hf1 Hf2].
    rewrite Hf1 in Hsnd.
    pose proof (exec_all_nil _ _ _ Hms) as Hms0.
    exists (map (fun m => {| type := name p;
                             original := substring0 (matched t m) 4 ++ "...";
                             position := fst m |}) ms ++ new).
    split; [rewrite Hsnd, app_assoc; reflexivity |].
    split; [| split].
    + apply List.Forall_app. split.
      * apply List.Forall_forall. intros d Hd. apply in_map_iff in Hd as [m [<- _]].
        simpl. split; [| left; reflexivity].
        exists (substring0 (matched t m) 4). split; [reflexivity |].
        unfold substring0. rewrite length_firstn. lia.
      * eapply List.Forall_impl; [| exact Hall]. simpl. intros d [H1 H2]. auto.
    + split.
      * intros Hn. apply app_eq_nil in Hn as [Hm Hn]. apply map_eq_nil in Hm.
        apply Hms0 in Hm. rewrite Hm. simpl. apply Hnil, Hn.
      * intros Hb. apply andb_true_iff in Hb as [Hp Hb].
        destruct (exec (pattern p) t 0) eqn:He; [discriminate |].
        destruct Hms0 as [_ Hms0]. rewrite (Hms0 eq_refl). simpl. apply Hnil, Hb.
    + intros Hn. apply app_eq_nil in Hn as [Hm Hn]. apply map_eq_nil in Hm.
      rewrite (Hfst Hn). apply Hf2, Hm.
Qed.

Lemma redactSecrets_records (t : str) (r : RedactionResult) :
  redactSecrets t = Some r ->
  Forall discreet (redactions r) /\
  hasSecrets r = negb (unmatched t) /\
  (hasSecrets r = false -> text r = t).
Proof.
  unfold redactSecrets.
  destruct (redact_patterns SENSITIVE_PATTERNS t (t, [])) as [[res reds] |] eqn:H;
    [| discriminate].
  intros [= <-]. cbn [redactions hasSecrets text].
  destruct (redact_patterns_records _ _ _ _ H) as [new [Hsnd [Hall [Hnil Hfst]]]].
  simpl in Hsnd, Hfst. subst reds.
  split; [exact Hall |].
  fold (unmatched t) in Hnil.
  destruct new as [| d new].
  - destruct Hnil as [Hnil _]. rewrite (Hnil eq_refl). simpl. split; [reflexivity |].
    intros _. apply Hfst. reflexivity.
  - simpl. destruct (unmatched t); [| split; [reflexivity | discriminate]].
    destruct Hnil as [_ Hnil]. discriminate (Hnil eq_refl).
Qed.

(** What [redactSecrets] reports: each record shows at most four characters
    of the matched text, followed by "...", under the name of a pattern of
    the catalogue; [hasSecrets] says whether some pattern matches the text;
    and a text without a match is returned as it is. *)
Theorem redactSecrets_reports (t : str) :
  exists r, redactSecrets t = Some r /\
            Forall discreet (redactions r) /\
            hasSecrets r = negb (unmatched t) /\
            (if hasSecrets r then True else text r = t).
Proof.
  unfold redactSecrets.
  destruct (RedactionFacts.redact_patterns_returns SENSITIVE_PATTERNS t eq_refl (t, []))
    as ([res reds] & H).
  pose proof (redactSecrets_records t) as Hr. unfold redactSecrets in Hr.
  rewrite H in *. eexists. split; [reflexivity |].
  destruct (Hr _ eq_refl) as [H1 [H2 H3]]. split; [exact H1 |]. split; [exact H2 |].
  cbn [hasSecrets text] in *. destruct (Nat.ltb 0 (length reds)); [exact I | auto].
Qed.

(** ** validateAIResponse *)

Lemma validateAIResponse_sanitized (response : str) (v : Validation) :
  validateAIResponse response = Some v ->
  exists r, redactSecrets response = Some r /\
            sanitizedResponse v = text r /\
            (if valid v then response else sanitizedResponse v) = text r /\
            valid v = negb (hasSecrets r) &&
                      negb (existsb (fun p => test p response) inappropriatePatterns) &&
                      (len response <=? 4000)%Z.
Proof.
  unfold validateAIResponse.
  destruct (redactSecrets response) as [r |] eqn:Hr; [| discriminate].
  destruct (redactSecrets_records _ _ Hr) as [_ [_ Hsame]].
  set (e := existsb (fun p => test p response) inappropriatePatterns). clearbody e.
  rewrite Z.leb_antisym.
  destruct (hasSecrets r) eqn:Hs.
  - destruct e, (4000 <? len response)%Z; intros [= <-]; exists r;
      (split; [reflexivity |]); (split; [reflexivity |]); (split; [reflexivity |]);
      rewrite Hs; reflexivity.
  - rewrite <- (Hsame eq_refl).
    destruct e, (4000 <? len (text r))%Z; intros [= <-]; exists r;
      (split; [reflexivity |]); (split; [reflexivity |]); (split; [reflexivity |]);
      rewrite Hs; reflexivity.
Qed.

(** [validateAIResponse] returns on every response; the sanitized response
    is the redacted text of the response; and the response is valid exactly
    when no pattern of the catalogue matches it, none of the four
    inappropriate phrases occurs in it and it has at most 4000 characters.
    A valid response is its own sanitized response. *)
Theorem validateAIResponse_spec (response : str) :
  exists v r,
    validateAIResponse response = Some v /\
    redactSecrets response = Some r /\
    sanitizedResponse v = text r /\
    valid v = unmatched response &&
              negb (existsb (fun p => test p response) inappropriatePatterns) &&
              (len response <=? 4000)%Z /\
    (if valid v then sanitizedResponse v = response else True).
Proof.
  destruct (RedactionFacts.redact_patterns_returns SENSITIVE_PATTERNS response eq_refl
              (response, [])) as ([res reds] & H).
  assert (Hv : exists v, validateAIResponse response = Some v).
  { unfold validateAIResponse, redactSecrets. rewrite H. eauto. }
  destruct Hv as [v Hv]. destruct (validateAIResponse_sanitized _ _ Hv) as [r [Hr [Hs [Hm Hval]]]].
  destruct (redactSecrets_records _ _ Hr) as [_ [Hhas Hsame]].
  exists v, r. split; [exact Hv |]. split; [exact Hr |]. split; [exact Hs |].
  split.
  - rewrite Hval, Hhas, negb_involutive. reflexivity.
  - destruct (valid v) eqn:E; [| exact I]. rewrite Hs. apply Hsame.
    rewrite Hval in E. destruct (hasSecrets r); [discriminate | reflexivity].
Qed.

(** ** Context triggers *)

Lemma raised_case_severity (c : TriggerContext) (acc : scan) :
  raised acc -> raised (case_severity_step c acc).
Proof.
  unfold raised, case_severity_step. destruct acc as [rs sev]. simpl.
  intros [H1 H2]. destruct (severity c) as [s |]; [| auto].
  repeat match goal with |- context [if ?c then _ else _] => destruct c end; simpl;
    try (split; [intros H; apply app_eq_nil in H as [_ H]; discriminate | discriminate]).
  auto.
Qed.

Lemma raised_customer_requested (c : TriggerContext) (acc : scan) :
  raised acc \/ customerRequested c = Some true ->
  raised (customer_requested_step c acc).
Proof.
  unfold raised, customer_requested_step. destruct acc as [rs sev]. simpl.
  destruct (customerRequested c) as [[|] |]; simpl.
  - intros _. split; [intros H; apply app_eq_nil in H as [_ H]; discriminate |].
    destruct sev; simpl; discriminate.
  - intros [H | H]; [exact H | discriminate].
  - intros [H | H]; [exact H | discriminate].
Qed.

Lemma raised_failed_attempts (c : TriggerContext) (acc : scan) (n : Z) :
  failedAttempts c = Some n -> (3 <= n)%Z ->
  raised (failed_attempts_step c acc).
Proof.
  unfold raised, failed_attempts_step. destruct acc as [rs sev]. intros -> Hn.
  destruct (Z.eqb_spec n 0); [lia |]. destruct (Z.leb_spec 3 n); [| lia]. simpl.
  split; [intros Hnil; apply app_eq_nil in Hnil as [_ Hnil]; discriminate |].
  destruct sev; simpl; discriminate.
Qed.

Lemma raised_keyword_step (lowerMessage : str) (acc : scan) (keyword : str) :
  raised acc \/ includes lowerMessage (toLowerCase keyword) = true ->
  raised (keyword_step lowerMessage acc keyword).
Proof.
  unfold raised, keyword_step. destruct acc as [rs sev].
  destruct (includes lowerMessage (toLowerCase keyword)).
  - intros _.
    repeat match goal with |- context [if ?c then _ else _] => destruct c eqn:? end;
      cbn [fst snd];
      (split; [intros Hnil; apply app_eq_nil in Hnil as [_ Hnil]; discriminate |]);
      try discriminate.
    destruct sev; simpl in *; congruence.
  - intros [H | H]; [exact H | discriminate].
Qed.

Lemma raised_keyword_scan (lowerMessage : str) (keywords : list str) (acc : scan) :
  raised acc \/
  existsb (fun k => includes lowerMessage (toLowerCase k)) keywords = true ->
  raised (keyword_scan lowerMessage keywords acc).
Proof.
  unfold keyword_scan. revert acc.
  induction keywords as [| k ks IH]; intros acc H; cbn [fold_left].
  - destruct H as [H | H]; [exact H | discriminate].
  - apply IH. cbn [existsb] in H.
    destruct H as [H | H]; [left; apply raised_keyword_step; auto |].
    apply orb_true_iff in H as [H | H]; [left; apply raised_keyword_step; auto |].
    right. exact H.
Qed.

Lemma raised_failed_attempts_step (c : TriggerContext) (acc : scan) :
  raised acc -> raised (failed_attempts_step c acc).
Proof.
  unfold raised, failed_attempts_step. destruct acc as [rs sev]. intros [H1 H2].
  destruct (failedAttempts c) as [n |]; [| auto].
  destruct (negb (n =? 0)%Z && (3 <=? n)%Z); [| auto]. cbn [fst snd].
  split; [intros Hnil; apply app_eq_nil in Hnil as [_ Hnil]; discriminate |].
  destruct sev; simpl in *; congruence.
Qed.

(** A message that contains one of the escalation keywords always
    escalates, with a severity above 'low', whatever the context. *)
Theorem checkEscalationTriggers_keyword_escalates (message : str)
    (context : option TriggerContext) :
  existsb (fun k => includes (toLowerCase message) (toLowerCase k))
    ESCALATION_KEYWORDS = true ->
  shouldEscalate (checkEscalationTriggers message context) = true /\
  severity_eqb (check_severity (checkEscalationTriggers message context)) Low = false.
Proof.
  intros H. unfold checkEscalationTriggers.
  pose proof (raised_keyword_scan (toLowerCase message) ESCALATION_KEYWORDS ([], Low)
                (or_intror H)) as Hk.
  set (acc := keyword_scan (toLowerCase message) ESCALATION_KEYWORDS ([], Low)) in *.
  clearbody acc.
  assert (Hr : raised (context_steps context acc)).
  { destruct context as [c |]; [| exact Hk]. cbn [context_steps].
    apply raised_customer_requested. left.
    apply raised_case_severity, raised_failed_attempts_step, Hk. }
  destruct (context_steps context acc) as [rs sev]. destruct Hr as [H1 H2].
  cbn [fst snd] in H1, H2. cbv beta iota. cbn [shouldEscalate check_severity]. split.
  - destruct rs; [congruence | reflexivity].
  - destruct sev; [congruence | reflexivity | reflexivity | reflexivity].
Qed.

(** "I need a refund, this is urgent" holds the keyword "urgent". *)
Lemma checkEscalationTriggers_urgent_escalates :
  shouldEscalate (checkEscalationTriggers "I need a refund, this is urgent" None) = true /\
  severity_eqb (check_severity
                  (checkEscalationTriggers "I need a refund, this is urgent" None))
    Low = false.
Proof.
  apply (checkEscalationTriggers_keyword_escalates "I need a refund, this is urgent" None).
  vm_compute. reflexivity.
Defined.

(** Three or more failed attempts, or a customer who asked for a human
    agent, always escalate, with a severity above 'low', whatever the
    message says. *)
Theorem checkEscalationTriggers_context_escalates (message : str) (c : TriggerContext) :
  (exists n, failedAttempts c = Some n /\ (3 <= n)%Z) \/ customerRequested c = Some true ->
  shouldEscalate (checkEscalationTriggers message (Some c)) = true /\
  severity_eqb (check_severity (checkEscalationTriggers message (Some c))) Low = false.
Proof.
  intros H. unfold checkEscalationTriggers, context_steps.
  set (acc := keyword_scan (toLowerCase message) ESCALATION_KEYWORDS ([], Low)).
  assert (Hr : raised (customer_requested_step c
                         (case_severity_step c (failed_attempts_step c acc)))).
  { apply raised_customer_requested.
    destruct H as [[n [Hn H3]] | H]; [left | right; exact H].
    apply raised_case_severity. apply (raised_failed_attempts c acc n Hn H3). }
  clearbody acc.
  destruct (customer_requested_step c _) as [rs sev]. destruct Hr as [H1 H2].
  cbn [fst snd] in H1, H2. cbv beta iota. cbn [shouldEscalate check_severity]. split.
  - destruct rs; [congruence | reflexivity].
  - destruct sev; [congruence | reflexivity | reflexivity | reflexivity].
Qed.

(** A message without a keyword, after three failed attempts. *)
Lemma checkEscalationTriggers_after_three_failures :
  shouldEscalate (checkEscalationTriggers "My printer shows a blank page"
                    (Some Examples.three_failed_attempts)) = true /\
  severity_eqb (check_severity
                  (checkEscalationTriggers "My printer shows a blank page"
                     (Some Examples.three_failed_attempts))) Low = false.
Proof.
  apply (checkEscalationTriggers_context_escalates "My printer shows a blank page"
           Examples.three_failed_attempts).
  left. exists 3%Z. split; [reflexivity | lia].
Defined.

End SafetyFacts.

(* ===================================================================== *)
(** * Properties of the requests for embeddings                           *)
(* ===================================================================== *)
Module BatchFacts.
Import JS Eff Embeddings Spec Examples CallSpec EmbeddingsFacts.

Lemma embedding_inputs_app (a b : list Call) :
  embedding_inputs (a ++ b) = embedding_inputs a ++ embedding_inputs b.
Proof. apply flat_map_app. Qed.

Lemma pauses_app (a b : list Call) : pauses (a ++ b) = pauses a ++ pauses b.
Proof. apply flat_map_app. Qed.

Lemma slices_upto_enough (k k' : nat) (l : list str) :
  length l <= k -> length l <= k' -> slices_upto k l = slices_upto k' l.
Proof.
  revert k' l. induction k as [| k IH]; intros k' l Hk Hk'.
  - destruct l; [| simpl in Hk; lia]. destruct k'; reflexivity.
  - destruct l as [| a l]; [destruct k'; reflexivity |].
    destruct k' as [| k']; [simpl in Hk'; lia |].
    cbn [slices_upto]. f_equal.
    assert (length (skipn MAX_BATCH_SIZE (a :: l)) <= length l).
    { rewrite length_skipn. unfold MAX_BATCH_SIZE. simpl. lia. }
    simpl in Hk, Hk'. apply IH; lia.
Qed.

Lemma slices_cons (l : list str) :
  l <> [] -> slices l = firstn MAX_BATCH_SIZE l :: slices (skipn MAX_BATCH_SIZE l).
Proof.
  intros Hl. destruct l as [| a l]; [congruence |].
  unfold slices at 1. cbn [length slices_upto]. f_equal.
  apply slices_upto_enough; [| lia].
  rewrite length_skipn. unfold MAX_BATCH_SIZE. simpl. lia.
Qed.

Lemma slices_nil : slices [] = [].
Proof. reflexivity. Qed.

Lemma slices_partition (k : nat) (l : list str) :
  length l <= k -> concat (slices l) = l /\ Forall batch_ok (slices l).
Proof.
  revert l. induction k as [| k IH]; intros l Hk.
  - destruct l; [| simpl in Hk; lia]. split; [reflexivity | constructor].
  - destruct l as [| a l]; [split; [reflexivity | constructor] |].
    rewrite slices_cons by discriminate.
    assert (Hlen : length (skipn MAX_BATCH_SIZE (a :: l)) <= k).
    { rewrite length_skipn. unfold MAX_BATCH_SIZE. simpl in *. lia. }
    destruct (IH _ Hlen) as [Hc Hf]. split.
    + cbn [concat]. rewrite Hc. apply firstn_skipn.
    + constructor; [| exact Hf].
      unfold batch_ok, MAX_BATCH_SIZE. rewrite length_firstn. cbn [length]. lia.
Qed.

Lemma answers_quiet (W : World) (quiet new log : list Call) :
  embedding_inputs quiet = [] ->
  answers W log (quiet ++ new) = answers W (log ++ quiet) new.
Proof.
  revert log. induction quiet as [| c quiet IH]; intros log Hq.
  - rewrite app_nil_r. reflexivity.
  - cbn [app answers]. destruct c; try discriminate;
      cbn [embedding_inputs flat_map app] in Hq;
      rewrite (IH _ Hq), <- app_assoc; reflexivity.
Qed.

Lemma progress_report_quiet (onProgress : bool) (total i : nat) :
  embedding_inputs (progress_report onProgress total i) = [].
Proof. unfold progress_report. destruct onProgress; reflexivity. Qed.

(** The batch loop from [i], for any provider. *)
Lemma batches_log (W : World) (texts : list str) (onProgress : bool) :
  forall (k i : nat) (results : list EmbeddingResult) (log : list Call),
    length texts - i <= k ->
    exists (bs later : list (list str)) (failed : bool)
           (answered : list (list (list float))),
      slices (skipn i texts) = bs ++ later /\
      fst (batches W texts onProgress i results log) =
        log ++ batch_calls onProgress (length texts) i failed bs /\
      answers W log (batch_calls onProgress (length texts) i failed bs) =
        map Some answered ++ (if failed then [None] else []) /\
      (if failed then snd (batches W texts onProgress i results log) = None
       else later = [] /\
            exists rs, snd (batches W texts onProgress i results log) = Some rs).
Proof.
  induction k as [| k IH]; intros i results log Hk;
    rewrite batches_equation_1; destruct (lt_dec i (length texts)) as [Hlt | Hge];
    simpl; try lia.
  1,3: exists [], [], false, []; rewrite skipn_all2 by lia;
       cbn [batch_calls answers map app fst snd]; rewrite app_nil_r;
       (split; [reflexivity |]); (split; [reflexivity |]); (split; [reflexivity |]);
       (split; [reflexivity | eauto]).
  set (batch := firstn MAX_BATCH_SIZE (skipn i texts)).
  assert (Hne : skipn i texts <> []).
  { intros E. assert (H0 : length (skipn i texts) = 0) by (rewrite E; reflexivity).
    rewrite length_skipn in H0. lia. }
  assert (Hsl : slices (skipn i texts) = batch :: slices (skipn (i + MAX_BATCH_SIZE) texts)).
  { rewrite (slices_cons _ Hne), skipn_skipn. f_equal. f_equal. f_equal. lia. }
  destruct (embeddings_create W log (Batch batch)) as [data |] eqn:Hdata.
  - match goal with
    | |- context [batches W texts onProgress _ ?rs ?lg] =>
        assert (Hlog3 : lg = (log ++ [EmbeddingsCreate (Batch batch)]) ++
                             (progress_report onProgress (length texts) i ++
                              (if Nat.ltb (i + MAX_BATCH_SIZE) (length texts)
                               then [Sleep RATE_LIMIT_DELAY] else [])));
          [unfold progress_report;
           destruct onProgress, (Nat.ltb (i + MAX_BATCH_SIZE) (length texts));
           rewrite <- ?app_assoc, ?app_nil_r; reflexivity |];
        rewrite Hlog3; clear Hlog3
    end.
    match goal with
    | |- context [batches W texts onProgress _ ?rs ?lg] =>
        destruct (IH (i + MAX_BATCH_SIZE) rs lg)
          as (bs & later & failed & answered & Hs & Hlog & Hans & Hres);
          [unfold MAX_BATCH_SIZE; lia |];
        set (r := batches W texts onProgress (i + MAX_BATCH_SIZE) rs lg) in *
    end.
    exists (batch :: bs), later, failed, (data :: answered).
    split; [rewrite Hsl, Hs; reflexivity |].
    assert (Hpause : (if Nat.ltb (i + MAX_BATCH_SIZE) (length texts)
                      then bs <> [] else bs = [] /\ later = [])).
    { destruct (Nat.ltb_spec (i + MAX_BATCH_SIZE) (length texts)) as [Hl | Hl].
      - intros ->. destruct failed.
        + simpl in Hans. destruct answered; discriminate.
        + destruct Hres as [-> _]. simpl in Hs.
          rewrite slices_cons in Hs; [discriminate |].
          intros E.
          assert (H0 : length (skipn (i + MAX_BATCH_SIZE) texts) = 0)
            by (rewrite E; reflexivity).
          rewrite length_skipn in H0. lia.
      - rewrite skipn_all2 in Hs by lia. rewrite slices_nil in Hs.
        symmetry in Hs. apply app_eq_nil in Hs. exact Hs. }
    assert (Hshape : batch_calls onProgress (length texts) i failed (batch :: bs) =
                     [EmbeddingsCreate (Batch batch)] ++
                     (progress_report onProgress (length texts) i ++
                      (if Nat.ltb (i + MAX_BATCH_SIZE) (length texts)
                       then [Sleep RATE_LIMIT_DELAY] else [])) ++
                     batch_calls onProgress (length texts) (i + MAX_BATCH_SIZE) failed bs).
    { cbn [batch_calls app]. f_equal.
      destruct (Nat.ltb (i + MAX_BATCH_SIZE) (length texts)).
      - destruct bs as [| b bs]; [congruence |]. rewrite <- app_assoc. reflexivity.
      - destruct Hpause as [-> _]. destruct failed.
        + simpl in Hans. destruct answered; discriminate.
        + cbn [batch_calls]. rewrite !app_nil_r. reflexivity. }
    split; [| split].
    + rewrite Hshape, Hlog, <- !app_assoc. reflexivity.
    + rewrite Hshape. cbn [app answers]. rewrite Hdata.
      rewrite answers_quiet.
      2:{ unfold embedding_inputs. rewrite flat_map_app.
          fold (embedding_inputs (progress_report onProgress (length texts) i)).
          rewrite progress_report_quiet.
          destruct (Nat.ltb (i + MAX_BATCH_SIZE) (length texts)); reflexivity. }
      rewrite Hans. reflexivity.
    + exact Hres.
  - exists [batch], (slices (skipn (i + MAX_BATCH_SIZE) texts)), true, [].
    split; [exact Hsl |]. split; [reflexivity |]. split; [| reflexivity].
    cbn [batch_calls answers app map]. rewrite Hdata. reflexivity.
Qed.

Lemma batch_calls_cons (onProgress : bool) (total i : nat) (failed : bool)
    (b b' : list str) (bs : list (list str)) :
  batch_calls onProgress total i failed (b :: b' :: bs) =
  [EmbeddingsCreate (Batch b)] ++ progress_report onProgress total i ++
  [Sleep RATE_LIMIT_DELAY] ++
  batch_calls onProgress total (i + MAX_BATCH_SIZE) failed (b' :: bs).
Proof. reflexivity. Qed.

Lemma batch_calls_last (onProgress : bool) (total i : nat) (failed : bool)
    (b : list str) :
  batch_calls onProgress total i failed [b] =
  [EmbeddingsCreate (Batch b)] ++
  (if failed then [ConsoleError "Error generating embeddings for batch"]
   else progress_report onProgress total i).
Proof. reflexivity. Qed.

Lemma batch_calls_inputs (onProgress : bool) (total : nat) (failed : bool)
    (bs : list (list str)) (i : nat) :
  embedding_inputs (batch_calls onProgress total i failed bs) = map Batch bs.
Proof.
  revert i. induction bs as [| b bs IH]; intros i; [reflexivity |].
  destruct bs as [| b' bs].
  - rewrite batch_calls_last, embedding_inputs_app.
    destruct failed; [reflexivity |]. rewrite progress_report_quiet. reflexivity.
  - rewrite batch_calls_cons, !embedding_inputs_app, progress_report_quiet, IH.
    reflexivity.
Qed.

Lemma progress_report_pauses (onProgress : bool) (total i : nat) :
  pauses (progress_report onProgress total i) = [].
Proof. unfold progress_report. destruct onProgress; reflexivity. Qed.

Lemma batch_calls_pauses (onProgress : bool) (total : nat) (failed : bool)
    (bs : list (list str)) (i : nat) :
  pauses (batch_calls onProgress total i failed bs) =
    repeat RATE_LIMIT_DELAY (length bs - 1).
Proof.
  revert i. induction bs as [| b bs IH]; intros i; [reflexivity |].
  destruct bs as [| b' bs].
  - rewrite batch_calls_last, pauses_app.
    destruct failed; [reflexivity |]. rewrite progress_report_pauses. reflexivity.
  - rewrite batch_calls_cons, !pauses_app, progress_report_pauses, IH.
    cbn [length]. rewrite !Nat.sub_succ, !Nat.sub_0_r. reflexivity.
Qed.

(** For every provider, the calls of [generateEmbeddings] are those of
    [batch_calls]: the batches requested are the first of the consecutive
    slices of at most 100 texts that make up the input, each request is
    followed by the report of progress and, when another batch follows, by a
    pause of 100 ms and by the request of that batch.  The service answered
    every request but, in a run that fails, the last: a batch that fails is
    followed by the error message only, no later batch is requested, and the
    call throws.  In a run that does not fail all the slices are requested
    and the call returns.  Without the key no call is made, and the call
    throws. *)
Theorem generateEmbeddings_batches (W : World) (texts : list str) (onProgress : bool)
    (log : list Call) :
  let r := generateEmbeddings W texts onProgress log in
  concat (slices texts) = texts /\
  Forall batch_ok (slices texts) /\
  if Playbooks.present (OPENAI_API_KEY W) then
    exists (bs later : list (list str)) (failed : bool)
           (answered : list (list (list float))),
      slices texts = bs ++ later /\
      fst r = log ++ batch_calls onProgress (length texts) 0 failed bs /\
      embedding_inputs (batch_calls onProgress (length texts) 0 failed bs) = map Batch bs /\
      pauses (batch_calls onProgress (length texts) 0 failed bs) =
        repeat RATE_LIMIT_DELAY (length bs - 1) /\
      answers W log (batch_calls onProgress (length texts) 0 failed bs) =
        map Some answered ++ (if failed then [None] else []) /\
      (if failed then snd r = None
       else later = [] /\ exists results, snd r = Some results)
  else fst r = log /\ snd r = None.
Proof.
  cbn zeta.
  destruct (slices_partition (length texts) texts (le_n _)) as [Hc Hf].
  split; [exact Hc |]. split; [exact Hf |].
  unfold generateEmbeddings, getOpenAIClient, bind.
  destruct (Playbooks.present (OPENAI_API_KEY W)); [| split; reflexivity].
  unfold ret.
  pose proof (batches_log W texts onProgress (length texts) 0 [] log ltac:(lia)) as H.
  change (skipn 0 texts) with texts in H.
  destruct (batches W texts onProgress 0 [] log) as [log' [results |]];
    cbn [fst snd] in *;
    destruct H as (bs & later & failed & answered & Hs & Hlog & Hans & Hres);
    exists bs, later, failed, answered;
    (split; [exact Hs |]); (split; [exact Hlog |]);
    (split; [apply batch_calls_inputs |]); (split; [apply batch_calls_pauses |]);
    (split; [exact Hans |]).
  - destruct failed; [discriminate |]. destruct Hres as [Hl _].
    split; [exact Hl | eauto].
  - destruct failed; [reflexivity |]. destruct Hres as [_ [rs Hrs]]. discriminate.
Qed.

(** A text is within the context limit exactly when it has at most four
    characters per token of the limit: 32764 characters for the default
    limit of 8191 tokens. *)
Theorem isWithinContextLimit_in_characters (t : str) (maxTokens : option Z) :
  isWithinContextLimit t maxTokens =
    (len t <=? 4 * Playbooks.nullish_or maxTokens 8191)%Z.
Proof.
  unfold isWithinContextLimit, estimateEmbeddingTokens, ceil_div4.
  set (m := Playbooks.nullish_or maxTokens 8191%Z).
  pose proof (Z.div_mod (len t + 3) 4 ltac:(lia)) as Hd.
  pose proof (Z.mod_pos_bound (len t + 3) 4 ltac:(lia)) as Hm.
  destruct (Z.leb_spec ((len t + 3) / 4) m), (Z.leb_spec (len t) (4 * m));
    try reflexivity; lia.
Qed.

End BatchFacts.

(* ===================================================================== *)
(** * Properties of retrieval requests and of citations                  *)
(* ===================================================================== *)
Module CitationFacts.
Import JS Eff Retrieval CallSpec StringFacts.

(** [retrieveRelevantChunks] asks for the embedding of the query, then
    queries the namespace of the tenant it was given, and nothing else: at
    most these two requests, whatever the services answer. *)
Theorem retrieveRelevantChunks_calls (W : World) (tenantId query : str)
    (options : Retrieval.RetrievalOptions.t) (log : list Call) :
  exists new : list Call,
    fst (Retrieval.retrieveRelevantChunks W tenantId query options log) = log ++ new /\
    Forall (retrieval_call tenantId query options) new /\
    length new <= 2 /\
    (if Playbooks.present (OPENAI_API_KEY W) then True else new = []).
Proof.
  unfold Retrieval.retrieveRelevantChunks, Embeddings.generateEmbedding,
    Embeddings.getOpenAIClient, Retrieval.queryVectors, Retrieval.getPineconeIndex,
    bind, request, ret, throw.
  destruct (Playbooks.present (OPENAI_API_KEY W)).
  2: { exists []. rewrite app_nil_r. simpl. repeat split; auto. }
  assert (HE : retrieval_call tenantId query options (EmbeddingsCreate (OneText query)))
    by reflexivity.
  destruct (embeddings_create W log (OneText query)) as [[| v data] |].
  1, 3: exists [EmbeddingsCreate (OneText query)]; simpl;
        (split; [reflexivity |]); (split; [repeat constructor |]); split; [lia | exact I].
  destruct (Playbooks.present (PINECONE_API_KEY W)).
  2: { exists [EmbeddingsCreate (OneText query)]. simpl.
       split; [reflexivity |]. split; [repeat constructor |]. split; [lia | exact I]. }
  cbn [Retrieval.QueryOptions.topK Retrieval.QueryOptions.filter
       Retrieval.QueryOptions.includeMetadata Playbooks.nullish_or].
  set (flt := if Nat.ltb 0 (length (Retrieval.build_filter options))
              then Some (Retrieval.build_filter options) else None).
  set (topK := Playbooks.num_or
                 (Some match Retrieval.RetrievalOptions.topK options with
                       | Some a => a | None => 5%Z end) 5).
  exists [EmbeddingsCreate (OneText query); NamespaceQuery tenantId v topK flt true].
  split.
  - match goal with
    | |- context [namespace_query W ?l ?a ?b ?c ?d ?e] =>
        destruct (namespace_query W l a b c d e)
    end; simpl; rewrite <- app_assoc; reflexivity.
  - split; [| split; [simpl; lia | exact I]].
    constructor; [exact HE |]. constructor; [| constructor].
    simpl. split; [reflexivity |]. split; [reflexivity |]. split; [| reflexivity].
    subst flt. destruct (Retrieval.build_filter options); reflexivity.
Qed.

Lemma insert_In {A : Type} (before : A -> A -> bool) (x y : A) (l : list A) :
  In y (JSArray.insert before x l) <-> y = x \/ In y l.
Proof.
  induction l as [| z l IH]; simpl; [intuition |].
  destruct (before x z); simpl; [intuition |]. rewrite IH. intuition.
Qed.

Lemma sort_In {A : Type} (before : A -> A -> bool) (l : list A) (y : A) :
  In y (JSArray.sort before l) <-> In y l.
Proof.
  unfold JSArray.sort.
  assert (H : forall acc, In y (fold_left (fun acc x => JSArray.insert before x acc) l acc)
                          <-> In y acc \/ In y l).
  { induction l as [| x l IH]; intros acc; simpl; [intuition |].
    rewrite IH, insert_In. intuition. }
  rewrite H. simpl. intuition.
Qed.

Lemma assemble_with_sources_sources (maxTokens : Z) (from : list RetrievalResult.t)
    (sortedChunks : list RetrievalResult.t) :
  forall (context : str) (totalTokens : Z) (sources : list SourceRef.t)
         (seenSources : list str),
    seenSources = map key_of sources ->
    List.NoDup seenSources ->
    Forall (fun s => In s (map source_of from)) sources ->
    Forall (fun c => In c from) sortedChunks ->
    let out := snd (assemble_with_sources maxTokens sortedChunks context totalTokens
                      sources seenSources) in
    List.NoDup (map key_of out) /\
    Forall (fun s => In s (map source_of from)) out /\
    length out <= length sources + length sortedChunks.
Proof.
  induction sortedChunks as [| chunk more IH];
    intros context totalTokens sources seenSources Hseen Hnd Hfrom Hin; cbn zeta.
  - simpl. rewrite <- Hseen. split; [exact Hnd |]. split; [exact Hfrom | lia].
  - cbn [assemble_with_sources].
    destruct (maxTokens <? totalTokens + estimateTokens (RetrievalResult.content chunk))%Z.
    + simpl. rewrite <- Hseen. split; [exact Hnd |]. split; [exact Hfrom | lia].
    + inversion Hin as [| ? ? Hc Hmore]; subst.
      cbn zeta.
      destruct (Playbooks.array_includes (map key_of sources) (sourceKey chunk)) eqn:E.
      * destruct (IH (context ++ nl ++ "[Source " ++
                      string_of_Z (Z.of_nat (length sources)) ++ "]" ++ nl ++
                      RetrievalResult.content chunk)
                     (totalTokens + estimateTokens (RetrievalResult.content chunk))%Z
                     sources (map key_of sources) eq_refl Hnd Hfrom Hmore)
          as [H1 [H2 H3]].
        split; [exact H1 |]. split; [exact H2 | cbn [length]; lia].
      * destruct (IH (context ++ nl ++ "[Source " ++
                      string_of_Z (Z.of_nat (length (sources ++ [source_of chunk]))) ++
                      "]" ++ nl ++ RetrievalResult.content chunk)
                     (totalTokens + estimateTokens (RetrievalResult.content chunk))%Z
                     (sources ++ [source_of chunk])
                     (map key_of sources ++ [sourceKey chunk]))
          as [H1 [H2 H3]].
        -- rewrite map_app. reflexivity.
        -- apply List.NoDup_app; [exact Hnd | constructor; [intros [] | constructor] |].
           intros x Hx [<- | []]. apply array_includes_In in Hx. congruence.
        -- apply List.Forall_app. split; [exact Hfrom |].
           constructor; [apply in_map, Hc | constructor].
        -- exact Hmore.
        -- split; [exact H1 |]. split; [exact H2 |].
           pose proof (length_app sources [source_of chunk]) as Hl.
           cbn [length] in Hl |- *. lia.
Qed.

(** The citations of [assembleContextWithSources]: no two of them have the
    same key [kbId:docId], each is the source of one of the chunks given,
    and there are no more of them than chunks. *)
Theorem assembleContextWithSources_sources (chunks : list RetrievalResult.t)
    (maxTokens : option Z) :
  let sources := snd (assembleContextWithSources chunks maxTokens) in
  List.NoDup (map key_of sources) /\
  Forall (fun s => In s (map source_of chunks)) sources /\
  length sources <= length chunks.
Proof.
  cbn zeta. unfold assembleContextWithSources.
  destruct chunks as [| c chunks]; [simpl; repeat split; constructor |].
  set (l := c :: chunks).
  pose proof (assemble_with_sources_sources
                (Playbooks.nullish_or maxTokens DEFAULT_MAX_TOKENS) l
                (JSArray.sort score_before l) [] 0%Z [] [] eq_refl (List.NoDup_nil _)
                (List.Forall_nil _)) as H.
  cbn zeta in H.
  destruct (assemble_with_sources _ _ _ _ _ _) as [context sources].
  cbn [snd] in *. rewrite JSFacts.sort_length in H. apply H.
  apply List.Forall_forall. intros x Hx. apply sort_In in Hx. exact Hx.
Qed.

End CitationFacts.

(* ===================================================================== *)
(** * Properties of a turn of the tier-1 agent                            *)
(* ===================================================================== *)
Module TurnFacts.
Import JS Eff Guardrails L1Agent Spec Examples CallSpec.

(** ** The monad *)

Lemma emits_ret {A : Type} (P : Call -> Prop) (a : A) : emits P (ret a).
Proof. intros log. exists []. rewrite app_nil_r. split; [reflexivity | constructor]. Qed.

Lemma emits_throw {A : Type} (P : Call -> Prop) : emits P (@throw A).
Proof. intros log. exists []. rewrite app_nil_r. split; [reflexivity | constructor]. Qed.

Lemma emits_bind {A B : Type} (P : Call -> Prop) (m : M A) (f : A -> M B) :
  emits P m -> (forall a, emits P (f a)) -> emits P (bind m f).
Proof.
  intros Hm Hf log. unfold bind. destruct (Hm log) as [new1 [H1 F1]].
  destruct (m log) as [log1 [a |]]; simpl in H1; subst log1.
  - destruct (Hf a (log ++ new1)) as [new2 [H2 F2]].
    exists (new1 ++ new2). rewrite H2, app_assoc. split; [reflexivity |].
    apply List.Forall_app. auto.
  - exists new1. auto.
Qed.

Lemma emits_catch {A : Type} (P : Call -> Prop) (m h : M A) :
  emits P m -> emits P h -> emits P (catch m h).
Proof.
  intros Hm Hh log. unfold catch. destruct (Hm log) as [new1 [H1 F1]].
  destruct (m log) as [log1 [a |]]; simpl in H1; subst log1.
  - exists new1. auto.
  - destruct (Hh (log ++ new1)) as [new2 [H2 F2]].
    exists (new1 ++ new2). rewrite H2, app_assoc. split; [reflexivity |].
    apply List.Forall_app. auto.
Qed.

Lemma emits_request {A : Type} (P : Call -> Prop) (c : Call)
    (answer : list Call -> option A) :
  P c -> emits P (request c answer).
Proof. intros Hc log. exists [c]. split; [reflexivity | repeat constructor; exact Hc]. Qed.

Lemma emits_emit (P : Call -> Prop) (c : Call) : P c -> emits P (emit c).
Proof. intros Hc log. exists [c]. split; [reflexivity | repeat constructor; exact Hc]. Qed.

Lemma emits_impl {A : Type} (P Q : Call -> Prop) (m : M A) :
  (forall c, P c -> Q c) -> emits P m -> emits Q m.
Proof.
  intros H Hm log. destruct (Hm log) as [new [H1 F1]]. exists new.
  split; [exact H1 |]. eapply List.Forall_impl; [exact H | exact F1].
Qed.

Lemma bind_Some {A B : Type} (m : M A) (f : A -> M B) (log log' : list Call) (b : B) :
  bind m f log = (log', Some b) ->
  exists log1 a, m log = (log1, Some a) /\ f a log1 = (log', Some b).
Proof.
  unfold bind. destruct (m log) as [log1 [a |]]; [eauto | discriminate].
Qed.

(** ** Retrieval *)

Lemma generateEmbedding_emits (W : World) (t : str) (P : Call -> Prop) :
  P (EmbeddingsCreate (OneText t)) -> emits P (Embeddings.generateEmbedding W t).
Proof.
  intros HP. unfold Embeddings.generateEmbedding.
  apply emits_bind.
  - unfold Embeddings.getOpenAIClient.
    destruct (Playbooks.present _); [apply emits_ret | apply emits_throw].
  - intros _. apply emits_bind; [apply emits_request, HP |].
    intros [| e data]; [apply emits_throw | apply emits_ret].
Qed.

Lemma queryVectors_emits (W : World) (tenantId : str) (v : list float)
    (options : Retrieval.QueryOptions.t) (P : Call -> Prop) :
  P (NamespaceQuery tenantId v
       (Playbooks.num_or (Retrieval.QueryOptions.topK options) 5)
       (Retrieval.QueryOptions.filter options)
       (Playbooks.nullish_or (Retrieval.QueryOptions.includeMetadata options) true)) ->
  emits P (Retrieval.queryVectors W tenantId v options).
Proof.
  intros HP. unfold Retrieval.queryVectors.
  apply emits_bind.
  - unfold Retrieval.getPineconeIndex.
    destruct (Playbooks.present _); [apply emits_ret | apply emits_throw].
  - intros _. apply emits_bind; [apply emits_request, HP |].
    intros matches. apply emits_ret.
Qed.

Lemma retrieveRelevantChunks_emits (W : World) (tenantId query : str)
    (options : Retrieval.RetrievalOptions.t) :
  emits (retrieval_call tenantId query options)
        (Retrieval.retrieveRelevantChunks W tenantId query options).
Proof.
  unfold Retrieval.retrieveRelevantChunks.
  apply emits_bind; [apply generateEmbedding_emits; reflexivity |].
  intros v. apply emits_bind; [| intros results; apply emits_ret].
  apply queryVectors_emits. cbn [retrieval_call Retrieval.QueryOptions.topK
    Retrieval.QueryOptions.filter Retrieval.QueryOptions.includeMetadata
    Playbooks.nullish_or].
  split; [reflexivity |]. split; [reflexivity |]. split; [| reflexivity].
  destruct (Retrieval.build_filter options); reflexivity.
Qed.

(** ** The turn *)

Lemma emits_returned {A : Type} (P : Call -> Prop) (x : option A) :
  emits P (returned x).
Proof. destruct x; [apply emits_ret | apply emits_throw]. Qed.

Lemma emits_bind_returned {A B : Type} (P : Call -> Prop) (x : option A) (f : A -> M B) :
  (forall a, x = Some a -> emits P (f a)) -> emits P (bind (returned x) f).
Proof.
  intros H. destruct x as [a |].
  - intros log. exact (H a eq_refl log).
  - intros log. exists []. rewrite app_nil_r. split; [reflexivity | constructor].
Qed.

Section Turn.
Variable W : World.

Lemma retrieve_context_emits (context : L1AgentContext.t) (safeUserMessage : str) :
  emits (l1_call W context safeUserMessage)
        (retrieve_context W context safeUserMessage).
Proof.
  unfold retrieve_context. apply emits_catch.
  - apply emits_bind.
    + eapply emits_impl; [| apply retrieveRelevantChunks_emits].
      intros c H. destruct c; simpl in *; try contradiction; exact H.
    + intros chunks. destruct (Nat.ltb 0 (length chunks)); apply emits_ret.
  - apply emits_bind; [apply emits_emit; exact I | intros _; apply emits_ret].
Qed.

Lemma interpret_tool_call_emits (P : Call -> Prop) toolCalls esc :
  emits P (interpret_tool_call toolCalls esc).
Proof.
  unfold interpret_tool_call.
  destruct toolCalls as [| [funcCall |] more]; try apply emits_ret.
  destruct (arguments funcCall) as [functionArgs |]; [| apply emits_throw].
  destruct (str_eqb (function_name funcCall) "escalate_to_l2").
  - destruct (reason_of functionArgs); [apply emits_ret | apply emits_throw].
  - destruct (str_eqb (function_name funcCall) "escalate_to_human").
    + destruct (reason_of functionArgs); [apply emits_ret | apply emits_throw].
    + apply emits_ret.
Qed.

Lemma answer_with_model_emits (startTime : Z) (context : L1AgentContext.t)
    (safeUserMessage : str) (escalationCheck : EscalationCheck) :
  emits (l1_call W context safeUserMessage)
        (answer_with_model W startTime context safeUserMessage escalationCheck).
Proof.
  unfold answer_with_model.
  apply emits_bind; [apply retrieve_context_emits |].
  intros [ragContext ragSources].
  apply emits_bind_returned. intros systemPrompt Hprompt.
  apply emits_bind.
  { unfold getOpenAIClient. destruct (OPENAI_API_KEY W); [apply emits_ret | apply emits_throw]. }
  intros _.
  apply emits_bind.
  2:{ intros completion.
      destruct (choices completion) as [| [content toolCalls] more]; [apply emits_throw |].
      apply emits_bind; [apply interpret_tool_call_emits |].
      intros [action [[se er] el]].
      destruct (validateAIResponse _) as [validation |]; [| apply emits_throw].
      apply emits_bind.
      - destruct (valid validation); [apply emits_ret | apply emits_emit; exact I].
      - intros _. apply emits_bind; [apply emits_returned |].
        intros playbookStep log. exists []. rewrite app_nil_r.
        split; [reflexivity | constructor]. }
  apply emits_request. cbn [l1_call].
  exists ragContext, systemPrompt. split; [exact Hprompt | reflexivity].
Qed.

End Turn.

(** What a returning call of [answer_with_model] went through. *)
Lemma answer_with_model_Some
    (W : World)
    (startTime : Z) (context : L1AgentContext.t)
    (safeUserMessage : str) (escalationCheck : EscalationCheck)
    (log log' : list Call) (response : L1AgentResponse.t) :
  answer_with_model W startTime context safeUserMessage
    escalationCheck log = (log', Some response) ->
  exists (log1 : list Call) (messages : list ChatMessage) (completion : Completion)
         (content : option str) (toolCalls : list (option FunctionCall))
         (more : list (option str * list (option FunctionCall)))
         (action : option Action.t) (esc : bool * option JSON * option EscalationLevel)
         (validation : Validation),
    chat_completions_create W log1 messages = Some completion /\
    choices completion = (content, toolCalls) :: more /\
    snd (interpret_tool_call toolCalls
           (shouldEscalate escalationCheck,
            Some (JString (join "; " (reasons escalationCheck))), None)
           (log1 ++ [ChatCompletionsCreate messages])) = Some (action, esc) /\
    validateAIResponse (Playbooks.str_or content []) = Some validation /\
    L1AgentResponse.message response =
      (if valid validation then Playbooks.str_or content []
       else sanitizedResponse validation) /\
    L1AgentResponse.shouldEscalate response = fst (fst esc) /\
    L1AgentResponse.escalationLevel response = snd esc.
Proof.
  unfold answer_with_model. intros H.
  apply bind_Some in H as [log1 [[ragContext ragSources] [_ H]]].
  apply bind_Some in H as [log1' [systemPrompt [_ H]]].
  apply bind_Some in H as [log1'' [[] [_ H]]].
  apply bind_Some in H as [log2 [completion [Hchat H]]].
  unfold request in Hchat. injection Hchat as <- Hchat.
  destruct (choices completion) as [| [content toolCalls] more] eqn:Hchoices;
    [discriminate |].
  apply bind_Some in H as [log3 [[action [[se er] el]] [Htool H]]].
  destruct (validateAIResponse _) as [validation |] eqn:Hval; [| discriminate].
  apply bind_Some in H as [log4 [[] [_ H]]].
  apply bind_Some in H as [log5 [playbookStep [_ H]]].
  injection H as _ <-.
  do 9 eexists. split; [exact Hchat |]. split; [exact Hchoices |].
  split; [rewrite Htool; reflexivity |]. split; [exact Hval |].
  split; [reflexivity |]. split; reflexivity.
Qed.

(** A tool call never takes back an escalation. *)
Lemma interpret_tool_call_keeps (toolCalls : list (option FunctionCall))
    (reason : option JSON) (level : option EscalationLevel) (log : list Call)
    (action : option Action.t) (esc : bool * option JSON * option EscalationLevel) :
  snd (interpret_tool_call toolCalls (true, reason, level) log) = Some (action, esc) ->
  fst (fst esc) = true.
Proof.
  unfold interpret_tool_call.
  destruct toolCalls as [| [funcCall |] more]; try (intros [= <- <-]; reflexivity).
  destruct (arguments funcCall) as [functionArgs |]; [| discriminate].
  destruct (str_eqb (function_name funcCall) "escalate_to_l2").
  - destruct (reason_of functionArgs); [intros [= <- <-]; reflexivity | discriminate].
  - destruct (str_eqb (function_name funcCall) "escalate_to_human").
    + destruct (reason_of functionArgs); [intros [= <- <-]; reflexivity | discriminate].
    + intros [= <- <-]. reflexivity.
Qed.

(** An escalation that the guardrail asks for is never taken back: when the
    check on the redacted message asks for escalation, every response of the
    turn has [shouldEscalate = true], whatever the model answers and
    whichever tool it calls. *)
Theorem processL1Request_keeps_escalation
    (W : World)
    (context : L1AgentContext.t) (userMessage : str)
    (redactedInput : RedactionResult) (log : list Call) :
  redactSecrets userMessage = Some redactedInput ->
  shouldEscalate (escalation_check context (text redactedInput)) = true ->
  match snd (processL1Request W context userMessage log) with
  | Some response => L1AgentResponse.shouldEscalate response = true
  | None => True
  end.
Proof.
  intros Hred Hesc. unfold processL1Request. rewrite Hred, Hesc.
  destruct (true && severity_eqb _ Critical); [reflexivity |].
  destruct (answer_with_model _ _ _ _ _ log) as [log' [response |]] eqn:H;
    [| exact I].
  cbn [snd]. apply answer_with_model_Some in H.
  destruct H as (log1 & messages & completion & content & toolCalls & more & action &
                 esc & validation & _ & _ & Htool & _ & _ & Hse & _).
  rewrite Hse. rewrite Hesc in Htool.
  apply (interpret_tool_call_keeps _ _ _ _ _ _ Htool).
Qed.

(** "This is unacceptable" holds the keyword "unacceptable": the check asks
    for escalation with severity 'medium', the model answers in plain text,
    and the response still asks for escalation. *)
Lemma processL1Request_unacceptable_escalates :
  match snd (processL1Request example_world example_context
               "This is unacceptable" []) with
  | Some response => L1AgentResponse.shouldEscalate response = true
  | None => True
  end.
Proof.
  apply (processL1Request_keeps_escalation example_world example_context
           "This is unacceptable"
           {| text := list_ascii_of_string "This is unacceptable";
              redactions := []; hasSecrets := false |} []).
  - vm_compute. reflexivity.
  - vm_compute. reflexivity.
Defined.

(** A case of severity 'critical' gives a critical check, whatever the
    message. *)
Lemma escalation_check_critical_case (context : L1AgentContext.t) (safeUserMessage : str) :
  L1AgentContext.severity context = Critical ->
  check_severity (escalation_check context safeUserMessage) = Critical.
Proof.
  intros Hsev. unfold escalation_check, checkEscalationTriggers, context_steps.
  rewrite Hsev.
  destruct (failed_attempts_step _ _) as [rs sev].
  unfold case_severity_step. cbn [severity severity_name].
  change (str_eqb "critical" "critical") with true. cbv iota.
  unfold customer_requested_step. cbn [customerRequested].
  destruct (includes _ "speak to human" || includes _ "talk to person"); reflexivity.
Qed.

Lemma redactSecrets_total (t : str) : exists r, redactSecrets t = Some r.
Proof.
  unfold redactSecrets.
  destruct (RedactionFacts.redact_patterns_returns SENSITIVE_PATTERNS t eq_refl (t, []))
    as ([res reds] & ->). eauto.
Qed.

(** A case whose severity is 'critical' is never answered by the model:
    whatever the user writes, the turn returns the handoff to a human at
    once ([escalationLevel = L3]), with the log of calls as it was. *)
Theorem processL1Request_critical_case
    (W : World)
    (context : L1AgentContext.t) (userMessage : str) (log : list Call) :
  L1AgentContext.severity context = Critical ->
  exists response : L1AgentResponse.t,
    processL1Request W context userMessage log = (log, Some response) /\
    L1AgentResponse.shouldEscalate response = true /\
    L1AgentResponse.escalationLevel response = Some L3 /\
    L1AgentResponse.sources response = None.
Proof.
  intros Hsev. destruct (redactSecrets_total userMessage) as [r Hred].
  pose proof (escalation_check_critical_case context (text r) Hsev) as Hc.
  pose proof (L1AgentFacts.escalation_check_critical context (text r) Hc) as Hesc.
  unfold processL1Request. rewrite Hred, Hesc, Hc.
  change (true && severity_eqb Critical Critical) with true. cbv iota.
  eexists. split; [reflexivity |]. split; [reflexivity |]. split; reflexivity.
Qed.

(** A case of severity 'critical' and a harmless message. *)
Lemma processL1Request_critical_case_example :
  exists response : L1AgentResponse.t,
    processL1Request example_world critical_context
      "My printer shows a blank page" [] = ([], Some response) /\
    L1AgentResponse.shouldEscalate response = true /\
    L1AgentResponse.escalationLevel response = Some L3 /\
    L1AgentResponse.sources response = None.
Proof.
  apply (processL1Request_critical_case example_world critical_context
           "My printer shows a blank page" []).
  reflexivity.
Defined.

Lemma validateAIResponse_total (response : str) :
  exists v, validateAIResponse response = Some v.
Proof.
  unfold validateAIResponse. destruct (redactSecrets_total response) as [r ->]. eauto.
Qed.

(** A failing retrieval does not fail the turn. *)
Lemma retrieve_context_returns (W : World) (context : L1AgentContext.t)
    (safeUserMessage : str) :
  returns (retrieve_context W context safeUserMessage).
Proof.
  intros log. unfold retrieve_context, catch.
  destruct (bind _ _ log) as [log1 [a |]]; [eauto |].
  unfold bind, emit, ret. eauto.
Qed.

Lemma formatInstruction_returns (W : World) (context : L1AgentContext.t)
    (state : Playbooks.PlaybookExecutionState.t) (instruction : str) :
  formats W context ->
  L1AgentContext.playbookState context = Some state ->
  exists formatted : str,
    formatInstruction W instruction (Playbooks.PlaybookExecutionState.variables state) =
      Some formatted.
Proof. intros H Hs. exact (H state instruction Hs). Qed.

Lemma buildSystemPrompt_returns (W : World) (context : L1AgentContext.t)
    (ragContext : str) (playbook : option Playbooks.Playbook.t) :
  formats W context ->
  exists systemPrompt : str,
    buildSystemPrompt W context ragContext playbook = Some systemPrompt.
Proof.
  intros Hf. unfold buildSystemPrompt.
  destruct playbook as [pb |]; [| cbn [option_map]; eauto].
  destruct (L1AgentContext.playbookState context) as [state |] eqn:Hs;
    [| cbn [option_map]; eauto].
  destruct (Playbooks.getCurrentStep pb state) as [currentStep |];
    [| cbn [option_map]; eauto].
  destruct (formatInstruction_returns W context state
              (Playbooks.PlaybookStep.instruction currentStep) Hf Hs) as [formatted ->].
  cbn [option_map]. eauto.
Qed.

Lemma step_info_returns (W : World) (context : L1AgentContext.t)
    (playbook : option Playbooks.Playbook.t) :
  formats W context ->
  exists playbookStep : option StepInfo.t,
    step_info W context playbook = Some playbookStep.
Proof.
  intros Hf. unfold step_info.
  destruct playbook as [pb |]; [| eauto].
  destruct (L1AgentContext.playbookState context) as [state |] eqn:Hs; [| eauto].
  destruct (Playbooks.getCurrentStep pb state) as [currentStep |]; [| eauto].
  destruct (formatInstruction_returns W context state
              (Playbooks.PlaybookStep.instruction currentStep) Hf Hs) as [formatted ->].
  eauto.
Qed.

(** Retrieval cannot fail a turn.  When the key of the language model is
    set, the keys of the playbook variables compile, and the chat model
    answers every request in text, [processL1Request] returns a response from
    every log, whatever the embedding model and the vector index do: they
    may throw, and the key of the index may be missing. *)
Theorem processL1Request_survives_retrieval
    (W : World)
    (context : L1AgentContext.t) (userMessage : str) (log : list Call) :
  Playbooks.present (OPENAI_API_KEY W) = true ->
  formats W context ->
  answers_in_text W ->
  exists (log' : list Call) (response : L1AgentResponse.t),
    processL1Request W context userMessage log = (log', Some response).
Proof.
  intros Hkey Hformat Hchat. unfold processL1Request.
  destruct (redactSecrets_total userMessage) as [r ->].
  destruct (shouldEscalate _ && severity_eqb _ Critical); [eauto |].
  unfold answer_with_model, bind at 1.
  destruct (retrieve_context_returns W context (text r) log)
    as [log1 [[ragContext ragSources] ->]].
  destruct (buildSystemPrompt_returns W context ragContext
              (find_playbook W context (text r)) Hformat) as [systemPrompt ->].
  cbn [returned]. unfold bind at 1, ret at 1.
  unfold getOpenAIClient.
  destruct (OPENAI_API_KEY W) as [key |]; [| discriminate].
  unfold bind at 1, ret at 1.
  unfold bind at 1, request.
  match goal with
  | |- context [chat_completions_create W log1 ?m] =>
      destruct (Hchat log1 m) as [completion [content [more [-> Hchoices]]]]
  end.
  rewrite Hchoices. unfold interpret_tool_call, bind at 1, ret at 1.
  destruct (validateAIResponse_total (Playbooks.str_or content [])) as [v ->].
  destruct (step_info_returns W context (find_playbook W context (text r)) Hformat)
    as [playbookStep ->].
  cbn [returned]. unfold bind. destruct (valid v); unfold ret, emit; eauto.
Qed.

(** The index has no key and the embedding model fails: retrieval throws,
    and the turn still returns. *)
Lemma processL1Request_survives_failing_retrieval :
  exists (log' : list Call) (response : L1AgentResponse.t),
    processL1Request unindexed_world example_context
      "My printer shows a blank page" [] = (log', Some response).
Proof.
  apply (processL1Request_survives_retrieval unindexed_world example_context
           "My printer shows a blank page" []).
  - reflexivity.
  - intros state instruction H. discriminate H.
  - intros log messages. do 3 eexists. split; reflexivity.
Defined.

(** Without the key of the language model, the agent's client cannot be
    built: a turn that the guard does not hand off throws, and returns no
    response. *)
Theorem processL1Request_needs_the_key
    (W : World)
    (context : L1AgentContext.t) (userMessage : str)
    (redactedInput : RedactionResult) (log : list Call) :
  OPENAI_API_KEY W = None ->
  redactSecrets userMessage = Some redactedInput ->
  check_severity (escalation_check context (text redactedInput)) <> Critical ->
  snd (processL1Request W context userMessage log) = None.
Proof.
  intros Hkey Hred Hsev. unfold processL1Request. rewrite Hred.
  assert (Hguard : shouldEscalate (escalation_check context (text redactedInput)) &&
                   severity_eqb (check_severity
                                   (escalation_check context (text redactedInput)))
                                Critical = false).
  { destruct (check_severity _); try congruence; apply andb_false_r. }
  rewrite Hguard. unfold answer_with_model, bind at 1.
  destruct (retrieve_context_returns W context (text redactedInput) log)
    as [log1 [[ragContext ragSources] ->]].
  destruct (buildSystemPrompt W context ragContext _) as [systemPrompt |];
    [| reflexivity].
  cbn [returned]. unfold bind at 1, ret at 1.
  unfold getOpenAIClient. rewrite Hkey. reflexivity.
Qed.

(** The example turn in a world without the key. *)
Lemma processL1Request_needs_the_key_example :
  snd (processL1Request keyless_world example_context
         "My printer shows a blank page" []) = None.
Proof.
  apply (processL1Request_needs_the_key keyless_world example_context
           "My printer shows a blank page"
           {| text := list_ascii_of_string "My printer shows a blank page";
              redactions := []; hasSecrets := false |} []).
  - reflexivity.
  - vm_compute. reflexivity.
  - vm_compute. discriminate.
Defined.

(** The message of a response is always a redacted text: either the fixed
    text of the handoff, or the text that [redactSecrets] returns for what
    the chat model said. *)
Theorem processL1Request_message_is_redacted
    (W : World)
    (context : L1AgentContext.t) (userMessage : str) (log : list Call) :
  match snd (processL1Request W context userMessage log) with
  | Some response =>
      (exists (check : EscalationCheck) (startTime now : Z),
         response = handoff startTime now check) \/
      (exists (content : str) (redacted : RedactionResult),
         said_by_model W content /\
         redactSecrets content = Some redacted /\
         L1AgentResponse.message response = text redacted)
  | None => True
  end.
Proof.
  unfold processL1Request.
  destruct (redactSecrets userMessage) as [r |]; [| exact I].
  destruct (shouldEscalate _ && severity_eqb _ Critical).
  - cbn [snd]. left. eauto.
  - destruct (answer_with_model _ _ _ _ _ log) as [log' [response |]] eqn:H;
      [| exact I].
    cbn [snd]. right. apply answer_with_model_Some in H.
    destruct H as (log1 & messages & completion & content & toolCalls & more & action &
                   esc & validation & Hchat & Hchoices & _ & Hval & Hmsg & _).
    destruct (SafetyFacts.validateAIResponse_sanitized _ _ Hval) as [r' [Hr [_ [Hm _]]]].
    exists (Playbooks.str_or content []), r'.
    split; [| split; [exact Hr | rewrite Hmsg; exact Hm]].
    exists log1, messages, completion, content, toolCalls, more. auto.
Qed.

(** What a turn of the tier-1 agent sends out.  Whatever the services
    answer, every request of the turn is one of: the embedding of the
    redacted text of the user's message; a query of the namespace of the
    case's tenant, for five matches under the filter of the case's product;
    the chat request, whose last message is the redacted text, after the
    conversation history and the system prompt, built from the case, the
    retrieved context and the playbook found for the redacted text. *)
Theorem processL1Request_sends_redacted
    (W : World)
    (context : L1AgentContext.t) (userMessage : str)
    (redactedInput : RedactionResult) (log : list Call) :
  redactSecrets userMessage = Some redactedInput ->
  exists new : list Call,
    fst (processL1Request W context userMessage log) = log ++ new /\
    Forall (l1_call W context (text redactedInput)) new.
Proof.
  intros Hred. unfold processL1Request. rewrite Hred.
  destruct (shouldEscalate _ && severity_eqb _ Critical).
  - exists []. rewrite app_nil_r. split; [reflexivity | constructor].
  - apply answer_with_model_emits.
Qed.

(** A message with a password: the requests carry "[REDACTED Password]". *)
Lemma processL1Request_sends_redacted_password :
  exists new : list Call,
    fst (processL1Request example_world example_context
           "my password=abcdefgh fails" []) = [] ++ new /\
    Forall (l1_call example_world example_context
              (text {| text := list_ascii_of_string "my [REDACTED Password] fails";
                       redactions := [ {| type := list_ascii_of_string "Password";
                                          original := list_ascii_of_string "pass...";
                                          position := 3 |} ];
                       hasSecrets := true |})) new.
Proof.
  apply (processL1Request_sends_redacted example_world example_context
           "my password=abcdefgh fails"
           {| text := list_ascii_of_string "my [REDACTED Password] fails";
              redactions := [ {| type := list_ascii_of_string "Password";
                                 original := list_ascii_of_string "pass...";
                                 position := 3 |} ];
              hasSecrets := true |} []).
  vm_compute. reflexivity.
Defined.

End TurnFacts.

(* ===================================================================== *)
(** * Properties of the shape of the chunks                               *)
(* ===================================================================== *)
Module ChunkShapeFacts.
Import JS Regex Chunker JSFacts Spec Examples ChunkSpec ChunkerFacts.

(** ** The indices of the chunks *)

Lemma number_from_index (i : nat) (cs : list SectionChunk.t) :
  map TextChunk.index (number_from i cs) = List.seq i (length cs).
Proof.
  revert i. induction cs as [| c cs IH]; intros i; simpl; [reflexivity |].
  f_equal. apply IH.
Qed.

Lemma number_from_length (i : nat) (cs : list SectionChunk.t) :
  length (number_from i cs) = length cs.
Proof.
  revert i. induction cs as [| c cs IH]; intros i; simpl; [reflexivity |].
  f_equal. apply IH.
Qed.

Lemma section_step_index (maxTokens minTokens overlapTokens : Z)
    (acc : list TextChunk.t * Z) (section : str) :
  map TextChunk.index (fst acc) = List.seq 0 (length (fst acc)) ->
  map TextChunk.index (fst (section_step maxTokens minTokens overlapTokens acc section)) =
    List.seq 0 (length (fst (section_step maxTokens minTokens overlapTokens acc section))).
Proof.
  destruct acc as [cs charOffset]. unfold section_step. cbn [fst].
  generalize (chunkSection section maxTokens minTokens overlapTokens). intros new.
  revert cs. induction new as [| chunk new IH]; intros cs Hcs; simpl; [exact Hcs |].
  apply IH. rewrite map_app, length_app, Hcs. simpl.
  rewrite Nat.add_1_r, seq_S. reflexivity.
Qed.

(** The chunks of [chunkText] are numbered from 0 in the order in which they
    are returned: chunk [i] has [index = i], so that no two chunks of a text
    have the same index. *)
Theorem chunkText_indices (t : str) (options : ChunkOptions.t) :
  map TextChunk.index (chunkText t options) = List.seq 0 (length (chunkText t options)).
Proof.
  unfold chunkText.
  destruct (negb (truthy (cleanText t))); [reflexivity |].
  destruct (test headerPattern (cleanText t));
    [| rewrite number_from_length; apply number_from_index].
  set (step := section_step _ _ _).
  assert (H : forall (ss : list str) acc,
            map TextChunk.index (fst acc) = List.seq 0 (length (fst acc)) ->
            map TextChunk.index (fst (fold_left step ss acc)) =
              List.seq 0 (length (fst (fold_left step ss acc)))).
  { induction ss as [| s ss IH]; intros acc Hacc; simpl; [exact Hacc |].
    apply IH. apply section_step_index, Hacc. }
  apply H. reflexivity.
Qed.

Lemma nonblank_trim (s : str) : truthy (trim s) = true -> blank (trim s) = false.
Proof.
  rewrite truthy_trim, blank_trim. destruct (blank s); [discriminate | reflexivity].
Qed.

Lemma push_nonblank (cs : list SectionChunk.t) (buffer : str) (s e tokens : Z) :
  Forall nonblank_chunk cs ->
  truthy (trim buffer) = true ->
  Forall nonblank_chunk (cs ++ [mk_chunk (trim buffer) s e tokens]).
Proof.
  intros Hcs Ht. apply List.Forall_app. split; [exact Hcs |].
  constructor; [| constructor]. apply nonblank_trim, Ht.
Qed.

Lemma sentence_chunk_step_nonblank (maxTokens overlapTokens : Z)
    (st : section_state) (sentence : str) :
  Forall nonblank_chunk (chunks st) ->
  Forall nonblank_chunk (chunks (sentence_chunk_step maxTokens overlapTokens st sentence)).
Proof.
  intros H. unfold sentence_chunk_step.
  destruct ((maxTokens <? _)%Z && truthy (trim (currentChunk st))) eqn:E;
    cbn [chunks]; [| exact H].
  apply andb_true_iff in E as [_ E]. apply push_nonblank; assumption.
Qed.

Lemma sentence_loop_nonblank (maxTokens overlapTokens : Z) (sentences : list str)
    (st : section_state) :
  Forall nonblank_chunk (chunks st) ->
  Forall nonblank_chunk
    (chunks (fold_left (sentence_chunk_step maxTokens overlapTokens) sentences st)).
Proof.
  revert st. induction sentences as [| s sentences IH]; intros st H; simpl; [exact H |].
  apply IH, sentence_chunk_step_nonblank, H.
Qed.

Lemma paragraph_step_nonblank (maxTokens overlapTokens : Z)
    (st : section_state) (paragraph : str) :
  Forall nonblank_chunk (chunks st) ->
  Forall nonblank_chunk (chunks (paragraph_step maxTokens overlapTokens st paragraph)).
Proof.
  intros H. unfold paragraph_step.
  destruct (maxTokens <? estimateTokens paragraph)%Z.
  - match goal with
    | |- context [fold_left ?f ?l ?s] =>
        pose proof (sentence_loop_nonblank maxTokens overlapTokens l s) as Hl;
        set (inner := fold_left f l s) in *
    end.
    assert (Hinner : Forall nonblank_chunk (chunks inner)).
    { apply Hl. cbn [chunks].
      destruct (truthy (trim (currentChunk st))) eqn:E; [| exact H].
      apply push_nonblank; assumption. }
    destruct (truthy (trim (currentChunk inner))); exact Hinner.
  - destruct (maxTokens <? _)%Z; cbn [chunks]; [| exact H].
    destruct (truthy (trim (currentChunk st))) eqn:E; [| exact H].
    apply push_nonblank; assumption.
Qed.

Lemma merge_into_last_nonblank (cs : list SectionChunk.t) (tail : str) (e : Z) :
  Forall nonblank_chunk cs ->
  Forall nonblank_chunk (merge_into_last cs tail e).
Proof.
  intros H. unfold merge_into_last.
  destruct (rev cs) as [| lastChunk before] eqn:E; [constructor |].
  assert (Hr : Forall nonblank_chunk (rev cs)) by (apply List.Forall_rev, H).
  rewrite E in Hr. inversion Hr as [| ? ? Hlast Hbefore]; subst.
  apply List.Forall_app. split; [apply List.Forall_rev, Hbefore |].
  constructor; [| constructor].
  unfold nonblank_chunk, mk_chunk. cbn [SectionChunk.content].
  rewrite blank_app. unfold nonblank_chunk in Hlast. rewrite Hlast. reflexivity.
Qed.

Lemma chunkSection_nonblank (t : str) (maxTokens minTokens overlapTokens : Z) :
  Forall nonblank_chunk (chunkSection t maxTokens minTokens overlapTokens).
Proof.
  unfold chunkSection.
  assert (H : forall paragraphs st,
            Forall nonblank_chunk (chunks st) ->
            Forall nonblank_chunk
              (chunks (fold_left (paragraph_step maxTokens overlapTokens) paragraphs st))).
  { induction paragraphs as [| p ps IH]; intros st Hst; simpl; [exact Hst |].
    apply IH, paragraph_step_nonblank, Hst. }
  specialize (H (splitIntoParagraphs t)
                {| chunks := []; currentChunk := []; currentStartChar := 0;
                   charOffset := 0 |} (List.Forall_nil _)).
  set (st := fold_left _ _ _) in *. unfold finish.
  destruct (truthy (trim (currentChunk st))) eqn:E; cbn [andb].
  - destruct (minTokens <=? _)%Z; [apply push_nonblank; assumption |].
    destruct (Nat.ltb 0 (length (chunks st)));
      [apply merge_into_last_nonblank, H | apply push_nonblank; assumption].
  - exact H.
Qed.

(** No chunk of [chunkText] is empty or made of white space only. *)
Theorem chunkText_contents_nonblank (t : str) (options : ChunkOptions.t) :
  Forall (fun c => blank (TextChunk.content c) = false) (chunkText t options).
Proof.
  unfold chunkText.
  destruct (negb (truthy (cleanText t))); [constructor |].
  destruct (test headerPattern (cleanText t)).
  - set (maxTokens := Playbooks.nullish_or _ _).
    set (minTokens := Playbooks.nullish_or _ _).
    set (overlapTokens := Playbooks.nullish_or _ _).
    assert (H : forall (ss : list str) acc,
              Forall (fun c => blank (TextChunk.content c) = false) (fst acc) ->
              Forall (fun c => blank (TextChunk.content c) = false)
                (fst (fold_left (section_step maxTokens minTokens overlapTokens)
                        ss acc))).
    { induction ss as [| s ss IH]; intros acc Hacc; simpl; [exact Hacc |].
      apply IH. destruct acc as [cs charOffset]. unfold section_step. cbn [fst] in *.
      pose proof (chunkSection_nonblank s maxTokens minTokens overlapTokens) as Hs.
      revert cs Hacc. induction Hs as [| chunk new Hc _ IHn]; intros cs Hcs; simpl;
        [exact Hcs |].
      apply IHn. apply List.Forall_app. split; [exact Hcs |].
      constructor; [exact Hc | constructor]. }
    apply H. constructor.
  - generalize (chunkSection_nonblank (cleanText t)
                  (Playbooks.nullish_or (ChunkOptions.maxTokens options) 500%Z)
                  (Playbooks.nullish_or (ChunkOptions.minTokens options) 100%Z)
                  (Playbooks.nullish_or (ChunkOptions.overlapTokens options) 50%Z)).
    generalize 0. intros i H. revert i.
    induction H as [| chunk new Hc _ IHn]; intros i; simpl; constructor; auto.
Qed.

(** ** getOverlapText *)

Lemma join_nonempty (sep : str) (l : list str) :
  match l with
  | [] => True
  | x :: _ => x <> [] -> join sep l <> []
  end.
Proof.
  destruct l as [| x [| y l]]; simpl; auto.
  intros Hx H. apply app_eq_nil in H as [H _]. auto.
Qed.

Lemma overlap_candidates_nonempty (sentences : list str) :
  Forall (fun s => blank s = false) sentences ->
  Forall (fun c => (0 < len c)%Z) (overlap_candidates sentences).
Proof.
  intros H. unfold overlap_candidates. apply List.Forall_forall.
  intros c Hc. apply in_map_iff in Hc as [i [<- Hi]].
  apply in_rev, in_seq in Hi.
  destruct (skipn i sentences) as [| x rest] eqn:E.
  - apply (f_equal (@length _)) in E. rewrite length_skipn in E. simpl in E. lia.
  - assert (Hx : In x sentences).
    { rewrite <- (firstn_skipn i sentences). apply in_or_app. right.
      rewrite E. left. reflexivity. }
    rewrite List.Forall_forall in H. specialize (H x Hx).
    pose proof (join_nonempty " " (x :: rest)) as Hj. cbn iota in Hj.
    assert (Hne : x <> []) by (intros ->; discriminate).
    specialize (Hj Hne). unfold len.
    destruct (join " " (x :: rest)); [congruence | simpl; lia].
Qed.

(** With [overlapTokens = 0] the overlap is the whole text: [slice(-0)] is
    [slice(0)], and no candidate has length 0. *)
Theorem getOverlapText_zero (t : str) : getOverlapText t 0 = t.
Proof.
  unfold getOverlapText. change (0 * 4)%Z with 0%Z.
  destruct (len t <=? 0)%Z; [reflexivity |].
  change (- 0 * 2)%Z with 0%Z. change (- 0)%Z with 0%Z.
  assert (Hs : slice_from t 0 = t).
  { unfold slice_from, clamp_index. simpl.
    rewrite Z.min_l by apply len_nonneg. reflexivity. }
  rewrite Hs.
  destruct (Nat.ltb 1 (length (splitIntoSentences t))); [| reflexivity].
  pose proof (overlap_candidates_nonempty _ (splitIntoSentences_nonblank t)) as Hc.
  assert (Hf : fold_left (fun overlap candidate : str =>
                            if (len candidate <=? 0)%Z then candidate else overlap)
                 (overlap_candidates (splitIntoSentences t)) [] = []).
  { induction Hc as [| c cs Hlen _ IH]; simpl; [reflexivity |].
    destruct (Z.leb_spec (len c) 0); [lia | exact IH]. }
  rewrite Hf. reflexivity.
Qed.

(** For [overlapTokens >= 1] the overlap has at most [4 * overlapTokens]
    characters, and a text that short is its own overlap. *)
Theorem getOverlapText_bound (t : str) (overlapTokens : Z) :
  (1 <= overlapTokens)%Z ->
  (len (getOverlapText t overlapTokens) <= 4 * overlapTokens)%Z /\
  (if (len t <=? 4 * overlapTokens)%Z then getOverlapText t overlapTokens = t else True).
Proof.
  intros Ho. split; [apply getOverlapText_length; lia |].
  destruct (len t <=? 4 * overlapTokens)%Z eqn:E; [| exact I].
  unfold getOverlapText. rewrite Z.mul_comm, E. reflexivity.
Qed.

(** The default overlap of 50 tokens, on a text of 1000 characters. *)
Lemma getOverlapText_bound_default :
  (len (getOverlapText (repeat "a"%char 1000) 50) <= 4 * 50)%Z /\
  (if (len (repeat "a"%char 1000) <=? 4 * 50)%Z
   then getOverlapText (repeat "a"%char 1000) 50 = repeat "a"%char 1000 else True).
Proof.
  apply (getOverlapText_bound (repeat "a"%char 1000) 50). lia.
Defined.

(** ** Blank texts *)

Lemma blank_skipn (n : nat) (s : str) : blank s = true -> blank (skipn n s) = true.
Proof.
  revert s. induction n as [| n IH]; intros [| c s]; simpl; auto.
  intros H. apply andb_true_iff in H as [_ H]. apply IH, H.
Qed.

Lemma replace_all_from_blank (fuel : nat) (ml : bool) (r : regex) (rep : str) :
  blank rep = true ->
  forall (p : option ascii) (s : str) (i : nat),
    blank s = true -> blank (replace_all_from fuel ml r rep p s i) = true.
Proof.
  intros Hrep. induction fuel as [| fuel IH]; intros p s i Hs; simpl; [exact Hs |].
  destruct s as [| c t]; [reflexivity |].
  assert (Hc : is_space c = true /\ blank t = true).
  { simpl in Hs. apply andb_true_iff in Hs. exact Hs. }
  destruct Hc as [Hc Ht].
  assert (Hkeep : blank (c :: replace_all_from fuel ml r rep (Some c) t (S i)) = true).
  { simpl. rewrite Hc. apply IH, Ht. }
  destruct (match_here ml r _) as [e |]; [| exact Hkeep].
  destruct (Nat.leb e i); [exact Hkeep |].
  rewrite blank_app, Hrep. apply IH. apply blank_skipn. exact Hs.
Qed.

Lemma cleanText_blank (t : str) : blank t = true -> cleanText t = [].
Proof.
  intros H. unfold cleanText.
  assert (Hb : forall r rep s, blank rep = true -> blank s = true ->
                               blank (replace_all r rep s) = true).
  { intros r rep s Hr Hs. unfold replace_all. apply replace_all_from_blank; assumption. }
  match goal with
  | |- trim ?x = [] =>
      assert (Hx : blank x = true) by (repeat apply Hb; auto);
      pose proof (truthy_trim x) as Ht; rewrite Hx in Ht;
      destruct (trim x); [reflexivity | discriminate]
  end.
Qed.

(** A text that is empty or made of white space only gives no chunk. *)
Theorem chunkText_blank (t : str) (options : ChunkOptions.t) :
  blank t = true -> chunkText t options = [].
Proof.
  intros H. unfold chunkText. rewrite (cleanText_blank t H). reflexivity.
Qed.

(** A line of spaces, a tab and a line feed. *)
Lemma chunkText_blank_example :
  chunkText (" " ++ tab ++ " " ++ nl) default_options = [].
Proof.
  apply (chunkText_blank (" " ++ tab ++ " " ++ nl) default_options).
  vm_compute. reflexivity.
Defined.

End ChunkShapeFacts.
